(** * RamFS: the in-memory inode graph and its path resolver

    A shallow embedding of [Filesystem.c] / [Filesystem.h] and of the
    callbacks of [main.c] that drive it.  Inodes live in a heap indexed by
    addresses; an address that was released is never handed out again, so a
    dangling pointer is detected when it is dereferenced.  Every C function
    becomes a function into [result]: a normal return, a failing return with
    the [errno] it left behind, or a [fault]: the call does not return (an
    assertion aborts the process) or the C program has no defined behaviour
    from that point on. *)

From Stdlib Require Import ZArith Ascii String.
From stdpp Require Import gmap strings list.

Local Open Scope Z_scope.

(** ** Results of a call *)

(** [EUNCHANGED] stands for a failing return on a path of the source that
    does not assign [errno]. *)
Inductive errno :=
  ENOENT | ENOTDIR | ENOTEMPTY | EEXIST | ENOSPC | EINVAL | EPERM | EBUSY | EISDIR
| EUNCHANGED.

Inductive fault :=
| NullDeref      (* a field of the NULL pointer is read or written *)
| Dangling       (* a released (or never allocated) inode is accessed *)
| AssertFailed   (* an [assert] of the source does not hold *)
| Overflow       (* [strcpy] past the end of a fixed-size buffer *)
| OutOfFuel.     (* the recursion bound of the model was exhausted *)

Inductive result (A : Type) :=
| Ok (a : A)
| Error (e : errno)
| Crash (f : fault).
Arguments Ok {A} a.
Arguments Error {A} e.
Arguments Crash {A} f.

#[global] Instance result_ret : MRet result := fun _ a => Ok a.
#[global] Instance result_bind : MBind result := fun _ _ k m =>
  match m with
  | Ok a => k a
  | Error e => Error e
  | Crash f => Crash f
  end.

#[global] Instance errno_eq_dec : EqDecision errno.
Proof. solve_decision. Defined.
#[global] Instance fault_eq_dec : EqDecision fault.
Proof. solve_decision. Defined.
#[global] Instance result_eq_dec {A} `{EqDecision A} : EqDecision (result A).
Proof. solve_decision. Defined.

(** ** Data model ([Filesystem.h]) *)

(** A C string is the sequence of its bytes before the terminating NUL. *)
Abbreviation cstr := (list ascii) (only parsing).
Definition str (s : string) : cstr := list_ascii_of_string s.

Definition Split : ascii := "/"%char.

(** Limits of [<limits.h>] on Linux. *)
Definition NAME_MAX : nat := 255.
Definition PATH_MAX : nat := 4096.

(** File-type bits of [<sys/stat.h>] on Linux. *)
Definition S_IFMT  : Z := 61440.   (* 0170000 *)
Definition S_IFDIR : Z := 16384.   (* 0040000 *)
Definition S_IFREG : Z := 32768.   (* 0100000 *)
Definition S_IRWXU : Z := 448.     (* 0700 *)
Definition S_IRWXG : Z := 56.      (* 0070 *)
Definition S_IRWXO : Z := 7.       (* 0007 *)

Definition S_ISDIR (m : Z) : bool := Z.land m S_IFMT =? S_IFDIR.
Definition S_ISREG (m : Z) : bool := Z.land m S_IFMT =? S_IFREG.

Abbreviation ptr := nat (only parsing).
Definition NULL : ptr := 0%nat.

(** [struct entryTM]: one cell of a directory's linked list.  The [next]
    field is the list structure itself. *)
Record entry := Entry { name : cstr; node : ptr }.

(** [struct inode].  [data] is the entry list of a directory (the empty list
    is the NULL pointer); the byte buffer of a regular file, the owner ids and
    the size play no part in the namespace operations and are left out. *)
Record inode := Inode {
  mode : Z;
  nlink : Z;
  nopen : Z;
  data : list entry;
  parent : ptr;
  traversing : bool
}.

#[global] Instance entry_eq_dec : EqDecision entry.
Proof. solve_decision. Defined.
#[global] Instance inode_eq_dec : EqDecision inode.
Proof. solve_decision. Defined.

(** Ghost events: [releaseAll] records when the body of a visit to an inode
    starts and when it ends.  The trace is never read by the program. *)
Inductive event := Enter (p : ptr) | Leave (p : ptr).

#[global] Instance event_eq_dec : EqDecision event.
Proof. solve_decision. Defined.

(** The memory: the heap of inodes ([cells]), the next address [calloc]
    hands out ([brk]), and the ghost trace, most recent event first. *)
Record state := State { cells : gmap nat inode; brk : nat; trace : list event }.

Definition load (h : state) (p : ptr) : result inode :=
  if decide (p = NULL) then Crash NullDeref else
  match cells h !! p with
  | Some i => Ok i
  | None => Crash Dangling
  end.

Definition store (h : state) (p : ptr) (i : inode) : state :=
  State (<[p := i]> (cells h)) (brk h) (trace h).

(** [free(node)]; the entry list of a directory goes with it
    ([free(node->data)]). *)
Definition free (h : state) (p : ptr) : state :=
  State (delete p (cells h)) (brk h) (trace h).

(** [calloc(1, sizeof(inode))], when it succeeds. *)
Definition zero_inode : inode := Inode 0 0 0 [] NULL false.
Definition calloc_inode (h : state) : state * ptr :=
  (State (<[brk h := zero_inode]> (cells h)) (S (brk h)) (trace h), brk h).

Definition set_mode (m : Z) (i : inode) := Inode m (nlink i) (nopen i) (data i) (parent i) (traversing i).
Definition set_nlink (n : Z) (i : inode) := Inode (mode i) n (nopen i) (data i) (parent i) (traversing i).
Definition set_data (d : list entry) (i : inode) := Inode (mode i) (nlink i) (nopen i) d (parent i) (traversing i).
Definition set_parent (p : ptr) (i : inode) := Inode (mode i) (nlink i) (nopen i) (data i) p (traversing i).
Definition set_traversing (b : bool) (i : inode) := Inode (mode i) (nlink i) (nopen i) (data i) (parent i) b.

(** [isDir(node)] reads [node->mode]. *)
Definition isDir (h : state) (p : ptr) : result bool :=
  i ← load h p; Ok (S_ISDIR (mode i)).

(** ** Path resolution *)

(** [for (; path[n] != '\0' && path[n] != Split; ++n);] *)
Fixpoint component_length (path : cstr) : nat :=
  match path with
  | [] => 0
  | c :: rest => if decide (c = Split) then 0 else S (component_length rest)
  end.

(** [strlen(p->name) == n && strncmp(path, p->name, n) == 0] *)
Definition name_matches (path : cstr) (n : nat) (e : entry) : bool :=
  (length (name e) =? n)%nat && bool_decide (take n path = take n (name e)).

(** The scan [for (entry* p = root->data; p; p = p->next)] of [pathfind]. *)
Fixpoint find_entry (path : cstr) (n : nat) (l : list entry) : option entry :=
  match l with
  | [] => None
  | e :: l' => if name_matches path n e then Some e else find_entry path n l'
  end.

(** The optional separator at the start: [if (path[0] == Split) path++;] *)
Definition skip_split (path : cstr) : cstr :=
  match path with
  | c :: rest => if decide (c = Split) then rest else path
  | [] => path
  end.

(** [pathfind].  The recursion consumes the path, so [fuel] bounds it by the
    length of the path ([pathfind] below). *)
Fixpoint pathfind_rec (fuel : nat) (h : state) (path : cstr) (root : ptr) : result ptr :=
  match fuel with
  | O => Crash OutOfFuel
  | S fuel' =>
    let path := skip_split path in
    match path with
    | [] => Ok root
    | _ =>
      d ← isDir h root;
      if negb d then Error ENOTDIR else
      i ← load h root;
      let n := component_length path in
      match find_entry path n (data i) with
      | Some e => pathfind_rec fuel' h (drop n path) (node e)
      | None => Error ENOENT
      end
    end
  end.

Definition pathfind (h : state) (path : cstr) (root : ptr) : result ptr :=
  pathfind_rec (S (length path)) h path root.

(** ** Entry-list primitives *)

(** [addEntry].  [alloc] tells whether [calloc] succeeds.  The list must not
    be NULL ([list->next] is read first); [strcpy] into [char name[NAME_MAX]]
    needs room for the name and its NUL. *)
Definition addEntry (alloc : bool) (l : list entry) (nm : cstr)
  : result (list entry) :=
  match l with
  | [] => Crash NullDeref
  | _ =>
    if negb alloc then Error ENOSPC
    else if (NAME_MAX <=? length nm)%nat then Crash Overflow
    else Ok (l ++ [Entry nm NULL])
  end.

(** The caller's [p->node = node] on the entry [addEntry] returned (the last
    one). *)
Fixpoint set_last_node (n : ptr) (l : list entry) : list entry :=
  match l with
  | [] => []
  | [e] => [Entry (name e) n]
  | e :: l' => e :: set_last_node n l'
  end.

(** The loop of [removeEntry]: [p] is the cell whose successors [rest] are
    still to be examined. *)
Fixpoint remove_after (nm : cstr) (rest : list entry) : option (ptr * list entry) :=
  match rest with
  | [] => None
  | e :: rest' =>
    if bool_decide (nm = name e) then Some (node e, rest')
    else match remove_after nm rest' with
         | Some (r, l) => Some (r, e :: l)
         | None => None
         end
  end.

(** [removeEntry] returns the inode of the removed entry and the list that
    is left. *)
Definition removeEntry (l : list entry) (nm : cstr) : result (ptr * list entry) :=
  match l with
  | [] => Crash NullDeref
  | hd :: rest =>
    match remove_after nm rest with
    | Some (r, l) => Ok (r, hd :: l)
    | None => Error ENOENT
    end
  end.

(** ** Splitting a path into parent directory and file name *)

Definition checkPath (path : cstr) : result unit :=
  match path with
  | [] => Error ENOENT
  | c :: _ => if decide (c = Split) then Ok () else Error EINVAL
  end.

(** The index the loop [while (result[--n] != Split) assert(n >= 0);] stops
    at: the position of the last separator. *)
Fixpoint last_split (s : cstr) : option nat :=
  match s with
  | [] => None
  | c :: rest =>
    match last_split rest with
    | Some k => Some (S k)
    | None => if decide (c = Split) then Some 0%nat else None
    end
  end.

(** [extractPrefix] returns [n] and leaves the prefix in [result].  The
    difference [strlen(result) - n] is taken in [size_t]. *)
Definition extractPrefix (path : cstr) : result (nat * cstr) :=
  if (PATH_MAX <=? length path)%nat then Crash Overflow else
  match last_split path with
  | None => Crash AssertFailed
  | Some n =>
    let result := take n path in                       (* result[n] = 0 *)
    if (Z.of_nat (length result) - Z.of_nat n) `mod` 2 ^ 64 =? 1
    then Error ENOENT
    else Ok (n, result)
  end.

(** [if (!p) return NULL;] on a pointer a callee returned. *)
Definition nonnull (r : result ptr) : result ptr :=
  p ← r; if decide (p = NULL) then Error EUNCHANGED else Ok p.

Definition getParentDirectory (h : state) (path : cstr) (root : ptr)
  : result (ptr * cstr) :=
  _ ← checkPath path;
  '(n, dirPath) ← extractPrefix path;
  dirNode ← nonnull (pathfind h dirPath root);
  d ← isDir h dirNode;
  if negb d then Error ENOTDIR else
  Ok (dirNode, drop (n + 1) path).

(** [isEmpty]: more than two cells is non-empty, fewer than two trips the
    assertion. *)
Definition isEmpty (h : state) (dir : ptr) : result bool :=
  i ← load h dir;
  if (2 <? length (data i))%nat then Ok false
  else if (length (data i) =? 2)%nat then Ok true
  else Crash AssertFailed.

(** ** A state and error monad for the mutators

    A failing return keeps the memory as the call left it. *)
Definition M (A : Type) : Type := state -> state * result A.

#[global] Instance M_ret : MRet M := fun _ a h => (h, Ok a).
#[global] Instance M_bind : MBind M := fun _ _ k m h =>
  match m h with
  | (h', Ok a) => k a h'
  | (h', Error e) => (h', Error e)
  | (h', Crash f) => (h', Crash f)
  end.

Definition read {A} (f : state -> result A) : M A := fun h => (h, f h).
Definition write (f : state -> state) : M unit := fun h => (f h, Ok ()).
Definition fail {A} (e : errno) : M A := fun h => (h, Error e).
Definition crash {A} (f : fault) : M A := fun h => (h, Crash f).
Definition assert (b : bool) : M unit :=
  if b then mret () else crash AssertFailed.
Definition emit (e : event) : M unit :=
  write (fun h => State (cells h) (brk h) (e :: trace h)).

(** [p->field = ...]: read the inode at [p], change it, write it back. *)
Definition modify (p : ptr) (f : inode -> inode) : M unit :=
  i ← read (fun h => load h p); write (fun h => store h p (f i)).

(** ** Adding, moving and releasing a node *)

(** The test [if (pathfind(file, dirNode))]: a failing lookup is a NULL. *)
Definition found (r : result ptr) : result bool :=
  match r with
  | Ok p => Ok (negb (bool_decide (p = NULL)))
  | Error _ => Ok false
  | Crash f => Crash f
  end.

Definition addNode (alloc : bool) (path : cstr) (root node : ptr) : M ptr :=
  '(dirNode, file) ← read (fun h => getParentDirectory h path root);
  b ← read (fun h => found (pathfind h file dirNode));
  if (b : bool) then fail EEXIST else
  di ← read (fun h => load h dirNode);
  l ← read (fun _ => addEntry alloc (data di) file);
  _ ← write (fun h => store h dirNode (set_data l di));
  _ ← modify node (fun i => set_nlink (nlink i + 1) i);
  _ ← modify node (fun i => if decide (parent i = NULL) then set_parent dirNode i else i);
  _ ← modify dirNode (fun i => set_data (set_last_node node (data i)) i);
  mret node.

Definition moveNode (alloc : bool) (path newpath : cstr) (root : ptr) : M ptr :=
  '(oldDirNode, oldFile) ← read (fun h => getParentDirectory h path root);
  '(newDirNode, newFile) ← read (fun h => getParentDirectory h newpath root);
  oi ← read (fun h => load h oldDirNode);
  '(node, l) ← read (fun _ => removeEntry (data oi) oldFile);
  _ ← write (fun h => store h oldDirNode (set_data l oi));
  if decide (node = NULL) then fail EUNCHANGED else
  ni ← read (fun h => load h newDirNode);
  l' ← read (fun _ => addEntry alloc (data ni) newFile);
  _ ← write (fun h => store h newDirNode (set_data (set_last_node node l') ni));
  mret node.

(** A call [removeEntry(p->data, nm)] whose return value is not looked at. *)
Definition removeEntry_ (p : ptr) (nm : cstr) : M unit :=
  i ← read (fun h => load h p);
  match removeEntry (data i) nm with
  | Ok (_, l) => write (fun h => store h p (set_data l i))
  | Error _ => mret ()
  | Crash f => crash f
  end.

(** The value of [node] after [inode* node = pathfind(file, dirNode);]. *)
Definition pathfind_or_null (h : state) (path : cstr) (root : ptr) : result ptr :=
  match pathfind h path root with
  | Ok p => Ok p
  | Error _ => Ok NULL
  | Crash f => Crash f
  end.

Definition releaseNode (path : cstr) (root : ptr) : M unit :=
  '(dirNode, file) ← read (fun h => getParentDirectory h path root);
  node ← read (fun h => pathfind_or_null h file dirNode);
  d ← read (fun h => isDir h node);
  _ ← (if (d : bool) then
         e ← read (fun h => isEmpty h node);
         if negb e then fail ENOTEMPTY else
         ni ← read (fun h => load h node);
         _ ← assert (nlink ni =? 2);
         _ ← removeEntry_ node (str "..");
         _ ← modify dirNode (fun i => set_nlink (nlink i - 1) i);
         ni ← read (fun h => load h node);
         _ ← assert (bool_decide (tail (data ni) = []));
         write (fun h => free h node)
       else
         ni ← read (fun h => load h node);
         let n := nlink ni - 1 in
         _ ← write (fun h => store h node (set_nlink n ni));
         if (n =? 0) && (nopen ni =? 0)
         then write (fun h => free h node)
         else mret ());
  di ← read (fun h => load h dirNode);
  '(r, l) ← read (fun _ => removeEntry (data di) file);
  _ ← write (fun h => store h dirNode (set_data l di));
  if decide (r = NULL) then fail EUNCHANGED else mret ().

(** ** Creation and whole-tree teardown *)

(** [newFilesystem]: the state it leaves and the root it stores in the
    handle (its unchecked allocations succeed). *)
Definition newFilesystem : state * ptr :=
  let '(h, root) := calloc_inode (State ∅ 1 []) in
  (store h root
     (Inode (Z.lor (Z.lor (Z.lor S_IRWXO S_IRWXG) S_IRWXU) S_IFDIR)
            (1 + 1 + 1) 0
            [Entry (str ".") root; Entry (str "..") root] root false),
   root).

(** The [while (p->next)] loop of [releaseAll], with [rec] the recursive
    call.  The list is read from memory in every round, as the source does;
    [k] bounds the number of rounds. *)
Definition walk (rec : ptr -> M unit) (root : ptr) : nat -> M unit :=
  fix go (k : nat) : M unit :=
    match k with
    | O => crash OutOfFuel
    | S k' =>
      c ← read (fun h => load h root);
      match data c with
      | [] => crash NullDeref
      | [_] => mret ()
      | _ :: e :: _ =>
        _ ← rec (node e);
        c' ← read (fun h => load h root);
        _ ← match data c' with
            | hd :: _ :: rest =>
              write (fun h => store h root (set_data (hd :: rest) c'))
            | _ => crash NullDeref
            end;
        go k'
      end
    end.

(** The body of [releaseAll], with [rec] the recursive call and [rounds] the
    bound on the rounds of its loop. *)
Definition releaseAll_body (rec : ptr -> M unit) (rounds : nat) (root : ptr) : M unit :=
  i ← read (fun h => load h root);
  _ ← write (fun h => store h root (set_nlink (nlink i - 1) i));
  if traversing i then mret () else
  _ ← modify root (set_traversing true);
  _ ← emit (Enter root);
  _ ← (if S_ISDIR (mode i) then
         _ ← walk rec root rounds;
         c ← read (fun h => load h root);
         match data c with
         | [] => crash NullDeref
         | hd :: _ => rec (node hd)
         end
       else mret ());
  _ ← modify root (set_traversing false);
  _ ← emit (Leave root);
  c ← read (fun h => load h root);
  if nlink c =? 0 then write (fun h => free h root) else mret ().

(** [releaseAll].  [fuel] bounds both the depth of the recursion and the
    number of rounds of the loop. *)
Fixpoint releaseAll (fuel : nat) (root : ptr) : M unit :=
  match fuel with
  | O => crash OutOfFuel
  | S fuel' => releaseAll_body (releaseAll fuel') fuel' root
  end.

(** ** The callbacks of [main.c] that change the namespace

    Each takes the root stored in the handle, and one flag per allocation it
    performs telling whether that allocation succeeds.  A return of [-errno]
    is [Error]. *)

Definition calloc_node (alloc : bool) : M ptr :=
  if alloc then (fun h => let '(h', p) := calloc_inode h in (h', Ok p))
  else fail ENOSPC.

Definition ramMknod (a_node a_entry : bool) (root : ptr) (path : cstr) (md : Z) : M unit :=
  node ← calloc_node a_node;
  _ ← modify node (set_mode (Z.lor md S_IFREG));
  _ ← addNode a_entry path root node;
  mret ().

(** [a_ddot] and [a_dot] are the two unchecked [malloc]s. *)
Definition ramMkdir (a_node a_entry a_ddot a_dot : bool) (root : ptr) (path : cstr) (md : Z)
  : M unit :=
  node ← calloc_node a_node;
  _ ← modify node (set_mode (Z.lor md S_IFDIR));
  node ← addNode a_entry path root node;
  _ ← (if a_ddot then mret () else crash NullDeref);
  ni ← read (fun h => load h node);
  _ ← modify (parent ni) (fun i => set_nlink (nlink i + 1) i);
  _ ← (if a_dot then mret () else crash NullDeref);
  _ ← modify node (fun i => set_nlink (nlink i + 1) i);
  _ ← modify node (set_data [Entry (str ".") node; Entry (str "..") (parent ni)]);
  mret ().

Definition ramLink (a_entry : bool) (root : ptr) (path newpath : cstr) : M unit :=
  node ← read (fun h => nonnull (pathfind h path root));
  d ← read (fun h => isDir h node);
  if (d : bool) then fail EPERM else
  _ ← addNode a_entry newpath root node;
  mret ().

Definition ramUnlink (root : ptr) (path : cstr) : M unit :=
  node ← read (fun h => nonnull (pathfind h path root));
  d ← read (fun h => isDir h node);
  if (d : bool) then fail EINVAL else
  ni ← read (fun h => load h node);
  if negb (nopen ni =? 0) then fail EBUSY else
  releaseNode path root.

Definition ramRmdir (root : ptr) (path : cstr) : M unit :=
  if bool_decide (path = str "/") then fail EBUSY else
  node ← read (fun h => nonnull (pathfind h path root));
  d ← read (fun h => isDir h node);
  if negb d then fail ENOTDIR else
  releaseNode path root.

(** [strchr(s, '.')] as a truth value. *)
Definition has_dot (s : cstr) : bool := bool_decide ("."%char ∈ s).

Definition isValidRename (path newpath : cstr) : bool :=
  let n := length path in
  if bool_decide (take n path = take n newpath) && (n <? length newpath)%nat
     && bool_decide (newpath !! n = Some Split)
  then false
  else if has_dot newpath || has_dot path then false
  else true.

Definition ramRename (a_entry : bool) (root : ptr) (path newpath : cstr) : M unit :=
  _ ← read (fun h => nonnull (pathfind h path root));
  if negb (isValidRename path newpath) then fail EINVAL else
  node ← read (fun h => pathfind_or_null h newpath root);
  _ ← (if decide (node = NULL) then mret () else
         d ← read (fun h => isDir h node);
         if (d : bool) then fail EISDIR else releaseNode newpath root);
  _ ← moveNode a_entry path newpath root;
  mret ().

(** [ramDestroy]: [releaseAll(fs->root)]. *)
Definition ramDestroy (fuel : nat) (root : ptr) : M unit := releaseAll fuel root.

(** ** The callbacks of [main.c] that read the namespace *)



(** ** Open handles *)

(** Conversions of C on Linux x86-64: to [uint] (32 bits), to [size_t]
    (64 bits), and to [int]. *)
Definition to_uint (z : Z) : Z := z `mod` 2 ^ 32.
Definition to_size_t (z : Z) : Z := z `mod` 2 ^ 64.
Definition to_int (z : Z) : Z := (z + 2 ^ 31) `mod` 2 ^ 32 - 2 ^ 31.

Definition set_nopen (n : Z) (i : inode) :=
  Inode (mode i) (nlink i) n (data i) (parent i) (traversing i).

(** What a callback that takes an open handle returns: [EBADF] stands for its
    return of [-EBADF], the one error that no function of [Filesystem.c]
    raises. *)
Inductive on_handle (A : Type) := EBADF | Served (a : A).
Arguments EBADF {A}.
Arguments Served {A} a.

(** [ramOpen]: [node->nopen++] on the inode found; the handle is its
    address. *)
Definition ramOpen (root : ptr) (path : cstr) : M ptr :=
  node ← read (fun h => nonnull (pathfind h path root));
  d ← read (fun h => isDir h node);
  if (d : bool) then fail EISDIR else
  _ ← modify node (fun i => set_nopen (to_uint (nopen i + 1)) i);
  mret node.

(** [ramRelease]: the handle [fh] is the inode; the last release of an inode
    without links hands the path to [releaseNode]. *)
Definition ramRelease (root : ptr) (path : cstr) (fh : ptr) : M (on_handle unit) :=
  i ← read (fun h => load h fh);
  if nopen i =? 0 then mret EBADF else
  let k := to_uint (nopen i - 1) in
  _ ← write (fun h => store h fh (set_nopen k i));
  if (k =? 0) && (nlink i =? 0)
  then _ ← releaseNode path root; mret (Served ())
  else mret (Served ()).

(** ** File contents

    For an inode that is not a directory, [data] is a byte buffer and [size]
    its length.  No function of the namespace reads these two fields of such
    an inode, so they are kept apart from the inode heap, in a table indexed
    by the address of the inode; an address without an entry stands for the
    fields as [calloc] leaves them ([data] NULL, [size] 0).  A cell of a
    buffer is a byte, or [None] for a byte of indeterminate value (memory
    that [realloc] handed out and nothing wrote to).  The owner ids are left
    out. *)
Record content := Content { fsize : Z; fdata : option (list (option ascii)) }.

Record memory := Memory { inodes : state; contents : gmap nat content }.

Definition content_of (m : memory) (p : ptr) : content :=
  default (Content 0 None) (contents m !! p).

Definition set_content (p : ptr) (c : content) (m : memory) : memory :=
  Memory (inodes m) (<[p := c]> (contents m)).

(** [realloc(data, n)]: NULL ([None]) when it fails, and otherwise a buffer of
    [n] bytes that starts with the old bytes. *)
Definition realloc (alloc : bool) (d : option (list (option ascii))) (n : Z)
  : option (list (option ascii)) :=
  if alloc
  then let old := default [] d in
       Some (take (Z.to_nat n) old ++ replicate (Z.to_nat n - length old) None)
  else None.

(** The [size] bytes at [offset] of a buffer are inside it.  A copy of no
    byte touches nothing. *)
Definition in_buffer (d : option (list (option ascii))) (offset size : Z) : result unit :=
  if size =? 0 then Ok () else
  match d with
  | None => Crash NullDeref
  | Some b =>
    if (0 <=? offset) && (offset + size <=? Z.of_nat (length b))
    then Ok () else Crash Overflow
  end.

(** [memcpy(buf, data + offset, size)]: the bytes that arrive in [buf]. *)
Definition copy_out (d : option (list (option ascii))) (offset size : Z)
  : result (list (option ascii)) :=
  _ ← in_buffer d offset size;
  Ok (take (Z.to_nat size) (drop (Z.to_nat offset) (default [] d))).

(** [memcpy(data + offset, buf, size)] and [memset(data + offset, 0, size)]:
    the buffer with the cells from [offset] on replaced by [new]. *)
Definition copy_in (d : option (list (option ascii))) (offset : Z)
    (new : list (option ascii)) : result (option (list (option ascii))) :=
  _ ← in_buffer d offset (Z.of_nat (length new));
  Ok (match d with
      | None => None
      | Some b => Some (take (Z.to_nat offset) b ++ new
                        ++ drop (Z.to_nat offset + length new) b)
      end).

(** [ramRead]: the value it returns and the bytes it leaves in [buf].
    [offset + size] is computed in [size_t]. *)
Definition ramRead (fh : ptr) (size offset : Z) (m : memory)
  : result (on_handle (Z * list (option ascii))) :=
  i ← load (inodes m) fh;
  if nopen i =? 0 then Ok EBADF else
  if S_ISDIR (mode i) then Error EISDIR else
  let c := content_of m fh in
  let size := if fsize c <? to_size_t (offset + size) then fsize c else size in
  bytes ← copy_out (fdata c) offset size;
  Ok (Served (to_int size, bytes)).

(** [ramWrite] of the [size] bytes of [buf]. *)
Definition ramWrite (alloc : bool) (fh : ptr) (buf : list ascii) (offset : Z) (m : memory)
  : memory * result (on_handle Z) :=
  let size := Z.of_nat (length buf) in
  match load (inodes m) fh with
  | Ok i =>
    if nopen i =? 0 then (m, Ok EBADF) else
    if S_ISDIR (mode i) then (m, Error EISDIR) else
    let c := content_of m fh in
    let grown :=
      if fsize c <? to_size_t (offset + size)
      then match realloc alloc (fdata c) (to_size_t (offset + size)) with
           | Some d => Ok (Content (to_uint (size + offset)) (Some d))
           | None => Error ENOSPC
           end
      else Ok c in
    match grown with
    | Ok c' =>
      match copy_in (fdata c') offset (Some <$> buf) with
      | Ok d => (set_content fh (Content (fsize c') d) m, Ok (Served (to_int size)))
      | Error e => (set_content fh c' m, Error e)
      | Crash f => (set_content fh c' m, Crash f)
      end
    | Error e => (m, Error e)
    | Crash f => (m, Crash f)
    end
  | Error e => (m, Error e)
  | Crash f => (m, Crash f)
  end.






(** ** Vocabulary of the statements *)

(** A component: non-empty, without separator. *)
Definition component (c : cstr) : Prop := c ≠ [] ∧ Split ∉ c.

(** What may follow a component: the end of the path, or a separator. *)
Definition follows (rest : cstr) : Prop := rest = [] ∨ head rest = Some Split.

(** The first entry of [l] named [c]. *)
Definition lookup_name (c : cstr) (l : list entry) : option entry :=
  List.find (fun e => bool_decide (name e = c)) l.

(** One step of the resolver. *)
Definition pathfind_step (h : state) (rec : cstr → ptr → result ptr) (path : cstr) (root : ptr)
  : result ptr :=
  match skip_split path with
  | [] => Ok root
  | q =>
    d ← isDir h root;
    if negb d then Error ENOTDIR else
    i ← load h root;
    match find_entry q (component_length q) (data i) with
    | Some e => rec (drop (component_length q) q) (node e)
    | None => Error ENOENT
    end
  end.

(** The inodes whose visit is in progress after the trace [t]. *)
Fixpoint active (t : list event) : list nat :=
  match t with
  | [] => []
  | Enter p :: t' => p :: active t'
  | Leave p :: t' => filter (λ q, q ≠ p) (active t')
  end.

(** No visit to an inode starts while a visit to it is in progress. *)
Fixpoint no_reentry (t : list event) : Prop :=
  match t with
  | [] => True
  | Enter p :: t' => (p ∉ active t') ∧ no_reentry t'
  | Leave _ :: t' => no_reentry t'
  end.

(** How many times the body of a visit to [p] was started. *)
Definition visits (p : ptr) (t : list event) : nat :=
  length (filter (fun e => e = Enter p) t).

(** The teardown mark of [p] is set. *)
Definition marked (h : state) (p : ptr) : Prop :=
  ∃ i, cells h !! p = Some i ∧ traversing i = true.

(** The invariant of the teardown: visits do not nest on one inode, and every
    inode whose visit is in progress carries the mark. *)
Definition visit_inv (h : state) : Prop :=
  no_reentry (trace h) ∧ ∀ p, p ∈ active (trace h) → marked h p.

(** [m] keeps [visit_inv], and leaves the visits in progress as they were
    when it returns normally. *)
Definition preserves (m : M unit) : Prop :=
  ∀ h h' r, visit_inv h → m h = (h', r) →
    visit_inv h' ∧ (r = Ok () → active (trace h') = active (trace h)).

(** [m'] returns what [m] returns, wherever [m] does not run out of fuel. *)
Definition extends (m m' : M unit) : Prop :=
  ∀ h h' r, m h = (h', r) → r ≠ Crash OutOfFuel → m' h = (h', r).

(** A sequence of callbacks, stopping at the first that does not return 0. *)
Definition run (ops : list (M unit)) : M unit :=
  foldr (fun op k => _ ← op; k) (mret ()) ops.

(** Between [h] and [h'] no inode appeared, no entry list grew, no mark was
    cleared on an inode that carried one, and no inode that carried one was
    released. *)
Definition shrinks (h h' : state) : Prop :=
  (∀ p i', cells h' !! p = Some i' →
     ∃ i, cells h !! p = Some i ∧ (length (data i') ≤ length (data i))%nat ∧
          (traversing i' = false → traversing i = false)) ∧
  (∀ p i, cells h !! p = Some i → traversing i = true →
     ∃ i', cells h' !! p = Some i' ∧ traversing i' = true).

Definition shrinking (m : M unit) : Prop := ∀ h h' r, m h = (h', r) → shrinks h h'.

(** [S] holds every inode without the mark; no entry list is longer than [B]. *)
Definition covers (S : gset nat) (h : state) : Prop :=
  ∀ p i, cells h !! p = Some i → traversing i = false → p ∈ S.
Definition bounded (B : nat) (h : state) : Prop :=
  ∀ p i, cells h !! p = Some i → (length (data i) ≤ B)%nat.

(** The recursion bound that is enough for a teardown of [h]. *)
Definition enough_fuel (h : state) : nat :=
  S (size (dom (cells h))
     + sum_list ((fun x => length (data (snd x))) <$> map_to_list (cells h))).

(** The memory after a successful [addNode]: the parent's list has the new
    entry at its end, the node has one more link and, if it had none, its
    parent back-reference. *)
Definition link_into (dirNode node : ptr) (file : cstr) (h : state) : state :=
  State
    (alter (fun i => let i' := set_nlink (nlink i + 1) i in
                     if decide (parent i = NULL) then set_parent dirNode i' else i')
           node
           (alter (fun i => set_data (data i ++ [Entry file node]) i) dirNode (cells h)))
    (brk h) (trace h).

(** The buffer of a file has the length that its [size] field tells. *)
Definition consistent (c : content) : Prop :=
  match fdata c with
  | None => fsize c = 0
  | Some b => Z.of_nat (length b) = fsize c
  end.

(** ** The directory tree *)

(** [p] is a live directory inode. *)
Definition is_dir (h : state) (p : ptr) : bool :=
  match cells h !! p with
  | Some i => S_ISDIR (mode i)
  | None => false
  end.

(** The entries of a directory after [.] and [..]. *)
Definition children (i : inode) : list entry := drop 2 (data i).

(** The entries of [l] that lead to a directory. *)
Definition dirs_of (h : state) (l : list entry) : list entry :=
  filter (λ e, is_dir h (node e) = true) l.

(** The number of child subdirectories of a directory. *)
Definition subdirs (h : state) (i : inode) : nat := length (dirs_of h (children i)).

(** The shape of the graphs that creation, hard links, release and moves of
    regular files build: every directory starts with [.] and [..], its link
    count is 2 plus its subdirectories (3 for the root, whose [..] is
    itself), every directory but the root is a child of the target of its
    [..], and no directory has two names. *)
Record tree_inv (root : ptr) (h : state) : Prop := TreeInv {
  inv_null : cells h !! NULL = None;
  inv_brk : ∀ p i, cells h !! p = Some i → (p < brk h)%nat;
  inv_root : is_dir h root = true;
  inv_shape : ∀ d i, cells h !! d = Some i → S_ISDIR (mode i) = true →
    ∃ p rest, data i = Entry (str ".") d :: Entry (str "..") p :: rest ∧
              is_dir h p = true ∧ (d = root → p = root);
  inv_nlink : ∀ d i, cells h !! d = Some i → S_ISDIR (mode i) = true →
    nlink i = 2 + Z.of_nat (subdirs h i) + (if decide (d = root) then 1 else 0);
  inv_child : ∀ d i, cells h !! d = Some i → S_ISDIR (mode i) = true → d ≠ root →
    ∃ p ip e, data i !! 1%nat = Some (Entry (str "..") p) ∧
              cells h !! p = Some ip ∧ e ∈ children ip ∧ node e = d;
  inv_below : ∀ d i e, cells h !! d = Some i → S_ISDIR (mode i) = true →
    e ∈ data i → (node e < brk h)%nat;
  inv_nodup : ∀ d i, cells h !! d = Some i → S_ISDIR (mode i) = true →
    NoDup (node <$> dirs_of h (children i));
  inv_disjoint : ∀ d1 i1 d2 i2 e1 e2,
    cells h !! d1 = Some i1 → S_ISDIR (mode i1) = true →
    cells h !! d2 = Some i2 → S_ISDIR (mode i2) = true → d1 ≠ d2 →
    e1 ∈ children i1 → e2 ∈ children i2 → node e1 = node e2 →
    is_dir h (node e1) = false
}.

(** One operation of the core, as the callbacks use it: creation of a
    regular file, creation of a directory (with the [.] and [..] protocol,
    for a mode without foreign file-type bits), a hard link to a regular
    file, release, and the move of an inode that is not a directory. *)
Inductive step (root : ptr) (h h' : state) : Prop :=
| step_mknod a_node a_entry path md :
    ramMknod a_node a_entry root path md h = (h', Ok ()) → step root h h'
| step_mkdir a_node a_entry a_ddot a_dot path md :
    S_ISDIR (Z.lor md S_IFDIR) = true →
    ramMkdir a_node a_entry a_ddot a_dot root path md h = (h', Ok ()) → step root h h'
| step_link a_entry path newpath :
    ramLink a_entry root path newpath h = (h', Ok ()) → step root h h'
| step_release path :
    releaseNode path root h = (h', Ok ()) → step root h h'
| step_move a_entry path newpath n :
    moveNode a_entry path newpath root h = (h', Ok n) → is_dir h' n = false →
    step root h h'.

(** The memories reached from a fresh filesystem by successful operations. *)
Inductive reachable (root : ptr) : state → Prop :=
| reach_new : root = snd newFilesystem → reachable root (fst newFilesystem)
| reach_step h h' : reachable root h → step root h h' → reachable root h'.

(** * Properties *)

(** Reduce the monadic plumbing only. *)
Ltac rsimpl := cbn [mbind mret result_bind result_ret negb].
Tactic Notation "rsimpl" "in" hyp(H) :=
  cbn [mbind mret result_bind result_ret negb] in H.

(** ** Path resolution *)

Section Pathfind.
Variable h : state.
Local Open Scope nat_scope.

Lemma component_length_app c rest :
  Split ∉ c → follows rest → component_length (c ++ rest) = length c.
Proof.
  induction c as [|a c IH]; simpl; intros Hc Hr.
  - destruct Hr as [->|Hr]; [done|].
    destruct rest as [|b rest]; [done|]. simpl in Hr. injection Hr as ->.
    reflexivity.
  - rewrite decide_False by (intros ->; apply Hc; left).
    f_equal. apply IH; [|done]. intros Hin. apply Hc. by right.
Qed.

Lemma name_matches_app c rest e :
  name_matches (c ++ rest) (length c) e = bool_decide (name e = c).
Proof.
  unfold name_matches. rewrite take_app_length.
  destruct (Nat.eqb_spec (length (name e)) (length c)) as [Hl|Hl]; simpl.
  - rewrite <- Hl, firstn_all. apply bool_decide_ext. split; congruence.
  - symmetry. apply bool_decide_eq_false. congruence.
Qed.

Lemma find_entry_app c rest l :
  find_entry (c ++ rest) (length c) l = lookup_name c l.
Proof.
  induction l as [|e l IH]; simpl; [done|].
  rewrite name_matches_app. by destruct (bool_decide (name e = c)).
Qed.

Lemma skip_split_component c rest :
  component c → skip_split (c ++ rest) = c ++ rest.
Proof.
  intros [Hne Hc]. destruct c as [|a c]; [done|]. simpl.
  rewrite decide_False; [done|]. intros ->. apply Hc. left.
Qed.

Lemma skip_split_length p : length (skip_split p) ≤ length p.
Proof. destruct p as [|a p]; simpl; [lia|]. case_decide; simpl; lia. Qed.

Lemma component_length_skip p :
  skip_split p ≠ [] →
  length (drop (component_length (skip_split p)) (skip_split p)) < length p.
Proof.
  destruct p as [|a p]; simpl; [done|].
  case_decide as Ha.
  - intros _. rewrite length_drop. lia.
  - intros _. simpl. rewrite decide_False by done. simpl.
    rewrite length_drop. lia.
Qed.

Lemma pathfind_rec_S fuel path root :
  pathfind_rec (S fuel) h path root = pathfind_step h (pathfind_rec fuel h) path root.
Proof. unfold pathfind_step. simpl. by destruct (skip_split path). Qed.

Lemma pathfind_step_ext f g path root :
  (∀ q r, length q < length path → f q r = g q r) →
  pathfind_step h f path root = pathfind_step h g path root.
Proof.
  intros Hfg. unfold pathfind_step.
  destruct (skip_split path) as [|a q] eqn:Hq; [done|].
  destruct (isDir h root) as [[]| |]; rsimpl; try done.
  destruct (load h root) as [i| |]; rsimpl; try done.
  destruct (find_entry _ _ _) as [e|]; [|done].
  apply Hfg. rewrite <- Hq. apply component_length_skip. by rewrite Hq.
Qed.

(** More fuel than the length of the path changes nothing. *)
Lemma pathfind_rec_fuel fuel path root :
  length path < fuel → pathfind_rec fuel h path root = pathfind h path root.
Proof.
  unfold pathfind. revert path root.
  induction fuel as [fuel IH] using lt_wf_ind. intros path root Hlt.
  destruct fuel as [|fuel]; [lia|]. rewrite !pathfind_rec_S.
  apply pathfind_step_ext. intros q r Hq.
  rewrite (IH fuel) by lia. rewrite (IH (length path)) by lia. done.
Qed.

Lemma pathfind_unfold path root :
  pathfind h path root = pathfind_step h (pathfind h) path root.
Proof.
  unfold pathfind at 1. rewrite pathfind_rec_S.
  apply pathfind_step_ext. intros q r Hq. by apply pathfind_rec_fuel.
Qed.

Lemma pathfind_nil root : pathfind h [] root = Ok root.
Proof. done. Qed.

(** One separator at the start is skipped. *)
Lemma pathfind_skip p root :
  head p ≠ Some Split → pathfind h (Split :: p) root = pathfind h p root.
Proof.
  intros Hp. rewrite (pathfind_unfold (Split :: p)), (pathfind_unfold p).
  unfold pathfind_step. replace (skip_split (Split :: p)) with p by reflexivity.
  destruct p as [|a p]; [done|].
  assert (Ha : a ≠ Split) by (intros ->; by apply Hp).
  cbn [skip_split]. by rewrite decide_False.
Qed.

(** Resolving one component. *)
Lemma pathfind_component c rest root :
  component c → follows rest →
  pathfind h (c ++ rest) root =
    i ← load h root;
    if S_ISDIR (mode i) then
      match lookup_name c (data i) with
      | Some e => pathfind h rest (node e)
      | None => Error ENOENT
      end
    else Error ENOTDIR.
Proof.
  intros Hc Hr. rewrite pathfind_unfold. unfold pathfind_step.
  rewrite skip_split_component by done.
  destruct (c ++ rest) as [|a q] eqn:Hq.
  { destruct Hc as [Hne _]. by destruct c. }
  unfold isDir. destruct (load h root) as [i| |]; rsimpl; [|done..].
  destruct (S_ISDIR (mode i)); rsimpl; [|done].
  rewrite <- Hq. rewrite component_length_app by (done || apply Hc).
  rewrite find_entry_app. destruct (lookup_name c (data i)) as [e|]; [|done].
  by rewrite drop_app_length.
Qed.

(** *** A trailing separator *)

Lemma component_length_le q : component_length q ≤ length q.
Proof. induction q as [|a q IH]; simpl; [lia|]. case_decide; simpl; lia. Qed.

Lemma component_length_snoc q :
  component_length (q ++ [Split]) = component_length q.
Proof.
  induction q as [|a q IH]; [reflexivity|].
  cbn [app component_length]. case_decide; [done|]. by rewrite IH.
Qed.

Lemma find_entry_snoc q l :
  find_entry (q ++ [Split]) (component_length q) l
  = find_entry q (component_length q) l.
Proof.
  induction l as [|e l IH]; [done|]. cbn [find_entry]. rewrite IH.
  unfold name_matches. by rewrite take_app_le by apply component_length_le.
Qed.

Lemma skip_split_snoc p :
  p ≠ [] → skip_split (p ++ [Split]) = skip_split p ++ [Split].
Proof. destruct p as [|a p]; [done|]. intros _. simpl. by case_decide. Qed.

Lemma last_skip_split p x : last (skip_split p) = Some x → last p = Some x.
Proof.
  destruct p as [|a p]; [done|]. simpl. case_decide; [|done].
  intros Hl. rewrite last_cons, Hl. done.
Qed.

Lemma last_drop_Some n (q : cstr) x : last (drop n q) = Some x → last q = Some x.
Proof.
  rewrite !last_Some. intros [l' Hl]. exists (take n q ++ l').
  rewrite <- (take_drop n q) at 1. rewrite Hl. by rewrite app_assoc.
Qed.

Lemma pathfind_snoc_split p start f :
  last p ≠ Some Split →
  pathfind h p start = Ok f → pathfind h (p ++ [Split]) start = Ok f.
Proof.
  revert start. induction p as [p IH] using (induction_ltof1 _ (@length ascii)).
  unfold ltof in IH. intros start Hlast.
  destruct (decide (p = [])) as [->|Hne]; [done|].
  rewrite (pathfind_unfold p), (pathfind_unfold (p ++ [Split])).
  unfold pathfind_step. rewrite skip_split_snoc by done.
  destruct (skip_split p) as [|a q] eqn:Hq.
  { destruct p as [|b p]; [done|]. simpl in Hq. case_decide; [|done].
    subst. by destruct Hlast. }
  cbn [app]. change (a :: q ++ [Split]) with ((a :: q) ++ [Split]).
  destruct (isDir h start) as [[]| |]; rsimpl; try done.
  destruct (load h start) as [i| |]; rsimpl; try done.
  rewrite component_length_snoc, find_entry_snoc.
  destruct (find_entry _ _ _) as [e|]; [|done].
  rewrite drop_app_le by apply component_length_le.
  apply IH.
  - rewrite <- Hq. apply component_length_skip. by rewrite Hq.
  - intros Hl. apply Hlast. apply last_skip_split. rewrite Hq.
    by apply last_drop_Some in Hl.
Qed.
End Pathfind.

(** C8. [lookup(path, start)] skips one leading separator, returns [start]
    when nothing is left, and otherwise resolves the next component in the
    current inode: not-a-directory if that inode is no directory, the first
    entry whose name equals the component (same length, same bytes) is
    followed with the rest of the path, and no-such-entry if there is none.
    On a fresh filesystem ["/"] is the root and ["/x"] is no-such-entry. *)
Theorem pathfind_contract (h : state) (start : ptr) :
  (∀ p, head p ≠ Some Split → pathfind h (Split :: p) start = pathfind h p start) ∧
  pathfind h [] start = Ok start ∧
  pathfind h [Split] start = Ok start ∧
  (∀ c rest i, component c → follows rest → load h start = Ok i →
     (S_ISDIR (mode i) = false → pathfind h (c ++ rest) start = Error ENOTDIR) ∧
     (S_ISDIR (mode i) = true → ∀ e, lookup_name c (data i) = Some e →
        pathfind h (c ++ rest) start = pathfind h rest (node e)) ∧
     (S_ISDIR (mode i) = true → lookup_name c (data i) = None →
        pathfind h (c ++ rest) start = Error ENOENT)) ∧
  pathfind (fst newFilesystem) (str "/") (snd newFilesystem) = Ok (snd newFilesystem) ∧
  pathfind (fst newFilesystem) (str "/x") (snd newFilesystem) = Error ENOENT.
Proof.
  split; [intros p Hp; by apply pathfind_skip|].
  do 2 (split; [reflexivity|]).
  split; [|split; reflexivity].
  intros c rest i Hc Hr Hi.
  rewrite (pathfind_component h c rest start Hc Hr), Hi.
  rsimpl. split; [by intros ->|]. split; intros ->; [intros e|]; by intros ->.
Qed.

Lemma pathfind_contract_witness :
  let h := fst newFilesystem in
  pathfind h (str "/x") 1%nat = pathfind h (str "x") 1%nat ∧
  pathfind h (str ".." ++ str "/x") 1%nat = pathfind h (str "/x") 1%nat ∧
  pathfind h (str "x" ++ []) 1%nat = Error ENOENT.
Proof.
  intros h.
  destruct (pathfind_contract h 1%nat) as (Hskip & _ & _ & Hcomp & _).
  split; [apply (Hskip (str "x")); discriminate|].
  assert (Hroot : load h 1%nat
                  = Ok (Inode 16895 3 0 [Entry (str ".") 1%nat; Entry (str "..") 1%nat]
                                1%nat false)) by reflexivity.
  split.
  - refine (proj1 (proj2 (Hcomp (str "..") (str "/x") _ _ _ Hroot)) _
              (Entry (str "..") 1%nat) _); try reflexivity.
    + split; [discriminate|]. cbv [str list_ascii_of_string]; rewrite !not_elem_of_cons; repeat split; (discriminate || apply not_elem_of_nil).
    + by right.
  - refine (proj2 (proj2 (Hcomp (str "x") [] _ _ _ Hroot)) _ _); try reflexivity.
    + split; [discriminate|]. cbv [str list_ascii_of_string]; rewrite !not_elem_of_cons; repeat split; (discriminate || apply not_elem_of_nil).
    + by left.
Defined.

(** C10. If [p] resolves to an inode (a regular file in particular) and does
    not itself end in a separator, [p] followed by one separator resolves to
    the same inode: the not-a-directory test is reached only while a
    component is left. *)
Theorem pathfind_trailing_separator (h : state) (root f : ptr) (p : cstr) (i : inode) :
  head p = Some Split → last p ≠ Some Split →
  pathfind h p root = Ok f →
  cells h !! f = Some i → S_ISDIR (mode i) = false →
  pathfind h (p ++ [Split]) root = Ok f.
Proof. intros _ Hlast Hp _ _. by apply pathfind_snoc_split. Qed.

Lemma pathfind_trailing_separator_witness :
  let h := fst (ramMknod true true 1%nat (str "/f") 420 (fst newFilesystem)) in
  pathfind h (str "/f/") 1%nat = Ok 2%nat.
Proof.
  intros h.
  apply (pathfind_trailing_separator h 1%nat 2%nat (str "/f")
           (Inode 33188 1 0 [] 1%nat false)).
  - reflexivity.
  - discriminate.
  - reflexivity.
  - reflexivity.
  - reflexivity.
Defined.

(** ** Entry-list primitives *)

Lemma remove_after_found (nm : cstr) (l1 : list entry) (e : entry) (l2 : list entry) :
  name e = nm → (∀ e', e' ∈ l1 → name e' ≠ nm) →
  remove_after nm (l1 ++ e :: l2) = Some (node e, l1 ++ l2).
Proof.
  intros He. induction l1 as [|a l1 IH]; intros Hl1; simpl.
  - by rewrite bool_decide_eq_true_2.
  - rewrite bool_decide_eq_false_2.
    + rewrite IH; [done|]. intros e' He'. apply Hl1. by right.
    + intros Heq. apply (Hl1 a); [left|done].
  Qed.

Lemma remove_after_absent (nm : cstr) (l : list entry) :
  (∀ e, e ∈ l → name e ≠ nm) → remove_after nm l = None.
Proof.
  induction l as [|a l IH]; intros Hl; simpl; [done|].
  rewrite bool_decide_eq_false_2.
  - rewrite IH; [done|]. intros e He. apply Hl. by right.
  - intros Heq. apply (Hl a); [left|done].
Qed.

(** What [remove_after] returns, read backwards. *)
Lemma remove_after_Some (nm : cstr) (l : list entry) (r : ptr) (l' : list entry) :
  remove_after nm l = Some (r, l') →
  ∃ l1 e l2, l = l1 ++ e :: l2 ∧ name e = nm ∧ node e = r ∧ l' = l1 ++ l2
             ∧ ∀ e', e' ∈ l1 → name e' ≠ nm.
Proof.
  revert l'. induction l as [|a l IH]; intros l'; simpl; [done|].
  case_bool_decide as Ha.
  - intros [= <- <-]. exists [], a, l. repeat split; [done|]. by intros e' ?%elem_of_nil.
  - destruct (remove_after nm l) as [[r0 l0]|]; [|done]. intros [= <- <-].
    destruct (IH _ eq_refl) as (l1 & e & l2 & -> & He & Hr & -> & Hl1).
    exists (a :: l1), e, l2. repeat split; try done.
    intros e' [->|He']%elem_of_cons; [congruence|by apply Hl1].
Qed.

Lemma remove_after_None (nm : cstr) (l : list entry) :
  remove_after nm l = None → ∀ e, e ∈ l → name e ≠ nm.
Proof.
  induction l as [|a l IH]; simpl; [by intros _ e ?%elem_of_nil|].
  case_bool_decide as Ha; [done|].
  destruct (remove_after nm l) as [[r0 l0]|]; [done|]. intros _ e.
  intros [->|He]%elem_of_cons; [congruence|by apply IH].
Qed.

(** C6, as the source has it.  [detach(list, name)] never looks at the head
    cell of the list: it removes the first entry after the head whose name
    equals [name], returns the inode of that entry and keeps every other
    entry, the head included, in its place; when no entry after the head
    bears the name it fails with no-such-entry. *)
Theorem removeEntry_after_head (hd : entry) (tl : list entry) (nm : cstr) :
  (∀ l1 e l2, tl = l1 ++ e :: l2 → name e = nm → (∀ e', e' ∈ l1 → name e' ≠ nm) →
     removeEntry (hd :: tl) nm = Ok (node e, hd :: l1 ++ l2)) ∧
  ((∀ e, e ∈ tl → name e ≠ nm) → removeEntry (hd :: tl) nm = Error ENOENT).
Proof.
  split.
  - intros l1 e l2 -> He Hl1. unfold removeEntry.
    by rewrite remove_after_found.
  - intros Hl. unfold removeEntry. by rewrite remove_after_absent.
Qed.

Lemma removeEntry_after_head_witness :
  removeEntry [Entry (str ".") 1%nat; Entry (str "..") 1%nat; Entry (str "a") 2%nat;
               Entry (str "b") 3%nat] (str "a")
  = Ok (2%nat, [Entry (str ".") 1%nat; Entry (str "..") 1%nat; Entry (str "b") 3%nat])
  ∧ removeEntry [Entry (str ".") 1%nat; Entry (str "..") 1%nat] (str "a") = Error ENOENT.
Proof.
  split.
  - apply (proj1 (removeEntry_after_head _ _ _) [Entry (str "..") 1%nat]
             (Entry (str "a") 2%nat) [Entry (str "b") 3%nat]); [reflexivity..|].
    intros e' ->%list_elem_of_singleton. discriminate.
  - apply (proj2 (removeEntry_after_head _ _ _)).
    intros e ->%list_elem_of_singleton. discriminate.
Defined.

(** C6 as stated fails when the matching entry is the head of the list: the
    head bears the name, and the call fails with no-such-entry (a later
    entry of the same name would be removed in its place). *)
Lemma removeEntry_head_kept :
  let l := [Entry (str ".") 1%nat; Entry (str "..") 1%nat] in
  lookup_name (str ".") l = Some (Entry (str ".") 1%nat) ∧
  removeEntry l (str ".") = Error ENOENT ∧
  removeEntry [Entry (str "a") 1%nat; Entry (str "b") 2%nat; Entry (str "a") 3%nat] (str "a")
  = Ok (3%nat, [Entry (str "a") 1%nat; Entry (str "b") 2%nat]).
Proof. repeat split. Qed.

(** ** Splitting a path *)

Lemma last_split_lt (s : cstr) (n : nat) : last_split s = Some n → (n < length s)%nat.
Proof.
  revert n. induction s as [|c s IH]; intros n; simpl; [done|].
  destruct (last_split s) as [k|].
  - intros [= <-]. specialize (IH k eq_refl). lia.
  - case_decide; [|done]. intros [= <-]. lia.
Qed.

(** The test for an empty file name in [extractPrefix] compares the length
    of the prefix with itself: it never fires. *)
Lemma extractPrefix_no_error (path : cstr) (e : errno) : extractPrefix path ≠ Error e.
Proof.
  unfold extractPrefix. case_match; [done|].
  destruct (last_split path) as [n|] eqn:Hn; [|done].
  apply last_split_lt in Hn.
  rewrite length_take, Nat.min_l, Z.sub_diag by lia. done.
Qed.

Lemma last_split_snoc (p : cstr) : last_split (p ++ [Split]) = Some (length p).
Proof.
  induction p as [|a p IH]; [reflexivity|]. cbn [app last_split length].
  by rewrite IH.
Qed.

(** Whenever the prefix before a trailing separator resolves to a directory,
    the path is split into that directory and the empty file name. *)
Lemma getParentDirectory_trailing_split (h : state) (root d : ptr) (p : cstr) :
  head (p ++ [Split]) = Some Split → (length p + 1 < PATH_MAX)%nat →
  pathfind h p root = Ok d → d ≠ NULL → isDir h d = Ok true →
  getParentDirectory h (p ++ [Split]) root = Ok (d, []).
Proof.
  intros Hhead Hlen Hpf Hd Hdir. unfold getParentDirectory.
  assert (Hc : checkPath (p ++ [Split]) = Ok ()).
  { destruct (p ++ [Split]) as [|c q]; [done|]. injection Hhead as ->. reflexivity. }
  rewrite Hc. rsimpl. unfold extractPrefix.
  rewrite length_app. cbn [length].
  destruct (Nat.leb_spec PATH_MAX (length p + 1)); [lia|].
  rewrite last_split_snoc, take_app_length, Z.sub_diag. cbn [Z.eqb Z.modulo].
  change (0 `mod` 2 ^ 64 =? 1) with false. rsimpl.
  unfold nonnull. rewrite Hpf. rsimpl. rewrite decide_False by done. rsimpl.
  rewrite Hdir. rsimpl.
  by rewrite drop_app_ge, Nat.add_sub_swap, Nat.sub_diag by lia.
Qed.

(** C5 (the source misses it).  A path that ends in a separator is split
    like any other: whenever what precedes the last separator resolves to a
    directory, the split succeeds with the empty file name.  ["/"] on a fresh
    filesystem yields the root and the empty name, not no-such-entry, and so
    does ["/a/"] once [/a] exists. *)
Theorem getParentDirectory_empty_name :
  let '(h, root) := newFilesystem in
  getParentDirectory h (str "/") root = Ok (root, []) ∧
  (let h' := fst (ramMkdir true true true true root (str "/a") 493 h) in
   getParentDirectory h' (str "/a/") root = Ok (2%nat, [])) ∧
  (∀ path e, extractPrefix path ≠ Error e) ∧
  (∀ h root d p,
     head (p ++ [Split]) = Some Split → (length p + 1 < PATH_MAX)%nat →
     pathfind h p root = Ok d → d ≠ NULL → isDir h d = Ok true →
     getParentDirectory h (p ++ [Split]) root = Ok (d, [])).
Proof.
  split; [reflexivity|]. split; [reflexivity|].
  split; [apply extractPrefix_no_error|]. intros h root d p.
  apply getParentDirectory_trailing_split.
Qed.

(** ** The mutators *)

Section Monad.
Context {A B : Type}.

Lemma bind_read (f : state → result A) (k : A → M B) (h : state) :
  (read f ≫= k) h
  = match f h with
    | Ok a => k a h
    | Error e => (h, Error e)
    | Crash c => (h, Crash c)
    end.
Proof. unfold mbind, M_bind, read. by destruct (f h). Qed.

Lemma bind_write (f : state → state) (k : unit → M B) (h : state) :
  (write f ≫= k) h = k () (f h).
Proof. done. Qed.

Lemma bind_modify (p : ptr) (f : inode → inode) (k : unit → M B) (h : state) :
  (modify p f ≫= k) h
  = match load h p with
    | Ok i => k () (store h p (f i))
    | Error e => (h, Error e)
    | Crash c => (h, Crash c)
    end.
Proof. unfold modify, mbind, M_bind, read, write. cbv beta. by destruct (load h p). Qed.

Lemma bind_fail (e : errno) (k : A → M B) (h : state) :
  (fail e ≫= k) h = (h, Error e).
Proof. done. Qed.

Lemma bind_crash (c : fault) (k : A → M B) (h : state) :
  (crash c ≫= k) h = (h, Crash c).
Proof. done. Qed.

Lemma bind_ret (a : A) (k : A → M B) (h : state) : (mret a ≫= k) h = k a h.
Proof. done. Qed.
End Monad.

Lemma load_Some (h : state) (p : ptr) (i : inode) :
  load h p = Ok i ↔ p ≠ NULL ∧ cells h !! p = Some i.
Proof.
  unfold load. case_decide as Hp.
  - split; [done|]. by intros [? _].
  - destruct (cells h !! p) as [j|].
    + split; [by intros [= ->]|]. by intros [_ [= ->]].
    + split; [done|]. by intros [_ ?].
Qed.

Lemma load_store (h : state) (p q : ptr) (i : inode) :
  load (store h p i) q = if decide (p = q) then load (store h p i) p else load h q.
Proof.
  case_decide as Hpq; [by subst|]. unfold load, store. simpl.
  by rewrite lookup_insert_ne.
Qed.

Lemma load_store_eq (h : state) (p : ptr) (i : inode) :
  p ≠ NULL → load (store h p i) p = Ok i.
Proof. intros Hp. unfold load, store. simpl. rewrite decide_False by done. by rewrite lookup_insert_eq. Qed.

Lemma load_store_ne (h : state) (p q : ptr) (i : inode) :
  p ≠ q → load (store h p i) q = load h q.
Proof. intros Hpq. unfold load, store. simpl. by rewrite lookup_insert_ne. Qed.

Lemma set_last_node_snoc (n : ptr) (l : list entry) (nm : cstr) (m : ptr) :
  set_last_node n (l ++ [Entry nm m]) = l ++ [Entry nm n].
Proof.
  induction l as [|a l IH]; [done|].
  cbn [app set_last_node]. rewrite IH. by destruct l.
Qed.

(** C1 (the source misses it).  When the parent directory resolves and the
    file name is absent from it, [releaseNode] reads the mode of the NULL
    pointer [pathfind] returned: it does not return at all, where the claim
    expects a failing return with no-such-entry. *)
Theorem releaseNode_absent_name (h : state) (path : cstr) (root dirNode : ptr)
    (file : cstr) (e : errno) :
  getParentDirectory h path root = Ok (dirNode, file) →
  pathfind h file dirNode = Error e →
  releaseNode path root h = (h, Crash NullDeref).
Proof.
  intros Hgp Hpf. unfold releaseNode.
  rewrite bind_read, Hgp. cbv beta iota.
  rewrite bind_read. unfold pathfind_or_null. rewrite Hpf.
  by rewrite bind_read.
Qed.

Lemma releaseNode_absent_name_witness :
  releaseNode (str "/x") (snd newFilesystem) (fst newFilesystem)
  = (fst newFilesystem, Crash NullDeref).
Proof.
  apply (releaseNode_absent_name _ _ _ (snd newFilesystem) (str "x") ENOENT);
    reflexivity.
Defined.

Lemma addEntry_ok (l : list entry) (nm : cstr) :
  l ≠ [] → (length nm < NAME_MAX)%nat → addEntry true l nm = Ok (l ++ [Entry nm NULL]).
Proof.
  intros Hl Hnm. unfold addEntry. destruct l; [done|].
  cbn [negb]. destruct (Nat.leb_spec NAME_MAX (length nm)); [lia|done].
Qed.

Lemma addEntry_no_memory (l : list entry) (nm : cstr) :
  l ≠ [] → addEntry false l nm = Error ENOSPC.
Proof. intros Hl. unfold addEntry. by destruct l. Qed.

Lemma state_eq (h h' : state) :
  cells h = cells h' → brk h = brk h' → trace h = trace h' → h = h'.
Proof. destruct h, h'; simpl; by intros -> -> ->. Qed.

Lemma addNode_links (h : state) (path : cstr) (root node dirNode : ptr) (file : cstr)
    (di ni : inode) :
  getParentDirectory h path root = Ok (dirNode, file) →
  load h dirNode = Ok di → data di ≠ [] →
  load h node = Ok ni →
  (length file < NAME_MAX)%nat →
  found (pathfind h file dirNode) = Ok false →
  addNode true path root node h = (link_into dirNode node file h, Ok node).
Proof.
  intros Hgp Hdi Hdata Hni Hlen Hpf. unfold addNode.
  rewrite bind_read, Hgp. cbv beta iota.
  rewrite bind_read, Hpf.
  rewrite bind_read, Hdi.
  rewrite bind_read, addEntry_ok by done.
  rewrite bind_write.
  pose proof Hni as Hnl.
  apply load_Some in Hdi as [Hd0 Hdi]. apply load_Some in Hni as [Hn0 Hni].
  destruct (decide (dirNode = node)) as [->|Hne].
  - assert (ni = di) as -> by congruence.
    rewrite bind_modify, load_store_eq by done.
    rewrite bind_modify, load_store_eq by done.
    rewrite bind_modify, load_store_eq by done.
    unfold mret, M_ret. f_equal.
    apply state_eq; [|done..]. unfold link_into, store. cbn [cells].
    rewrite !insert_insert_eq. apply map_eq. intros q.
    destruct (decide (q = node)) as [->|Hq].
    + rewrite lookup_insert_eq, !lookup_alter_eq.
      rewrite Hdi. cbn [fmap option_fmap option_map].
      f_equal. destruct di as [m n o d p t]. cbn.
      case_decide; cbn; by rewrite set_last_node_snoc.
    + by rewrite lookup_insert_ne, !lookup_alter_ne by done.
  - rewrite bind_modify, load_store_ne, Hnl by done.
    rewrite bind_modify, load_store_eq by done.
    rewrite bind_modify, !load_store_ne, load_store_eq by done.
    unfold mret, M_ret. f_equal.
    apply state_eq; [|done..]. unfold link_into, store. cbn [cells].
    apply map_eq. intros q.
    destruct (decide (q = dirNode)) as [->|Hq].
    + rewrite lookup_insert_eq, lookup_alter_ne, lookup_alter_eq, Hdi by done.
      cbn. by rewrite set_last_node_snoc.
    + rewrite lookup_insert_ne by done. rewrite insert_insert_eq.
      destruct (decide (q = node)) as [->|Hq'].
      * rewrite lookup_insert_eq, lookup_alter_eq, lookup_alter_ne, Hni by done.
        done.
      * by rewrite !lookup_insert_ne, !lookup_alter_ne by done.
Qed.




Lemma removeEntry_nonempty (l : list entry) (nm : cstr) (r : ptr) (l' : list entry) :
  removeEntry l nm = Ok (r, l') → l' ≠ [] ∧ l ≠ [].
Proof.
  unfold removeEntry. destruct l as [|hd rest]; [done|].
  destruct (remove_after nm rest) as [[r0 l0]|]; [|done]. by intros [= <- <-].
Qed.

(** What a successful [getParentDirectory] went through. *)
Lemma getParentDirectory_Ok (h : state) (path : cstr) (root d : ptr) (f : cstr) :
  getParentDirectory h path root = Ok (d, f) →
  ∃ n dirPath, checkPath path = Ok () ∧ extractPrefix path = Ok (n, dirPath) ∧
    pathfind h dirPath root = Ok d ∧ d ≠ NULL ∧ isDir h d = Ok true ∧
    f = drop (n + 1) path.
Proof.
  unfold getParentDirectory. intros H.
  destruct (checkPath path) as [[]| |]; [|done..]. rsimpl in H.
  destruct (extractPrefix path) as [[n dp]| |]; [|done..]. rsimpl in H.
  unfold nonnull in H.
  destruct (pathfind h dp root) as [d'| |] eqn:Hpf; [|done..]. rsimpl in H.
  case_decide as Hd'; [done|]. rsimpl in H.
  destruct (isDir h d') as [b| |] eqn:Hb; [|done..]. rsimpl in H.
  destruct b; [|done]. cbn [negb] in H. injection H as <- <-.
  exists n, dp. done.
Qed.

(** Allocation failure in [addNode]: out-of-space, memory untouched. *)
Lemma addNode_no_memory (h : state) (path : cstr) (root node dirNode : ptr) (file : cstr)
    (di : inode) (e : errno) :
  getParentDirectory h path root = Ok (dirNode, file) →
  load h dirNode = Ok di → data di ≠ [] →
  pathfind h file dirNode = Error e →
  addNode false path root node h = (h, Error ENOSPC).
Proof.
  intros Hgp Hdi Hdata Hpf. unfold addNode.
  rewrite bind_read, Hgp. cbv beta iota.
  rewrite bind_read, Hpf. cbn [found].
  rewrite bind_read, Hdi.
  by rewrite bind_read, addEntry_no_memory.
Qed.

(** Allocation failure in [moveNode]: out-of-space is returned after the
    source entry has been detached, and the detached entry is not put back. *)
Lemma moveNode_no_memory (h : state) (path newpath : cstr) (root : ptr)
    (oldDirNode newDirNode node : ptr) (oldFile newFile : cstr) (oi ni : inode)
    (l : list entry) :
  getParentDirectory h path root = Ok (oldDirNode, oldFile) →
  getParentDirectory h newpath root = Ok (newDirNode, newFile) →
  load h oldDirNode = Ok oi →
  load h newDirNode = Ok ni → data ni ≠ [] →
  removeEntry (data oi) oldFile = Ok (node, l) → node ≠ NULL →
  moveNode false path newpath root h
  = (store h oldDirNode (set_data l oi), Error ENOSPC).
Proof.
  intros Hold Hnew Hoi Hni Hdata Hrm Hnode. unfold moveNode.
  rewrite bind_read, Hold. cbv beta iota.
  rewrite bind_read, Hnew. cbv beta iota.
  rewrite bind_read, Hoi.
  rewrite bind_read, Hrm. cbv beta iota.
  rewrite bind_write. rewrite decide_False by done.
  assert (Hni' : load (store h oldDirNode (set_data l oi)) newDirNode
                 = Ok (if decide (oldDirNode = newDirNode) then set_data l oi else ni)).
  { case_decide as Heq.
    - subst. apply load_store_eq. by apply load_Some in Hoi as [? _].
    - by rewrite load_store_ne. }
  rewrite bind_read, Hni'.
  rewrite bind_read, addEntry_no_memory; [done|].
  apply removeEntry_nonempty in Hrm as [Hl _]. by case_decide.
Qed.

Lemma load_not_error (h : state) (p : ptr) (e : errno) : load h p ≠ Error e.
Proof. unfold load. case_decide; [done|]. by destruct (cells h !! p). Qed.

(** Whatever makes [addNode] fail, it fails before it writes. *)
Lemma addNode_error_unchanged (a : bool) (path : cstr) (root node : ptr) (h h' : state)
    (e : errno) :
  addNode a path root node h = (h', Error e) → h' = h.
Proof.
  unfold addNode. rewrite bind_read.
  destruct (getParentDirectory h path root) as [[dirNode file]| |]; [|congruence..].
  cbv beta iota. rewrite bind_read.
  destruct (found _) as [[]| |]; [by intros [= <-]| |congruence..].
  rewrite bind_read. destruct (load h dirNode) as [di| |]; [|congruence..].
  rewrite bind_read. destruct (addEntry a (data di) file) as [l| |]; [|congruence..].
  rewrite bind_write.
  do 3 (rewrite bind_modify;
        match goal with |- match load ?s ?p with _ => _ end = _ → _ =>
          let Hl := fresh "Hl" in
          destruct (load s p) eqn:Hl; [|by apply load_not_error in Hl|done]
        end).
  done.
Qed.

(** C2 (the source misses it for [move]).  [/f] is a regular file of a
    fresh filesystem.  When the allocation of the destination entry fails,
    [moveNode("/f", "/g")] returns out-of-space, but the entry [f] has already
    been detached: [/f] no longer resolves, [/g] does not exist, and the
    inode stays allocated with its link count of 1.  A failing [addNode]
    changes nothing, on this memory and on every other. *)
Theorem moveNode_no_memory_loses_entry :
  let root := snd newFilesystem in
  let h := fst (ramMknod true true root (str "/f") 420 (fst newFilesystem)) in
  ∃ h', moveNode false (str "/f") (str "/g") root h = (h', Error ENOSPC) ∧
        h' ≠ h ∧
        pathfind h (str "/f") root = Ok 2%nat ∧
        pathfind h' (str "/f") root = Error ENOENT ∧
        pathfind h' (str "/g") root = Error ENOENT ∧
        load h' 2%nat = Ok (Inode 33188 1 0 [] 1%nat false) ∧
        addNode false (str "/g") root 2%nat h = (h, Error ENOSPC) ∧
        ∀ a path node s s' e,
          addNode a path root node s = (s', Error e) → s' = s.
Proof.
  intros root h. eexists. split.
  - apply (moveNode_no_memory h (str "/f") (str "/g") root root root 2%nat
             (str "f") (str "g")
             (Inode 16895 3 0 [Entry (str ".") 1%nat; Entry (str "..") 1%nat;
                               Entry (str "f") 2%nat] 1%nat false)
             (Inode 16895 3 0 [Entry (str ".") 1%nat; Entry (str "..") 1%nat;
                               Entry (str "f") 2%nat] 1%nat false)
             [Entry (str ".") 1%nat; Entry (str "..") 1%nat]);
      (reflexivity || discriminate).
  - split.
    { intros Heq. apply (f_equal (fun s => pathfind s (str "/f") root)) in Heq.
      vm_compute in Heq. discriminate. }
    do 5 (split; [reflexivity|]).
    intros a path node s s' e. apply addNode_error_unchanged.
Qed.

(** ** Whole-tree teardown *)

Lemma bind_run {A B} (m : M A) (k : A → M B) (h : state) :
  (m ≫= k) h
  = match m h with
    | (h', Ok a) => k a h'
    | (h', Error e) => (h', Error e)
    | (h', Crash c) => (h', Crash c)
    end.
Proof. done. Qed.

Lemma marked_store (h : state) (p q : ptr) (i : inode) :
  marked h q → (q = p → traversing i = true) → marked (store h p i) q.
Proof.
  intros (j & Hj & Ht) Hi. unfold marked, store. cbn [cells].
  destruct (decide (q = p)) as [->|Hne].
  - exists i. rewrite lookup_insert_eq. auto.
  - exists j. by rewrite lookup_insert_ne.
Qed.

Lemma visit_inv_store (h : state) (p : ptr) (i : inode) :
  visit_inv h → (p ∈ active (trace h) → traversing i = true) →
  visit_inv (store h p i).
Proof.
  intros [Hn Hm] Hi. split; [done|]. cbn [trace store]. intros q Hq.
  apply marked_store; [by apply Hm|]. intros ->. by apply Hi.
Qed.

Lemma visit_inv_release (h : state) (p : ptr) :
  visit_inv h → p ∉ active (trace h) → visit_inv (free h p).
Proof.
  intros [Hn Hm] Hp. split; [done|]. cbn [trace free]. intros q Hq.
  destruct (Hm q Hq) as (j & Hj & Ht). exists j. split; [|done].
  cbn [cells free]. rewrite lookup_delete_ne; [done|]. by intros ->.
Qed.

Lemma filter_ne_id (p : nat) (l : list nat) : p ∉ l → filter (λ q, q ≠ p) l = l.
Proof.
  induction l as [|a l IH]; [done|]. intros [Ha Hl]%not_elem_of_cons.
  rewrite filter_cons_True by done. by rewrite IH.
Qed.

Lemma unmarked_not_active (h : state) (p : ptr) (i : inode) :
  visit_inv h → load h p = Ok i → traversing i = false → p ∉ active (trace h).
Proof.
  intros [_ Hm] [_ Hi]%load_Some Ht Hp.
  destruct (Hm p Hp) as (j & Hj & Htj). congruence.
Qed.

Lemma walk_S (rec : ptr → M unit) (root : ptr) (k : nat) :
  walk rec root (S k)
  = (c ← read (fun h => load h root);
     match data c with
     | [] => crash NullDeref
     | [_] => mret ()
     | _ :: e :: _ =>
       _ ← rec (node e);
       c' ← read (fun h => load h root);
       _ ← match data c' with
           | hd :: _ :: rest =>
             write (fun h => store h root (set_data (hd :: rest) c'))
           | _ => crash NullDeref
           end;
       walk rec root k
     end).
Proof. done. Qed.

Lemma walk_preserves (rec : ptr → M unit) (root : ptr) (k : nat) :
  (∀ p, preserves (rec p)) → preserves (walk rec root k).
Proof.
  intros Hrec. induction k as [|k IH]; intros h h' r Hinv.
  { intros [= <- <-]. done. }
  rewrite walk_S, bind_read.
  destruct (load h root) as [c| |]; [|by intros [= <- <-]..].
  destruct (data c) as [|hd [|e rest]]; [by intros [= <- <-]..|].
  rewrite bind_run. destruct (rec (node e) h) as [h1 r1] eqn:H1.
  destruct (Hrec _ _ _ _ Hinv H1) as [Hinv1 Hact1].
  destruct r1 as [[]| |]; [|by intros [= <- <-]..].
  rewrite bind_read.
  destruct (load h1 root) as [c'| |] eqn:Hc'; [|by intros [= <- <-]..].
  destruct (data c') as [|hd' [|e' rest']]; [by intros [= <- <-]..|].
  rewrite bind_write. intros Hgo.
  apply IH in Hgo as [Hinv' Hact'].
  - split; [done|]. intros Hr. rewrite Hact' by done. cbn [trace store]. auto.
  - apply visit_inv_store; [done|]. intros Hroot.
    destruct Hinv1 as [_ Hm]. destruct (Hm _ Hroot) as (j & Hj & Ht).
    apply load_Some in Hc' as [_ Hc']. cbn. congruence.
Qed.

Lemma releaseAll_preserves (fuel : nat) (root : ptr) : preserves (releaseAll fuel root).
Proof.
  revert root. induction fuel as [|fuel IH]; intros root h h' r Hinv.
  { intros [= <- <-]. done. }
  cbn [releaseAll]. unfold releaseAll_body. rewrite bind_read.
  destruct (load h root) as [i| |] eqn:Hi; [|by intros [= <- <-]..].
  rewrite bind_write.
  pose proof Hi as [Hroot Hcell]%load_Some.
  set (h1 := store h root (set_nlink (nlink i - 1) i)).
  assert (Hinv1 : visit_inv h1).
  { apply visit_inv_store; [done|]. intros Hr. destruct Hinv as [_ Hm].
    destruct (Hm _ Hr) as (j & Hj & Ht). cbn. congruence. }
  destruct (traversing i) eqn:Htrav; [by intros [= <- <-]|].
  rewrite bind_modify. unfold h1 at 1. rewrite load_store_eq by done.
  unfold emit. rewrite bind_write.
  assert (Hnot : root ∉ active (trace h)) by (by eapply unmarked_not_active).
  set (h3 := State _ _ _).
  assert (Hinv3 : visit_inv h3).
  { split.
    - cbn. split; [done|]. apply Hinv.
    - cbn [trace h3 active store h1]. intros q [->|Hq]%elem_of_cons.
      + eexists. unfold h3, h1. cbn [cells store]. rewrite lookup_insert_eq. done.
      + destruct Hinv as [_ Hm]. destruct (Hm _ Hq) as (j & Hj & Ht).
        exists j. unfold h3, h1. cbn [cells store].
        rewrite !lookup_insert_ne; [done|by intros ->..]. }
  assert (Hact3 : active (trace h3) = root :: active (trace h)) by done.
  clearbody h3. clear h1 Hinv1.
  rewrite bind_run.
  match goal with |- context [(if S_ISDIR (mode i) then ?m else ?m') h3] =>
    destruct ((if S_ISDIR (mode i) then m else m') h3) as [h5 r5] eqn:Hbody end.
  assert (Hinv5 : visit_inv h5 ∧ (r5 = Ok () → active (trace h5) = root :: active (trace h))).
  { destruct (S_ISDIR (mode i)).
    - rewrite bind_run in Hbody.
      destruct (walk (releaseAll fuel) root fuel h3) as [h4 r4] eqn:Hwalk.
      apply walk_preserves in Hwalk as [Hinv4 Hact4]; [|done..].
      destruct r4 as [[]| |]; [|by injection Hbody as <- <-..].
      rewrite bind_read in Hbody.
      destruct (load h4 root) as [c| |]; [|by injection Hbody as <- <-..].
      destruct (data c) as [|hd rest]; [by injection Hbody as <- <-|].
      apply IH in Hbody as [Hinv5 Hact5]; [|done]. split; [done|].
      intros Hr. rewrite Hact5, Hact4 by done. done.
    - injection Hbody as <- <-. done. }
  destruct Hinv5 as [Hinv5 Hact5].
  destruct r5 as [[]| |]; [|by intros [= <- <-]..].
  specialize (Hact5 eq_refl).
  rewrite bind_modify.
  destruct (load h5 root) as [c5| |] eqn:Hc5; [|by intros [= <- <-]..].
  rewrite bind_write.
  set (h7 := State _ _ _).
  assert (Hact7 : active (trace h7) = active (trace h)).
  { cbn [trace h7 active store]. rewrite Hact5.
    rewrite filter_cons_False by (intros Hne; by apply Hne).
    by apply filter_ne_id. }
  assert (Hinv7 : visit_inv h7).
  { split; [apply Hinv5|]. rewrite Hact7. intros q Hq.
    destruct Hinv5 as [_ Hm]. destruct (Hm q) as (j & Hj & Ht).
    { rewrite Hact5. by right. }
    exists j. unfold h7. cbn [cells store]. rewrite lookup_insert_ne; [done|].
    by intros ->. }
  clearbody h7.
  rewrite bind_read.
  destruct (load h7 root) as [c7| |]; [|by intros [= <- <-]..].
  destruct (nlink c7 =? 0).
  - intros [= <- <-]. split; [|done].
    apply visit_inv_release; [done|]. by rewrite Hact7.
  - by intros [= <- <-].
Qed.

Lemma releaseAll_marked (fuel : nat) (root : ptr) (h : state) (i : inode) :
  load h root = Ok i → traversing i = true →
  releaseAll (S fuel) root h = (store h root (set_nlink (nlink i - 1) i), Ok ()).
Proof.
  intros Hi Ht. cbn [releaseAll]. unfold releaseAll_body.
  rewrite bind_read, Hi, bind_write. by rewrite Ht.
Qed.

(** C4, as the source has it.  A call of the teardown on an inode whose mark
    is set only decrements the link count and returns, so the body of a
    visit never starts on an inode whose visit is still in progress: visits
    to one inode do not nest, and all visits are over when the teardown
    returns.  The mark is cleared at the end of a visit, so an inode that is
    reached again later is visited again. *)
Theorem releaseAll_visits_do_not_nest (fuel : nat) (root : ptr) (h h' : state)
    (r : result unit) :
  (∀ i, load h root = Ok i → traversing i = true →
     releaseAll (S fuel) root h = (store h root (set_nlink (nlink i - 1) i), Ok ())) ∧
  (trace h = [] → releaseAll fuel root h = (h', r) →
     no_reentry (trace h') ∧
     (∀ p, p ∈ active (trace h') → marked h' p) ∧
     (r = Ok () → active (trace h') = [])).
Proof.
  split; [intros i; apply releaseAll_marked|].
  intros Ht Hrun.
  assert (Hinv : visit_inv h).
  { split; rewrite Ht; [done|]. by intros p ?%elem_of_nil. }
  destruct (releaseAll_preserves fuel root h h' r Hinv Hrun) as [[Hn Hm] Hact].
  repeat split; [done..|]. intros Hr. rewrite Hact by done. by rewrite Ht.
Qed.

Lemma releaseAll_visits_do_not_nest_witness :
  let '(h, root) := newFilesystem in
  let h' := fst (releaseAll 5 root h) in
  no_reentry (trace h') ∧ active (trace h') = [] ∧
  releaseAll 1 root (store h root (Inode 16895 3 0 [] root true))
  = (store (store h root (Inode 16895 3 0 [] root true)) root (Inode 16895 2 0 [] root true),
     Ok ()).
Proof.
  cbv beta iota zeta delta [newFilesystem calloc_inode brk].
  match goal with |- context [releaseAll 5 ?root ?h] =>
    pose proof (proj2 (releaseAll_visits_do_not_nest 5 root h
                         (fst (releaseAll 5 root h)) (Ok ())) eq_refl eq_refl)
      as (Hn & _ & Ha);
    pose proof (proj1 (releaseAll_visits_do_not_nest 0 root
                         (store h root (Inode 16895 3 0 [] root true)) h (Ok ()))
                  (Inode 16895 3 0 [] root true) eq_refl eq_refl) as Hm
  end.
  split; [exact Hn|]. split; [exact (Ha eq_refl)|]. exact Hm.
Defined.

(** C4 as stated fails: the teardown of a fresh filesystem with one regular
    file under two names starts the body of a visit to the file twice, and
    so does the teardown of a directory [/a] whose subdirectory was renamed
    to [/b/y] (its [..] still leads to [/a]); both teardowns return. *)
Lemma releaseAll_visits_twice :
  let '(h, root) := newFilesystem in
  let h1 := fst (run [ramMknod true true root (str "/f") 420;
                      ramLink true root (str "/f") (str "/g")] h) in
  let h2 := fst (run [ramMkdir true true true true root (str "/a") 493;
                      ramMkdir true true true true root (str "/a/x") 493;
                      ramMkdir true true true true root (str "/b") 493;
                      ramRename true root (str "/a/x") (str "/b/y")] h) in
  snd (releaseAll 10 root h1) = Ok () ∧
  visits 2 (trace (fst (releaseAll 10 root h1))) = 2%nat ∧
  snd (releaseAll 10 root h2) = Ok () ∧
  visits 2 (trace (fst (releaseAll 10 root h2))) = 2%nat.
Proof. vm_compute. done. Qed.

(** *** More fuel does not change a teardown that had enough *)

Lemma extends_refl (m : M unit) : extends m m.
Proof. by intros h h' r. Qed.

Lemma walk_extends (rec rec' : ptr → M unit) (root : ptr) (k : nat) :
  (∀ p, extends (rec p) (rec' p)) →
  extends (walk rec root k) (walk rec' root (S k)).
Proof.
  intros Hrec. induction k as [|k IH]; intros h h' r.
  { by intros [= <- <-]. }
  rewrite (walk_S rec' root (S k)), walk_S, !bind_read.
  destruct (load h root) as [c| |]; [|done..].
  destruct (data c) as [|hd [|e rest]]; [done..|].
  rewrite !bind_run. destruct (rec (node e) h) as [h1 r1] eqn:H1.
  destruct (decide (r1 = Crash OutOfFuel)) as [->|Hr1].
  { by intros [= <- <-]. }
  rewrite (Hrec _ _ _ _ H1 Hr1).
  destruct r1 as [[]| |]; [|done..].
  rewrite !bind_read.
  destruct (load h1 root) as [c'| |]; [|done..].
  destruct (data c') as [|hd' [|e' rest']]; [done..|].
  rewrite !bind_write. apply IH.
Qed.

Lemma releaseAll_extends (fuel : nat) (root : ptr) :
  extends (releaseAll fuel root) (releaseAll (S fuel) root).
Proof.
  revert root. induction fuel as [|fuel IH]; intros root h h' r.
  { by intros [= <- <-]. }
  change (releaseAll (S (S fuel)) root)
    with (releaseAll_body (releaseAll (S fuel)) (S fuel) root).
  change (releaseAll (S fuel) root) with (releaseAll_body (releaseAll fuel) fuel root).
  unfold releaseAll_body. rewrite !bind_read.
  destruct (load h root) as [i| |]; [|done..].
  rewrite !bind_write.
  destruct (traversing i); [done|].
  rewrite !bind_modify.
  destruct (load _ root) as [i'| |]; [|done..].
  unfold emit. rewrite !bind_write.
  set (h3 := State _ _ _). clearbody h3.
  rewrite !(bind_run (if S_ISDIR (mode i) then _ else _)).
  destruct (S_ISDIR (mode i)).
  - rewrite !(bind_run (walk _ _ _)).
    destruct (walk (releaseAll fuel) root fuel h3) as [h4 r4] eqn:Hwalk.
    destruct (decide (r4 = Crash OutOfFuel)) as [->|Hr4].
    { by intros [= <- <-]. }
    rewrite (walk_extends _ _ _ _ IH _ _ _ Hwalk Hr4).
    destruct r4 as [[]| |]; [|done..].
    rewrite !bind_read.
    destruct (load h4 root) as [c| |]; [|done..].
    destruct (data c) as [|hd rest]; [done|].
    destruct (releaseAll fuel (node hd) h4) as [h5 r5] eqn:H5.
    destruct (decide (r5 = Crash OutOfFuel)) as [->|Hr5].
    { by intros [= <- <-]. }
    by rewrite (IH _ _ _ _ H5 Hr5).
  - done.
Qed.

Lemma releaseAll_enough_fuel (fuel fuel' : nat) (root : ptr) (h h' : state)
    (r : result unit) :
  releaseAll fuel root h = (h', r) → r ≠ Crash OutOfFuel → (fuel ≤ fuel')%nat →
  releaseAll fuel' root h = (h', r).
Proof.
  intros Hrun Hr Hle. induction Hle as [|fuel' Hle IH]; [done|].
  by apply releaseAll_extends.
Qed.

(** *** The recursion of the teardown is bounded on every memory *)

Section Termination.
Local Open Scope nat_scope.

Lemma shrinks_refl (h : state) : shrinks h h.
Proof. split; intros p i Hi; eauto. Qed.

Lemma shrinks_trans (h1 h2 h3 : state) : shrinks h1 h2 → shrinks h2 h3 → shrinks h1 h3.
Proof.
  intros [Ha1 Ha2] [Hb1 Hb2]. split.
  - intros p i3 Hi3. destruct (Hb1 p i3 Hi3) as (i2 & Hi2 & Hl2 & Ht2).
    destruct (Ha1 p i2 Hi2) as (i1 & Hi1 & Hl1 & Ht1).
    exists i1. split; [done|]. split; [lia|auto].
  - intros p i1 Hi1 Ht1. destruct (Ha2 p i1 Hi1 Ht1) as (i2 & Hi2 & Ht2). eauto.
Qed.

Lemma shrinks_store (h : state) (p : nat) (i i' : inode) :
  cells h !! p = Some i → length (data i') ≤ length (data i) →
  (traversing i = true → traversing i' = true) →
  (traversing i' = false → traversing i = false) →
  shrinks h (store h p i').
Proof.
  intros Hi Hlen Hmark Hun. split; intros q j; cbn [cells store].
  - destruct (decide (p = q)) as [->|Hne].
    + rewrite lookup_insert_eq. intros [= <-]. eauto.
    + rewrite lookup_insert_ne by done. eauto.
  - destruct (decide (p = q)) as [->|Hne].
    + rewrite lookup_insert_eq. intros Hj Ht. assert (j = i) as -> by congruence. eauto.
    + rewrite lookup_insert_ne by done. eauto.
Qed.

Lemma shrinks_trace (h : state) (t : list event) :
  shrinks h (State (cells h) (brk h) t).
Proof. split; intros p i Hi; eauto. Qed.

(** The end of a visit: the mark of [root], which had none in [h], is
    cleared, and [root] may be released. *)
Lemma shrinks_leave (h h5 : state) (root : nat) (i c5 : inode) (t : list event)
    (released : bool) :
  shrinks h h5 → cells h !! root = Some i → traversing i = false →
  cells h5 !! root = Some c5 →
  shrinks h (State (if released then delete root (<[root := set_traversing false c5]> (cells h5))
                    else <[root := set_traversing false c5]> (cells h5))
                   (brk h5) t).
Proof.
  intros [H1 H2] Hi Ht Hc5. split; intros q j; cbn [cells].
  - intros Hj. destruct (decide (q = root)) as [->|Hne].
    + destruct released.
      * by rewrite lookup_delete_eq in Hj.
      * rewrite lookup_insert_eq in Hj. injection Hj as <-.
        destruct (H1 root c5 Hc5) as (i0 & Hi0 & Hl & _).
        assert (i0 = i) as -> by congruence. eauto.
    + apply (H1 q j). destruct released.
      * by rewrite lookup_delete_ne, lookup_insert_ne in Hj.
      * by rewrite lookup_insert_ne in Hj.
  - intros Hj Htj. assert (q ≠ root) by (intros ->; congruence).
    destruct (H2 q j Hj Htj) as (j' & Hj' & Htj'). exists j'. split; [|done].
    destruct released.
    + by rewrite lookup_delete_ne, lookup_insert_ne.
    + by rewrite lookup_insert_ne.
Qed.

Lemma walk_shrinking (rec : nat → M unit) (root : nat) (k : nat) :
  (∀ p, shrinking (rec p)) → shrinking (walk rec root k).
Proof.
  intros Hrec. induction k as [|k IH]; intros h h' r.
  { intros [= <- <-]. apply shrinks_refl. }
  rewrite walk_S, bind_read.
  destruct (load h root) as [c| |]; [|intros [= <- <-]; apply shrinks_refl..].
  destruct (data c) as [|hd [|e rest]]; [intros [= <- <-]; apply shrinks_refl..|].
  rewrite bind_run. destruct (rec (node e) h) as [h1 r1] eqn:H1.
  apply Hrec in H1.
  destruct r1 as [[]| |]; [|by intros [= <- <-]..].
  rewrite bind_read.
  destruct (load h1 root) as [c'| |] eqn:Hc'; [|by intros [= <- <-]..].
  destruct (data c') as [|hd' [|e' rest']] eqn:Hd'; [by intros [= <- <-]..|].
  rewrite bind_write. intros Hgo%IH.
  eapply shrinks_trans; [done|]. eapply shrinks_trans; [|done].
  apply load_Some in Hc' as [_ Hc'].
  apply (shrinks_store h1 root c'); [done| |done..].
  rewrite Hd'. cbn. lia.
Qed.

Lemma releaseAll_shrinking (fuel : nat) (root : nat) : shrinking (releaseAll fuel root).
Proof.
  revert root. induction fuel as [|fuel IH]; intros root h h' r.
  { intros [= <- <-]. apply shrinks_refl. }
  cbn [releaseAll]. unfold releaseAll_body. rewrite bind_read.
  destruct (load h root) as [i| |] eqn:Hi; [|intros [= <- <-]; apply shrinks_refl..].
  pose proof Hi as [Hroot Hcell]%load_Some.
  rewrite bind_write.
  assert (Hs1 : shrinks h (store h root (set_nlink (nlink i - 1) i))).
  { by apply (shrinks_store h root i). }
  destruct (traversing i) eqn:Htrav; [by intros [= <- <-]|].
  rewrite bind_modify, load_store_eq by done.
  unfold emit. rewrite bind_write.
  set (h3 := State _ _ _).
  assert (Hs3 : shrinks h h3).
  { eapply shrinks_trans; [exact Hs1|]. eapply shrinks_trans; [|apply shrinks_trace].
    eapply shrinks_store; [apply lookup_insert_eq|done..]. }
  clearbody h3. clear Hs1.
  rewrite bind_run.
  match goal with |- context [(if S_ISDIR (mode i) then ?m else ?m') h3] =>
    destruct ((if S_ISDIR (mode i) then m else m') h3) as [h5 r5] eqn:Hbody end.
  assert (Hs5 : shrinks h h5).
  { eapply shrinks_trans; [exact Hs3|]. destruct (S_ISDIR (mode i)).
    - rewrite bind_run in Hbody.
      destruct (walk (releaseAll fuel) root fuel h3) as [h4 r4] eqn:Hwalk.
      apply walk_shrinking in Hwalk; [|done].
      destruct r4 as [[]| |]; [|by injection Hbody as <- <-..].
      rewrite bind_read in Hbody.
      destruct (load h4 root) as [c| |]; [|by injection Hbody as <- <-..].
      destruct (data c) as [|hd rest]; [by injection Hbody as <- <-|].
      apply IH in Hbody. by eapply shrinks_trans.
    - injection Hbody as <- <-. apply shrinks_refl. }
  destruct r5 as [[]| |]; [|by intros [= <- <-]..].
  rewrite bind_modify.
  destruct (load h5 root) as [c5| |] eqn:Hc5; [|by intros [= <- <-]..].
  apply load_Some in Hc5 as [_ Hc5].
  rewrite bind_write, bind_read. unfold store at 1 2. cbn [cells brk trace].
  match goal with |- context [load ?s root] => set (h7 := s) end.
  destruct (load h7 root) as [c7| |]; [|intros [= <- <-]..].
  - destruct (nlink c7 =? 0)%Z; intros [= <- <-].
    + apply (shrinks_leave h h5 root i c5 _ true); done.
    + apply (shrinks_leave h h5 root i c5 _ false); done.
  - apply (shrinks_leave h h5 root i c5 _ false); done.
  - apply (shrinks_leave h h5 root i c5 _ false); done.
Qed.
Lemma load_fuel (h : state) (p : nat) : load h p ≠ Crash OutOfFuel.
Proof. unfold load. case_decide; [done|]. by destruct (cells h !! p). Qed.

Ltac load_cases h p c H :=
  destruct (load h p) as [c| |?] eqn:H;
  [|done|by cbn; intros [= ->]; apply load_fuel in H].

Lemma covers_shrinks (S : gset nat) (h h' : state) :
  shrinks h h' → covers S h → covers S h'.
Proof.
  intros [H1 _] Hc p i' Hi' Ht. destruct (H1 p i' Hi') as (i & Hi & _ & Hun).
  apply (Hc p i Hi). auto.
Qed.

Lemma bounded_shrinks (B : nat) (h h' : state) :
  shrinks h h' → bounded B h → bounded B h'.
Proof.
  intros [H1 _] Hb p i' Hi'. destruct (H1 p i' Hi') as (i & Hi & Hl & _).
  specialize (Hb p i Hi). lia.
Qed.

(** With [k] rounds for an entry list of at most [k] cells the loop does not
    run out of rounds, provided the recursive calls do not run out of fuel. *)
Lemma walk_enough (rec : nat → M unit) (root : nat) (S : gset nat) (B : nat) :
  (∀ p h, covers S h → bounded B h → snd (rec p h) ≠ Crash OutOfFuel) →
  (∀ p, shrinking (rec p)) →
  ∀ k h c, covers S h → bounded B h →
    cells h !! root = Some c → traversing c = true → length (data c) ≤ k →
    snd (walk rec root (Datatypes.S k) h) ≠ Crash OutOfFuel.
Proof.
  intros Hrec Hshr. induction k as [|k IH]; intros h c Hcov Hbnd Hc Ht Hlen.
  { rewrite walk_S, bind_read. load_cases h root c0 Hc0.
    apply load_Some in Hc0 as [_ Hc0]. assert (c0 = c) as -> by congruence.
    destruct (data c); [done|]. cbn in Hlen. lia. }
  rewrite walk_S, bind_read.
  load_cases h root c0 Hc0.
  pose proof Hc0 as [Hroot Hc0']%load_Some. assert (c0 = c) as -> by congruence.
  destruct (data c) as [|hd [|e rest]] eqn:Hd; [done..|].
  rewrite bind_run. destruct (rec (node e) h) as [h1 r1] eqn:H1.
  pose proof (Hrec (node e) h Hcov Hbnd) as Hr1. rewrite H1 in Hr1. cbn in Hr1.
  pose proof (Hshr _ _ _ _ H1) as Hs1.
  destruct r1 as [[]| |]; [|done..].
  rewrite bind_read.
  destruct (proj2 Hs1 root c Hc Ht) as (c1 & Hc1 & Ht1).
  destruct (proj1 Hs1 root c1 Hc1) as (c' & Hc' & Hl1 & _).
  assert (c' = c) as -> by congruence.
  rewrite (proj2 (load_Some h1 root c1)) by done.
  destruct (data c1) as [|hd1 [|e1 rest1]] eqn:Hd1; [done..|].
  rewrite bind_write.
  assert (Hs2 : shrinks h1 (store h1 root (set_data (hd1 :: rest1) c1))).
  { apply (shrinks_store h1 root c1); [done| |done..]. rewrite Hd1. cbn. lia. }
  apply (IH _ (set_data (hd1 :: rest1) c1)).
  - eapply covers_shrinks; [exact Hs2|]. by eapply covers_shrinks.
  - eapply bounded_shrinks; [exact Hs2|]. by eapply bounded_shrinks.
  - cbn [cells store]. by rewrite lookup_insert_eq.
  - done.
  - cbn. rewrite Hd in Hl1. cbn in Hl1, Hlen. lia.
Qed.

Lemma releaseAll_enough (fuel : nat) :
  ∀ (S : gset nat) (B : nat) (root : nat) (h : state),
    covers S h → bounded B h → size S + B < fuel →
    snd (releaseAll fuel root h) ≠ Crash OutOfFuel.
Proof.
  induction fuel as [|fuel IH]; intros S B root h Hcov Hbnd Hfuel; [lia|].
  cbn [releaseAll]. unfold releaseAll_body. rewrite bind_read.
  load_cases h root i Hi.
  pose proof Hi as [Hroot Hcell]%load_Some.
  rewrite bind_write.
  destruct (traversing i) eqn:Htrav; [done|].
  rewrite bind_modify, load_store_eq by done.
  unfold emit. rewrite bind_write.
  set (i3 := set_traversing true _). set (h3 := State _ _ _).
  assert (Hcell3 : cells h3 !! root = Some i3).
  { unfold h3, store. cbn [cells]. by rewrite lookup_insert_eq. }
  assert (Hother : ∀ p, p ≠ root → cells h3 !! p = cells h !! p).
  { intros p Hp. unfold h3, store. cbn [cells]. by rewrite !lookup_insert_ne. }
  set (S' := S ∖ {[root]}).
  assert (Hin : root ∈ S) by (by eapply Hcov).
  assert (Hsize : size S' + B < fuel).
  { unfold S'. rewrite size_difference by set_solver. rewrite size_singleton.
    assert (size S ≠ 0); [|lia]. apply size_non_empty_iff. set_solver. }
  assert (Hcov3 : covers S' h3).
  { intros p j Hj Htj. destruct (decide (p = root)) as [->|Hp].
    - rewrite Hcell3 in Hj. injection Hj as <-. done.
    - rewrite Hother in Hj by done. unfold S'. specialize (Hcov p j Hj Htj). set_solver. }
  assert (Hbnd3 : bounded B h3).
  { intros p j Hj. destruct (decide (p = root)) as [->|Hp].
    - rewrite Hcell3 in Hj. injection Hj as <-. apply (Hbnd root i Hcell).
    - rewrite Hother in Hj by done. by apply (Hbnd p j). }
  clearbody h3.
  rewrite bind_run.
  match goal with |- context [(if S_ISDIR (mode i) then ?m else ?m') h3] =>
    destruct ((if S_ISDIR (mode i) then m else m') h3) as [h5 r5] eqn:Hbody end.
  assert (Hr5 : r5 ≠ Crash OutOfFuel).
  { destruct (S_ISDIR (mode i)); [|by injection Hbody as <- <-].
    rewrite bind_run in Hbody.
    destruct (walk (releaseAll fuel) root fuel h3) as [h4 r4] eqn:Hwalk.
    assert (Hr4 : r4 ≠ Crash OutOfFuel).
    { destruct fuel as [|k]; [lia|].
      pose proof (walk_enough (releaseAll (Datatypes.S k)) root S' B) as Hw.
      specialize (Hw (fun p s Hc Hb => IH S' B p s Hc Hb Hsize)
                     (fun p => releaseAll_shrinking _ p) k h3 i3 Hcov3 Hbnd3 Hcell3 eq_refl).
      rewrite Hwalk in Hw. apply Hw. specialize (Hbnd3 root i3 Hcell3). lia. }
    pose proof (walk_shrinking _ root fuel (fun p => releaseAll_shrinking fuel p)
                  _ _ _ Hwalk) as Hs4.
    destruct r4 as [[]| |]; [|by injection Hbody as <- <-..].
    rewrite bind_read in Hbody.
    destruct (load h4 root) as [c| |] eqn:Hl4;
      [|by injection Hbody as <- <-
       |injection Hbody as <- <-; intros [= ->]; by apply load_fuel in Hl4].
    destruct (data c) as [|hd rest]; [by injection Hbody as <- <-|].
    pose proof (IH S' B (node hd) h4) as Hn. rewrite Hbody in Hn. apply Hn; [| |done].
    - by eapply covers_shrinks.
    - by eapply bounded_shrinks. }
  destruct r5 as [[]| |]; [|done..].
  rewrite bind_modify. load_cases h5 root c5 Hc5.
  rewrite bind_write, bind_read.
  match goal with |- context [load ?s root] => load_cases s root c7 Hc7 end.
  by destruct (nlink c7 =? 0)%Z.
Qed.

Lemma sum_list_elem {A} (f : A → nat) (l : list A) (x : A) :
  x ∈ l → f x ≤ sum_list (f <$> l).
Proof.
  induction l as [|a l IH]; [by intros ?%elem_of_nil|].
  intros [->|Hx]%elem_of_cons; cbn; [lia|]. specialize (IH Hx). lia.
Qed.

(** The teardown never runs out of fuel when it is given [enough_fuel]: on
    every memory, legal or not, the recursion comes to an end, by a normal
    return or by a fault. *)
Lemma releaseAll_terminates (h : state) (root : nat) (fuel : nat) :
  enough_fuel h ≤ fuel → snd (releaseAll fuel root h) ≠ Crash OutOfFuel.
Proof.
  intros Hfuel. unfold enough_fuel in Hfuel.
  eapply (releaseAll_enough fuel (dom (cells h))); [| |exact Hfuel].
  - intros p i Hi _. apply elem_of_dom. eauto.
  - intros p i Hi.
    apply (sum_list_elem (fun x => length (data (snd x))) _ (p, i)).
    by apply elem_of_map_to_list.
Qed.
End Termination.

(** C3 (the source misses it).  Six successful callbacks on a fresh
    filesystem: [mkdir /a], [mkdir /a/x], [mkdir /z], [rename /a/x /y],
    [rename /z /a/w], [rmdir /a/w].  The rename leaves the [..] of the moved
    directory pointing at [/a], and the [rmdir] takes one link off [/a] for a
    [..] that leads elsewhere.  The teardown then releases [/a] when its
    link count reaches 0 and later follows the [..] of [/y] into the released
    inode: it does not return, whatever bound is given to the recursion. *)
Theorem releaseAll_dangling_dotdot :
  let '(h0, root) := newFilesystem in
  let mkdir p := ramMkdir true true true true root (str p) 493 in
  let st := run [mkdir "/a"; mkdir "/a/x"; mkdir "/z";
                 ramRename true root (str "/a/x") (str "/y");
                 ramRename true root (str "/z") (str "/a/w");
                 ramRmdir root (str "/a/w")] h0 in
  snd st = Ok () ∧
  load (fst st) 2%nat
    = Ok (Inode 16877 2 0 [Entry (str ".") 2%nat; Entry (str "..") 1%nat] 1%nat false) ∧
  load (fst st) 3%nat
    = Ok (Inode 16877 2 0 [Entry (str ".") 3%nat; Entry (str "..") 2%nat] 2%nat false) ∧
  ∀ fuel, snd (ramDestroy fuel root (fst st)) ≠ Ok () ∧
          ((4 ≤ fuel)%nat → snd (ramDestroy fuel root (fst st)) = Crash Dangling).
Proof.
  cbv zeta. destruct newFilesystem as [h0 root] eqn:Hnew.
  injection Hnew as <- <-.
  split; [by vm_compute|]. split; [by vm_compute|]. split; [by vm_compute|].
  match goal with |- ∀ fuel, snd (ramDestroy fuel ?r ?s) ≠ _ ∧ _ =>
    set (root := r); set (h := s) end.
  assert (H4 : ∀ fuel, (4 ≤ fuel)%nat → snd (ramDestroy fuel root h) = Crash Dangling).
  { intros fuel Hle. unfold ramDestroy.
    destruct (releaseAll 4 root h) as [h' r] eqn:Hrun.
    assert (Hr : r = Crash Dangling).
    { change r with (snd (h', r)). rewrite <- Hrun. by vm_compute. }
    subst r. by rewrite (releaseAll_enough_fuel _ _ _ _ _ _ Hrun). }
  intros fuel. split; [|by apply H4].
  destruct (le_lt_dec 4 fuel) as [Hle|Hlt].
  - by rewrite H4.
  - do 4 (destruct fuel as [|fuel]; [by vm_compute|]). lia.
Qed.

(** ** The directory tree and its link counts *)

Lemma is_dir_load (h : state) (p : ptr) (b : bool) :
  isDir h p = Ok b → p ≠ NULL ∧ ∃ i, cells h !! p = Some i ∧ S_ISDIR (mode i) = b.
Proof.
  unfold isDir. destruct (load h p) as [i| |] eqn:Hi; [|done..].
  apply load_Some in Hi as [Hp Hi]. intros [= <-]. eauto.
Qed.

Lemma isDir_is_dir (h : state) (p : ptr) (b : bool) : isDir h p = Ok b → is_dir h p = b.
Proof.
  intros Hd. apply is_dir_load in Hd as (_ & i & Hi & Hb).
  unfold is_dir. by rewrite Hi.
Qed.

Lemma is_dir_Some (h : state) (p : ptr) :
  is_dir h p = true ↔ ∃ i, cells h !! p = Some i ∧ S_ISDIR (mode i) = true.
Proof.
  unfold is_dir. destruct (cells h !! p) as [i|].
  - split; [eauto|]. intros (j & Hj & ?). by injection Hj as <-.
  - split; [done|]. by intros (j & Hj & ?).
Qed.

Lemma dirs_of_ext (h h' : state) (l : list entry) :
  (∀ e, e ∈ l → is_dir h' (node e) = is_dir h (node e)) → dirs_of h' l = dirs_of h l.
Proof.
  induction l as [|a l IH]; [done|]. intros Hl. unfold dirs_of in *.
  rewrite !filter_cons, Hl by left. rewrite IH; [done|].
  intros e He. apply Hl. by right.
Qed.

Lemma elem_of_dirs_of (h : state) (e : entry) (l : list entry) :
  e ∈ dirs_of h l ↔ is_dir h (node e) = true ∧ e ∈ l.
Proof. unfold dirs_of. by rewrite list_elem_of_filter. Qed.

Lemma dirs_of_app (h : state) (l1 l2 : list entry) :
  dirs_of h (l1 ++ l2) = dirs_of h l1 ++ dirs_of h l2.
Proof. apply filter_app. Qed.

Lemma dirs_of_cons (h : state) (e : entry) (l : list entry) :
  dirs_of h (e :: l) = if is_dir h (node e) then e :: dirs_of h l else dirs_of h l.
Proof.
  unfold dirs_of. rewrite filter_cons.
  destruct (is_dir h (node e)); by case_decide.
Qed.

Lemma dirs_of_transfer (h : state) (l l' : list entry) (e : entry) :
  dirs_of h l' = dirs_of h l → e ∈ l' → is_dir h (node e) = true → e ∈ l.
Proof.
  intros Heq He Hd. assert (He' : e ∈ dirs_of h l').
  { by apply elem_of_dirs_of. }
  rewrite Heq in He'. by apply elem_of_dirs_of in He' as [_ ?].
Qed.

Lemma take_2_shape (l : list entry) (a b : entry) (rest : list entry) (l' : list entry) :
  l = a :: b :: rest → take 2 l' = take 2 l → ∃ rest', l' = a :: b :: rest'.
Proof.
  intros ->. destruct l' as [|a' [|b' rest']]; [done..|].
  intros [= -> ->]. eauto.
Qed.

(** A change that keeps, for every directory, its link count, its [.] and
    [..], and the entries that lead to directories, keeps the tree. *)
Lemma tree_inv_frame (root : ptr) (h h' : state) :
  tree_inv root h →
  cells h' !! NULL = None →
  (∀ p i, cells h' !! p = Some i → (p < brk h')%nat) →
  (∀ p, is_dir h' p = is_dir h p) →
  (∀ d i', cells h' !! d = Some i' → S_ISDIR (mode i') = true →
     ∃ i, cells h !! d = Some i ∧ nlink i' = nlink i ∧
          take 2 (data i') = take 2 (data i) ∧
          dirs_of h (children i') = dirs_of h (children i) ∧
          ∀ e, e ∈ data i' → (node e < brk h')%nat) →
  tree_inv root h'.
Proof.
  intros Hinv Hnull Hbrk Hdir Hframe.
  assert (Hold : ∀ d i' i, cells h' !! d = Some i' → S_ISDIR (mode i') = true →
                  cells h !! d = Some i → S_ISDIR (mode i) = true).
  { intros d i' i Hi' Hm Hi. assert (Hd : is_dir h d = true).
    { rewrite <- Hdir. unfold is_dir. by rewrite Hi'. }
    unfold is_dir in Hd. by rewrite Hi in Hd. }
  assert (Hdirs : ∀ l, dirs_of h' l = dirs_of h l).
  { intros l. apply dirs_of_ext. auto. }
  split.
  - done.
  - done.
  - rewrite Hdir. apply Hinv.
  - intros d i' Hi' Hm.
    destruct (Hframe d i' Hi' Hm) as (i & Hi & _ & Htake & _).
    destruct (inv_shape _ _ Hinv d i Hi (Hold _ _ _ Hi' Hm Hi)) as (p & rest & Hdata & Hp & Hr).
    destruct (take_2_shape _ _ _ _ _ Hdata Htake) as [rest' Hdata'].
    exists p, rest'. by rewrite Hdir.
  - intros d i' Hi' Hm.
    destruct (Hframe d i' Hi' Hm) as (i & Hi & Hn & _ & Hd & _).
    unfold subdirs. rewrite Hn, Hdirs, Hd.
    apply (inv_nlink _ _ Hinv d i Hi (Hold _ _ _ Hi' Hm Hi)).
  - intros d i' Hi' Hm Hroot.
    destruct (Hframe d i' Hi' Hm) as (i & Hi & _ & Htake & _).
    pose proof (Hold _ _ _ Hi' Hm Hi) as Hmi.
    destruct (inv_child _ _ Hinv d i Hi Hmi Hroot) as (p & ip & e & Hdd & Hp & He & Hed).
    destruct (inv_shape _ _ Hinv d i Hi Hmi) as (p0 & rest & Hdata & Hp0 & _).
    destruct (take_2_shape _ _ _ _ _ Hdata Htake) as [rest' Hdata'].
    rewrite Hdata in Hdd. assert (p0 = p) as -> by (cbn in Hdd; congruence).
    rewrite <- Hdir in Hp0. apply is_dir_Some in Hp0 as (ip' & Hip' & Hmp').
    destruct (Hframe p ip' Hip' Hmp') as (ip0 & Hip0 & _ & _ & Hd & _).
    assert (ip0 = ip) as -> by congruence.
    exists p, ip', e. split; [by rewrite Hdata'|]. split; [done|]. split; [|done].
    eapply dirs_of_transfer; [done..|].
    rewrite Hed. unfold is_dir. by rewrite Hi.
  - intros d i' e Hi' Hm He.
    destruct (Hframe d i' Hi' Hm) as (i & _ & _ & _ & _ & Hb). by apply Hb.
  - intros d i' Hi' Hm.
    destruct (Hframe d i' Hi' Hm) as (i & Hi & _ & _ & Hd & _).
    rewrite Hdirs, Hd. apply (inv_nodup _ _ Hinv d i Hi (Hold _ _ _ Hi' Hm Hi)).
  - intros d1 i1' d2 i2' e1 e2 Hi1' Hm1 Hi2' Hm2 Hne He1 He2 Heq.
    destruct (is_dir h' (node e1)) eqn:Hde; [|done].
    rewrite Hdir in Hde.
    destruct (Hframe d1 i1' Hi1' Hm1) as (i1 & Hi1 & _ & _ & Hd1 & _).
    destruct (Hframe d2 i2' Hi2' Hm2) as (i2 & Hi2 & _ & _ & Hd2 & _).
    assert (He1' : e1 ∈ children i1) by (by eapply dirs_of_transfer).
    assert (He2' : e2 ∈ children i2).
    { eapply dirs_of_transfer; [done..|]. by rewrite <- Heq. }
    assert (is_dir h (node e1) = false); [|congruence].
    apply (inv_disjoint _ _ Hinv d1 i1 d2 i2 e1 e2); eauto.
Qed.

Lemma is_dir_insert (h : state) (q p : ptr) (i : inode) (b : nat) (t : list event) :
  is_dir (State (<[q := i]> (cells h)) b t) p
  = if decide (q = p) then S_ISDIR (mode i) else is_dir h p.
Proof.
  unfold is_dir. cbn [cells]. case_decide as Hq.
  - subst. by rewrite lookup_insert_eq.
  - by rewrite lookup_insert_ne.
Qed.

Lemma is_dir_delete (h : state) (q p : ptr) :
  is_dir (free h q) p = if decide (q = p) then false else is_dir h p.
Proof.
  unfold is_dir, free. cbn [cells]. case_decide as Hq.
  - subst. by rewrite lookup_delete_eq.
  - by rewrite lookup_delete_ne.
Qed.

(** Writing an inode that is not a directory where no directory was. *)
Lemma tree_inv_set_file (root : ptr) (h : state) (q : ptr) (i' : inode) (b : nat)
    (t : list event) :
  tree_inv root h → q ≠ NULL → (q < b)%nat → (brk h ≤ b)%nat →
  is_dir h q = false → S_ISDIR (mode i') = false →
  tree_inv root (State (<[q := i']> (cells h)) b t).
Proof.
  intros Hinv Hq Hqb Hb Hd Hm. apply (tree_inv_frame root h); [done|..].
  - cbn [cells]. rewrite lookup_insert_ne by done. apply Hinv.
  - cbn [cells brk]. intros p i. destruct (decide (q = p)) as [->|Hne].
    + done.
    + rewrite lookup_insert_ne by done. intros Hp%(inv_brk _ _ Hinv). lia.
  - intros p. rewrite is_dir_insert. case_decide; [|done]. subst. congruence.
  - cbn [cells brk]. intros d i. destruct (decide (q = d)) as [->|Hne].
    + rewrite lookup_insert_eq. intros [= <-]. congruence.
    + rewrite lookup_insert_ne by done. intros Hi Hmi. exists i.
      repeat split; [done|]. intros e He.
      pose proof (inv_below _ _ Hinv d i e Hi Hmi He). lia.
Qed.

(** Releasing an inode that is not a directory. *)
Lemma tree_inv_release_file (root : ptr) (h : state) (q : ptr) :
  tree_inv root h → is_dir h q = false → tree_inv root (free h q).
Proof.
  intros Hinv Hd. apply (tree_inv_frame root h); [done|..].
  - cbn [cells free]. destruct (decide (q = NULL)) as [->|Hne].
    + by rewrite lookup_delete_eq.
    + rewrite lookup_delete_ne by done. apply Hinv.
  - cbn [cells brk free]. intros p i [_ Hp]%lookup_delete_Some.
    by apply (inv_brk _ _ Hinv) in Hp.
  - intros p. rewrite is_dir_delete. case_decide; [|done]. subst. congruence.
  - cbn [cells brk free]. intros d i [_ Hi]%lookup_delete_Some Hmi. exists i.
    repeat split; [done|]. intros e He. by apply (inv_below _ _ Hinv d i e).
Qed.

(** Replacing the entry list of a directory by one with the same [.] and
    [..] and the same entries that lead to directories. *)
Lemma tree_inv_set_data (root : ptr) (h : state) (d : ptr) (i : inode) (l : list entry) :
  tree_inv root h → cells h !! d = Some i → S_ISDIR (mode i) = true →
  take 2 l = take 2 (data i) →
  dirs_of h (drop 2 l) = dirs_of h (children i) →
  (∀ e, e ∈ l → (node e < brk h)%nat) →
  tree_inv root (store h d (set_data l i)).
Proof.
  intros Hinv Hi Hm Htake Hdirs Hbelow. apply (tree_inv_frame root h); [done|..].
  - cbn [cells store]. rewrite lookup_insert_ne; [apply Hinv|].
    intros ->. by rewrite (inv_null _ _ Hinv) in Hi.
  - cbn [cells brk store]. intros p j. destruct (decide (d = p)) as [->|Hne].
    + intros _. by apply (inv_brk _ _ Hinv) in Hi.
    + rewrite lookup_insert_ne by done. apply Hinv.
  - intros p. unfold store. rewrite is_dir_insert. case_decide; [|done].
    subst. unfold is_dir. by rewrite Hi.
  - cbn [cells brk store]. intros d' j. destruct (decide (d = d')) as [->|Hne].
    + rewrite lookup_insert_eq. intros [= <-] _. exists i. by repeat split.
    + rewrite lookup_insert_ne by done. intros Hj Hmj. exists j.
      repeat split; [done|]. intros e He. by apply (inv_below _ _ Hinv d' j e).
Qed.

(** *** What a successful operation did *)

Lemma addEntry_Ok (a : bool) (l : list entry) (nm : cstr) (l' : list entry) :
  addEntry a l nm = Ok l' →
  a = true ∧ l ≠ [] ∧ (length nm < NAME_MAX)%nat ∧ l' = l ++ [Entry nm NULL].
Proof.
  unfold addEntry. destruct l as [|hd tl]; [done|]. destruct a; [|done]. cbn [negb].
  destruct (Nat.leb_spec NAME_MAX (length nm)); [done|]. by intros [= <-].
Qed.

Lemma addNode_Ok (a : bool) (path : cstr) (root node : ptr) (h h' : state) (r : ptr) :
  addNode a path root node h = (h', Ok r) →
  ∃ dirNode file di ni,
    getParentDirectory h path root = Ok (dirNode, file) ∧
    load h dirNode = Ok di ∧ data di ≠ [] ∧ load h node = Ok ni ∧
    r = node ∧ h' = link_into dirNode node file h.
Proof.
  intros H. pose proof H as H0. unfold addNode in H0.
  rewrite bind_read in H0.
  destruct (getParentDirectory h path root) as [[dirNode file]| |] eqn:Hgp; [|done..].
  cbv beta iota in H0. rewrite bind_read in H0.
  destruct (found (pathfind h file dirNode)) as [[]| |] eqn:Hf; [done| |done..].
  rewrite bind_read in H0.
  destruct (load h dirNode) as [di| |] eqn:Hdi; [|done..].
  rewrite bind_read in H0.
  destruct (addEntry a (data di) file) as [l| |] eqn:Ha; [|done..].
  apply addEntry_Ok in Ha as (-> & Hdata & Hlen & ->).
  rewrite bind_write, bind_modify in H0.
  destruct (load (store h dirNode _) node) as [ni'| |] eqn:Hni'; [|done..].
  assert (Hni : ∃ ni, load h node = Ok ni).
  { destruct (decide (dirNode = node)) as [<-|Hne]; [eauto|].
    rewrite load_store_ne in Hni' by done. eauto. }
  destruct Hni as [ni Hni].
  rewrite (addNode_links h path root node dirNode file di ni) in H by done.
  injection H as <- <-. by exists dirNode, file, di, ni.
Qed.

Lemma S_ISDIR_regular (md : Z) : S_ISDIR (Z.lor md S_IFREG) = false.
Proof.
  unfold S_ISDIR. apply Z.eqb_neq. intros Heq.
  apply (f_equal (fun z => Z.testbit z 15)) in Heq.
  rewrite Z.land_spec, Z.lor_spec in Heq. cbn in Heq.
  rewrite orb_true_r in Heq. done.
Qed.

Lemma link_into_stores (h : state) (dirNode node : ptr) (file : cstr) (di ni : inode) :
  cells h !! dirNode = Some di → cells h !! node = Some ni → dirNode ≠ node →
  link_into dirNode node file h
  = State (<[node := (let i' := set_nlink (nlink ni + 1) ni in
                      if decide (parent ni = NULL) then set_parent dirNode i' else i')]>
             (cells (store h dirNode (set_data (data di ++ [Entry file node]) di))))
          (brk h) (trace h).
Proof.
  intros Hdi Hni Hne. unfold link_into. f_equal. cbn [cells store].
  apply map_eq. intros q. destruct (decide (q = node)) as [->|Hq].
  - by rewrite lookup_insert_eq, lookup_alter_eq, lookup_alter_ne, Hni.
  - rewrite lookup_insert_ne, lookup_alter_ne by done.
    destruct (decide (q = dirNode)) as [->|Hq'].
    + by rewrite lookup_insert_eq, lookup_alter_eq, Hdi.
    + by rewrite lookup_insert_ne, lookup_alter_ne.
Qed.

(** A new name for an inode that is not a directory. *)
Lemma tree_inv_link_file (root : ptr) (h : state) (dirNode node : ptr) (file : cstr)
    (di ni : inode) :
  tree_inv root h →
  load h dirNode = Ok di → S_ISDIR (mode di) = true →
  load h node = Ok ni → S_ISDIR (mode ni) = false →
  tree_inv root (link_into dirNode node file h).
Proof.
  intros Hinv [Hd0 Hdi]%load_Some Hmd [Hn0 Hni]%load_Some Hmn.
  assert (Hne : dirNode ≠ node) by (intros ->; congruence).
  rewrite (link_into_stores h dirNode node file di ni) by done.
  destruct (inv_shape _ _ Hinv dirNode di Hdi Hmd) as (p & rest & Hdata & _).
  assert (Hnd : is_dir h node = false) by (unfold is_dir; by rewrite Hni).
  apply tree_inv_set_file; try done.
  - apply tree_inv_set_data; try done.
    + by rewrite Hdata.
    + unfold children. rewrite Hdata. cbn [app drop]. rewrite !drop_0.
      rewrite dirs_of_app, dirs_of_cons. simpl. rewrite Hnd.
      by rewrite app_nil_r.
    + intros e [He| ->%list_elem_of_singleton]%elem_of_app.
      * by apply (inv_below _ _ Hinv dirNode di e).
      * cbn. by apply (inv_brk _ _ Hinv) in Hni.
  - cbn [brk store]. by apply (inv_brk _ _ Hinv) in Hni.
  - unfold store. rewrite is_dir_insert. case_decide; [done|]. done.
  - cbv zeta. by case_decide.
Qed.

Lemma calloc_node_Ok (a : bool) (h h1 : state) (node : ptr) :
  calloc_node a h = (h1, Ok node) →
  node = brk h ∧
  h1 = State (<[brk h := zero_inode]> (cells h)) (S (brk h)) (trace h).
Proof. unfold calloc_node. destruct a; [|done]. cbn. by intros [= <- <-]. Qed.

Lemma tree_inv_fresh (root : ptr) (h : state) :
  tree_inv root h → cells h !! brk h = None.
Proof.
  intros Hinv. destruct (cells h !! brk h) as [i|] eqn:Hi; [|done].
  apply (inv_brk _ _ Hinv) in Hi. lia.
Qed.

Lemma ramMknod_inv (root : ptr) (a_node a_entry : bool) (path : cstr) (md : Z)
    (h h' : state) :
  tree_inv root h → ramMknod a_node a_entry root path md h = (h', Ok ()) →
  tree_inv root h'.
Proof.
  intros Hinv. unfold ramMknod. rewrite bind_run.
  destruct (calloc_node a_node h) as [h1 [node| |]] eqn:Hc; [|done..].
  apply calloc_node_Ok in Hc as [-> ->].
  rewrite bind_modify.
  destruct (load _ (brk h)) as [i| |] eqn:Hi; [|done..].
  apply load_Some in Hi as [Hb Hi]. cbn [cells] in Hi.
  rewrite lookup_insert_eq in Hi. injection Hi as <-.
  unfold store. cbn [cells brk trace]. rewrite insert_insert_eq.
  set (h2 := State _ _ _).
  assert (Hinv2 : tree_inv root h2).
  { apply tree_inv_set_file; try done; [lia..| |apply S_ISDIR_regular].
    unfold is_dir. by rewrite (tree_inv_fresh root). }
  rewrite bind_run.
  destruct (addNode a_entry path root (brk h) h2) as [h3 [r| |]] eqn:Hadd; [|done..].
  intros [= <-].
  apply addNode_Ok in Hadd as (dirNode & file & di & ni & Hgp & Hdi & _ & Hni & _ & ->).
  apply getParentDirectory_Ok in Hgp as (_ & _ & _ & _ & _ & _ & Hd & _).
  apply is_dir_load in Hd as (_ & di' & Hdi' & Hmd).
  pose proof Hdi as [_ Hdi2]%load_Some. assert (di' = di) as -> by congruence.
  eapply tree_inv_link_file; try done.
  pose proof Hni as [_ Hni2]%load_Some. unfold h2 in Hni2. cbn [cells] in Hni2.
  rewrite lookup_insert_eq in Hni2. injection Hni2 as <-. apply S_ISDIR_regular.
Qed.

Lemma ramLink_inv (root : ptr) (a_entry : bool) (path newpath : cstr) (h h' : state) :
  tree_inv root h → ramLink a_entry root path newpath h = (h', Ok ()) →
  tree_inv root h'.
Proof.
  intros Hinv. unfold ramLink. rewrite bind_read.
  destruct (nonnull (pathfind h path root)) as [node| |]; [|done..].
  rewrite bind_read.
  destruct (isDir h node) as [[]| |] eqn:Hd; [done| |done..].
  rewrite bind_run.
  destruct (addNode a_entry newpath root node h) as [h3 [r| |]] eqn:Hadd; [|done..].
  intros [= <-].
  apply addNode_Ok in Hadd as (dirNode & file & di & ni & Hgp & Hdi & _ & Hni & _ & ->).
  apply getParentDirectory_Ok in Hgp as (_ & _ & _ & _ & _ & _ & Hdd & _).
  apply is_dir_load in Hdd as (_ & di' & Hdi' & Hmd).
  pose proof Hdi as [_ Hdi2]%load_Some. assert (di' = di) as -> by congruence.
  apply is_dir_load in Hd as (_ & ni' & Hni' & Hmn).
  pose proof Hni as [_ Hni2]%load_Some. assert (ni' = ni) as -> by congruence.
  by eapply tree_inv_link_file.
Qed.

(** *** Creating a directory *)

Lemma children_app (i : inode) (l : list entry) :
  (2 ≤ length (data i))%nat → drop 2 (data i ++ l) = children i ++ l.
Proof. intros Hl. unfold children. by rewrite drop_app_le. Qed.

Lemma elem_of_children (i : inode) (e : entry) : e ∈ children i → e ∈ data i.
Proof. unfold children. apply subseteq_drop. Qed.

Lemma tree_inv_mkdir (root : ptr) (h : state) (d : ptr) (di : inode) (m : Z)
    (f : cstr) (t : list event) :
  tree_inv root h → cells h !! d = Some di → S_ISDIR (mode di) = true →
  S_ISDIR m = true → brk h ≠ NULL →
  tree_inv root
    (State (<[brk h := Inode m 2 0 [Entry (str ".") (brk h); Entry (str "..") d] d false]>
              (<[d := set_nlink (nlink di + 1)
                        (set_data (data di ++ [Entry f (brk h)]) di)]> (cells h)))
           (S (brk h)) t).
Proof.
  intros Hinv Hdi Hmd Hm Hn0.
  set (n := brk h) in *.
  set (N := Inode m 2 0 [Entry (str ".") n; Entry (str "..") d] d false).
  set (D := set_nlink (nlink di + 1) (set_data (data di ++ [Entry f n]) di)).
  set (h' := State _ _ _).
  assert (Hfresh : cells h !! n = None) by (by eapply tree_inv_fresh).
  assert (Hdn : d ≠ n) by (intros ->; congruence).
  assert (Hrn : root ≠ n).
  { intros <-. pose proof (inv_root _ _ Hinv) as Hr. unfold is_dir in Hr.
    by rewrite Hfresh in Hr. }
  assert (Hlook : ∀ p, cells h' !! p
                       = if decide (p = n) then Some N
                         else if decide (p = d) then Some D else cells h !! p).
  { intros p. unfold h'. cbn [cells]. repeat case_decide; subst.
    - by rewrite lookup_insert_eq.
    - by rewrite lookup_insert_ne, lookup_insert_eq.
    - by rewrite !lookup_insert_ne. }
  assert (Hisdir : ∀ p, is_dir h' p = if decide (p = n) then true else is_dir h p).
  { intros p. unfold is_dir. rewrite Hlook. repeat case_decide; subst; try done.
    by rewrite Hdi. }
  assert (Hdirs : ∀ l, (∀ e, e ∈ l → (node e < n)%nat) → dirs_of h' l = dirs_of h l).
  { intros l Hl. apply dirs_of_ext. intros e He. rewrite Hisdir.
    case_decide as Hen; [|done]. apply Hl in He. lia. }
  destruct (inv_shape _ _ Hinv d di Hdi Hmd) as (pd & rest & Hdata & Hpd & Hpr).
  assert (Hlen : (2 ≤ length (data di))%nat) by (rewrite Hdata; cbn; lia).
  assert (HchD : children D = children di ++ [Entry f n]).
  { unfold children, D. cbn [data set_nlink set_data]. by apply children_app. }
  assert (Hold : ∀ x i, cells h !! x = Some i → S_ISDIR (mode i) = true →
                  ∀ e, e ∈ children i → (node e < n)%nat).
  { intros x i Hi Hmi e He. apply (inv_below _ _ Hinv x i e Hi Hmi).
    by apply elem_of_children. }
  assert (HdirsD : dirs_of h' (children D) = dirs_of h (children di) ++ [Entry f n]).
  { rewrite HchD, dirs_of_app, Hdirs by eauto. f_equal.
    rewrite dirs_of_cons. cbn. rewrite Hisdir. by rewrite decide_True. }
  (* every directory of [h'] is the new one, the parent, or an old one *)
  assert (Hcases : ∀ x i, cells h' !! x = Some i → S_ISDIR (mode i) = true →
            (x = n ∧ i = N) ∨ (x = d ∧ i = D) ∨
            (x ≠ n ∧ x ≠ d ∧ cells h !! x = Some i)).
  { intros x i. rewrite Hlook. repeat case_decide; intros Hi _.
    - left. split; congruence.
    - right. left. split; congruence.
    - right. right. done. }
  split.
  - rewrite Hlook. rewrite !decide_False; [apply Hinv|..].
    + intros <-. by rewrite (inv_null _ _ Hinv) in Hdi.
    + by intros <-.
  - intros p i. rewrite Hlook. cbn [brk h']. repeat case_decide; subst.
    + lia.
    + intros _. apply (inv_brk _ _ Hinv) in Hdi. fold n in Hdi. lia.
    + intros Hp%(inv_brk _ _ Hinv). fold n in Hp. lia.
  - rewrite Hisdir, decide_False by done. apply Hinv.
  - intros x i Hi Hmi.
    destruct (Hcases x i Hi Hmi) as [[-> ->]|[[-> ->]|(Hxn & Hxd & Hxi)]].
    + exists d, []. split; [done|]. split; [|done].
      rewrite Hisdir, decide_False by done. unfold is_dir. by rewrite Hdi.
    + exists pd, (rest ++ [Entry f n]). split.
      * unfold D. cbn [data set_nlink set_data]. by rewrite Hdata.
      * split; [|done]. rewrite Hisdir. case_decide; [done|]. done.
    + destruct (inv_shape _ _ Hinv x i Hxi Hmi) as (p & r & Hd & Hp & Hr).
      exists p, r. split; [done|]. split; [|done].
      rewrite Hisdir. by case_decide.
  - intros x i Hi Hmi. unfold subdirs.
    destruct (Hcases x i Hi Hmi) as [[-> ->]|[[-> ->]|(Hxn & Hxd & Hxi)]].
    + cbn. by rewrite decide_False.
    + rewrite HdirsD, length_app. cbn [length nlink D set_nlink set_data].
      pose proof (inv_nlink _ _ Hinv d di Hdi Hmd) as Hnl. unfold subdirs in Hnl. lia.
    + rewrite Hdirs by eauto. by apply (inv_nlink _ _ Hinv).
  - intros x i Hi Hmi Hxr.
    assert (Hkeep : ∀ p ip e, cells h !! p = Some ip → e ∈ children ip →
              ∃ ip', cells h' !! p = Some ip' ∧ e ∈ children ip').
    { intros p ip e Hip He. rewrite Hlook. rewrite decide_False by (intros ->; congruence).
      case_decide as Hp.
      - subst. exists D. split; [done|]. rewrite HchD.
        assert (ip = di) as -> by congruence. apply elem_of_app. by left.
      - eauto. }
    destruct (Hcases x i Hi Hmi) as [[-> ->]|[[-> ->]|(Hxn & Hxd & Hxi)]].
    + exists d, D, (Entry f n). split; [done|]. split.
      { rewrite Hlook. by rewrite decide_False, decide_True. }
      split; [|done]. rewrite HchD. apply elem_of_app. right. by left.
    + destruct (inv_child _ _ Hinv d di Hdi Hmd Hxr) as (p & ip & e & Hdd & Hip & He & Hed).
      destruct (Hkeep p ip e Hip He) as (ip' & Hip' & He').
      exists p, ip', e. split; [|done].
      unfold D. cbn [data set_nlink set_data]. rewrite Hdata in Hdd |- *. done.
    + destruct (inv_child _ _ Hinv x i Hxi Hmi Hxr) as (p & ip & e & Hdd & Hip & He & Hed).
      destruct (Hkeep p ip e Hip He) as (ip' & Hip' & He').
      by exists p, ip', e.
  - intros x i e Hi Hmi He. cbn [brk h'].
    destruct (Hcases x i Hi Hmi) as [[-> ->]|[[-> ->]|(Hxn & Hxd & Hxi)]].
    + cbn in He. apply elem_of_cons in He as [->|He]; [cbn; lia|].
      apply list_elem_of_singleton in He as ->. cbn.
      apply (inv_brk _ _ Hinv) in Hdi. lia.
    + unfold D in He. cbn [data set_nlink set_data] in He.
      apply elem_of_app in He as [He|He].
      * pose proof (inv_below _ _ Hinv d di e Hdi Hmd He). lia.
      * apply list_elem_of_singleton in He as ->. cbn. lia.
    + pose proof (inv_below _ _ Hinv x i e Hxi Hmi He). lia.
  - intros x i Hi Hmi.
    destruct (Hcases x i Hi Hmi) as [[-> ->]|[[-> ->]|(Hxn & Hxd & Hxi)]].
    + cbn. constructor.
    + rewrite HdirsD, fmap_app. apply NoDup_app. split; [by apply (inv_nodup _ _ Hinv d)|].
      split; [|cbn; apply NoDup_singleton].
      intros y Hy ->%list_elem_of_singleton.
      apply list_elem_of_fmap in Hy as (e & Hey & He).
      apply elem_of_dirs_of in He as [_ He]. apply (Hold d di Hdi Hmd) in He.
      cbn in Hey. lia.
    + rewrite Hdirs by eauto. by apply (inv_nodup _ _ Hinv x).
  - intros x1 i1 x2 i2 e1 e2 Hi1 Hm1 Hi2 Hm2 Hne He1 He2 Heq.
    assert (Hnew : ∀ x i e, cells h' !! x = Some i → S_ISDIR (mode i) = true →
              e ∈ children i → node e = n → x = d).
    { intros x i e Hi Hmi He Hen.
      destruct (Hcases x i Hi Hmi) as [[-> ->]|[[-> ->]|(Hxn & Hxd & Hxi)]]; [|done|].
      - by apply elem_of_nil in He.
      - apply (Hold x i Hxi Hmi) in He. lia. }
    assert (Holde : ∀ x i e, cells h' !! x = Some i → S_ISDIR (mode i) = true →
              e ∈ children i → node e ≠ n →
              ∃ i0, cells h !! x = Some i0 ∧ S_ISDIR (mode i0) = true ∧ e ∈ children i0).
    { intros x i e Hi Hmi He Hen.
      destruct (Hcases x i Hi Hmi) as [[-> ->]|[[-> ->]|(Hxn & Hxd & Hxi)]].
      - by apply elem_of_nil in He.
      - exists di. split; [done|]. split; [done|].
        rewrite HchD in He. apply elem_of_app in He as [He|He]; [done|].
        apply list_elem_of_singleton in He as ->. done.
      - eauto. }
    destruct (decide (node e1 = n)) as [Hen|Hen].
    + assert (x1 = d) by eauto. assert (x2 = d) by (eapply Hnew; eauto; congruence).
      congruence.
    + destruct (Holde x1 i1 e1) as (j1 & Hj1 & Hmj1 & Hej1); [done..|].
      destruct (Holde x2 i2 e2) as (j2 & Hj2 & Hmj2 & Hej2); [done..|congruence|].
      rewrite Hisdir, decide_False by done.
      by apply (inv_disjoint _ _ Hinv x1 j1 x2 j2 e1 e2).
Qed.

Lemma ramMkdir_inv (root : ptr) (a_node a_entry a_ddot a_dot : bool) (path : cstr)
    (md : Z) (h h' : state) :
  tree_inv root h → S_ISDIR (Z.lor md S_IFDIR) = true →
  ramMkdir a_node a_entry a_ddot a_dot root path md h = (h', Ok ()) →
  tree_inv root h'.
Proof.
  intros Hinv Hmode. unfold ramMkdir. rewrite bind_run.
  destruct (calloc_node a_node h) as [h1 [node| |]] eqn:Hc; [|done..].
  apply calloc_node_Ok in Hc as [-> ->].
  set (n := brk h) in *. set (m := Z.lor md S_IFDIR) in *.
  rewrite bind_modify.
  destruct (load _ n) as [i| |] eqn:Hi; [|done..].
  apply load_Some in Hi as [Hn0 Hi]. cbn [cells] in Hi.
  rewrite lookup_insert_eq in Hi. injection Hi as <-.
  unfold store at 1. cbn [cells brk trace]. rewrite insert_insert_eq.
  set (h2 := State _ _ _).
  rewrite bind_run.
  destruct (addNode a_entry path root n h2) as [h3 [r| |]] eqn:Hadd; [|done..].
  apply addNode_Ok in Hadd as (dirNode & file & di & ni & Hgp & Hdi & Hdata & Hni & -> & ->).
  apply getParentDirectory_Ok in Hgp as (_ & _ & _ & _ & _ & _ & Hd & _).
  apply is_dir_load in Hd as (_ & di' & Hdi' & Hmd).
  apply load_Some in Hdi as [Hd0 Hdi]. assert (di' = di) as -> by congruence. clear Hdi'.
  apply load_Some in Hni as [_ Hni]. unfold h2 in Hni. cbn [cells] in Hni.
  rewrite lookup_insert_eq in Hni. injection Hni as <-.
  assert (Hdn : dirNode ≠ n).
  { intros ->. unfold h2 in Hdi. cbn [cells] in Hdi. rewrite lookup_insert_eq in Hdi.
    injection Hdi as <-. done. }
  assert (Hdi0 : cells h !! dirNode = Some di).
  { unfold h2 in Hdi. cbn [cells] in Hdi. by rewrite lookup_insert_ne in Hdi. }
  rewrite (link_into_stores h2 dirNode n file di (set_mode m zero_inode));
    [|done|by unfold h2; cbn [cells]; rewrite lookup_insert_eq|done].
  cbn [parent set_mode zero_inode]. rewrite decide_True by done. cbv zeta.
  set (h3 := State _ _ _).
  destruct a_ddot; [|done]. rewrite bind_ret, bind_read.
  assert (H3n : load h3 n = Ok (set_parent dirNode (set_nlink (0 + 1) (set_mode m zero_inode)))).
  { apply load_Some. split; [done|]. unfold h3. cbn [cells]. by rewrite lookup_insert_eq. }
  rewrite H3n. cbn [parent set_parent].
  rewrite bind_modify.
  assert (H3d : load h3 dirNode = Ok (set_data (data di ++ [Entry file n]) di)).
  { apply load_Some. split; [done|]. unfold h3, h2, store. cbn [cells].
    by rewrite lookup_insert_ne, lookup_insert_eq. }
  rewrite H3d.
  destruct a_dot; [|done]. rewrite bind_ret.
  rewrite bind_modify, load_store_ne, H3n by done.
  rewrite bind_modify, load_store_eq by done.
  intros [= <-].
  match goal with |- tree_inv root ?s =>
    replace s with
      (State (<[n := Inode m 2 0 [Entry (str ".") n; Entry (str "..") dirNode]
                       dirNode false]>
                (<[dirNode := set_nlink (nlink di + 1)
                                (set_data (data di ++ [Entry file n]) di)]> (cells h)))
             (S n) (trace h))
  end.
  { apply tree_inv_mkdir; done. }
  apply state_eq; [|done..]. unfold h3, h2, store. cbn [cells].
  apply map_eq. intros q.
  destruct (decide (q = n)) as [->|Hq]; [by rewrite !lookup_insert_eq|].
  destruct (decide (q = dirNode)) as [->|Hq'];
    repeat (rewrite lookup_insert_eq || rewrite lookup_insert_ne by done); done.
Qed.

(** *** The entry a path names in its parent directory *)

Lemma last_split_None (s : cstr) : last_split s = None → Split ∉ s.
Proof.
  induction s as [|c s IH]; [by intros _ ?%elem_of_nil|]. simpl.
  destruct (last_split s) as [k|]; [done|]. case_decide as Hc; [done|].
  intros _ [?|?]%elem_of_cons; [by subst|by apply IH].
Qed.

Lemma last_split_drop (s : cstr) (n : nat) :
  last_split s = Some n → Split ∉ drop (S n) s.
Proof.
  revert n. induction s as [|c s IH]; intros n; [done|]. simpl.
  destruct (last_split s) as [k|] eqn:Hk.
  - intros [= <-]. by apply IH.
  - case_decide; [|done]. intros [= <-]. rewrite drop_0. by apply last_split_None.
Qed.

Lemma getParentDirectory_file (h : state) (path : cstr) (root d : ptr) (f : cstr) :
  getParentDirectory h path root = Ok (d, f) → Split ∉ f.
Proof.
  intros (n & dp & _ & Hex & _ & _ & _ & ->)%getParentDirectory_Ok.
  unfold extractPrefix in Hex. case_match; [done|].
  destruct (last_split path) as [k|] eqn:Hk; [|done]. case_match; [done|].
  injection Hex as <- _. rewrite Nat.add_1_r. by apply last_split_drop.
Qed.

Lemma lookup_name_split (c : cstr) (l : list entry) (e : entry) :
  lookup_name c l = Some e →
  ∃ l1 l2, l = l1 ++ e :: l2 ∧ name e = c ∧ ∀ e', e' ∈ l1 → name e' ≠ c.
Proof.
  unfold lookup_name. induction l as [|a l IH]; [done|]. simpl.
  case_bool_decide as Ha.
  - intros [= <-]. exists [], l. repeat split; [done|]. by intros e' ?%elem_of_nil.
  - intros (l1 & l2 & -> & He & Hl1)%IH. exists (a :: l1), l2.
    repeat split; [done|]. intros e' [->|He']%elem_of_cons; [done|by apply Hl1].
Qed.

(** In a directory of the tree, a file name without separator resolves to
    the directory itself (the empty name and [.]), to the target of [..], or
    to the first child entry of that name, which is then the entry that
    [removeEntry] detaches. *)
Lemma resolved_entry (root : ptr) (h : state) (dirNode nd : ptr) (file : cstr)
    (di : inode) :
  tree_inv root h → load h dirNode = Ok di → S_ISDIR (mode di) = true →
  Split ∉ file → pathfind h file dirNode = Ok nd →
  nd = dirNode ∨
  (∃ p rest, data di = Entry (str ".") dirNode :: Entry (str "..") p :: rest ∧ nd = p) ∨
  (∃ p r1 e r2,
     data di = Entry (str ".") dirNode :: Entry (str "..") p :: r1 ++ e :: r2 ∧
     node e = nd ∧
     removeEntry (data di) file
     = Ok (nd, Entry (str ".") dirNode :: Entry (str "..") p :: r1 ++ r2)).
Proof.
  intros Hinv Hdi Hmd Hfile Hpf.
  destruct (decide (file = [])) as [->|Hne].
  { left. by injection Hpf as <-. }
  rewrite <- (app_nil_r file) in Hpf.
  rewrite pathfind_component in Hpf; [|done|by left].
  rewrite Hdi in Hpf. rsimpl in Hpf. rewrite Hmd in Hpf.
  destruct (lookup_name file (data di)) as [e|] eqn:He; [|done].
  injection Hpf as <-.
  pose proof Hdi as [_ Hdi']%load_Some.
  destruct (inv_shape _ _ Hinv dirNode di Hdi' Hmd) as (p & rest & Hdata & _).
  rewrite Hdata in He. unfold lookup_name in He. simpl in He.
  case_bool_decide as Hdot.
  { left. by injection He as <-. }
  case_bool_decide as Hddot.
  { right. left. exists p, rest. split; [done|]. by injection He as <-. }
  apply lookup_name_split in He as (r1 & r2 & -> & Hname & Hr1).
  right. right. exists p, r1, e, r2. split; [done|]. split; [done|].
  rewrite Hdata. unfold removeEntry.
  change (Entry (str "..") p :: r1 ++ e :: r2)
    with ((Entry (str "..") p :: r1) ++ e :: r2).
  rewrite remove_after_found; [done..|].
  intros e' [->|He']%elem_of_cons; [done|by apply Hr1].
Qed.

(** *** Removing an empty directory *)

Lemma tree_inv_rmdir (root : ptr) (h : state) (d n : ptr) (di ni : inode) (p : ptr)
    (r1 : list entry) (e : entry) (r2 : list entry) (t : list event) :
  tree_inv root h → cells h !! d = Some di → S_ISDIR (mode di) = true →
  data di = Entry (str ".") d :: Entry (str "..") p :: r1 ++ e :: r2 → node e = n →
  cells h !! n = Some ni → S_ISDIR (mode ni) = true → children ni = [] →
  nlink ni = 2 → d ≠ n →
  tree_inv root
    (State (<[d := set_data (Entry (str ".") d :: Entry (str "..") p :: r1 ++ r2)
                     (set_nlink (nlink di - 1) di)]> (delete n (cells h)))
           (brk h) t).
Proof.
  intros Hinv Hdi Hmd Hdata Hen Hni Hmn Hempty Hnl Hdn.
  set (D := set_data _ _). set (h' := State _ _ _).
  assert (Hnr : n ≠ root).
  { intros ->. pose proof (inv_nlink _ _ Hinv root ni Hni Hmn) as H.
    rewrite decide_True in H by done. lia. }
  assert (Hnd : is_dir h n = true) by (unfold is_dir; by rewrite Hni).
  assert (Hlook : ∀ x, cells h' !! x
                       = if decide (x = d) then Some D
                         else if decide (x = n) then None else cells h !! x).
  { intros x. unfold h'. cbn [cells]. repeat case_decide; subst.
    - by rewrite lookup_insert_eq.
    - by rewrite lookup_insert_ne, lookup_delete_eq.
    - by rewrite lookup_insert_ne, lookup_delete_ne. }
  assert (Hisdir : ∀ x, is_dir h' x = if decide (x = n) then false else is_dir h x).
  { intros x. unfold is_dir. rewrite Hlook. repeat case_decide; subst; try done.
    by rewrite Hdi. }
  assert (Hchd : children di = r1 ++ e :: r2) by (unfold children; by rewrite Hdata).
  assert (HchD : children D = r1 ++ r2) by done.
  (* the [..] of a directory other than [n] does not lead to [n] *)
  assert (Hdotdot : ∀ x i q rest, cells h !! x = Some i → S_ISDIR (mode i) = true →
            data i = Entry (str ".") x :: Entry (str "..") q :: rest → q ≠ n).
  { intros x i q rest Hi Hmi Hd ->. destruct (decide (x = root)) as [->|Hxr].
    - destruct (inv_shape _ _ Hinv root i Hi Hmi) as (q & rest' & Hd' & _ & Hq).
      rewrite Hd in Hd'. injection Hd' as -> _. by specialize (Hq eq_refl).
    - destruct (inv_child _ _ Hinv x i Hi Hmi Hxr) as (q & iq & e' & Hdd & Hiq & He' & _).
      rewrite Hd in Hdd. injection Hdd as <-. assert (iq = ni) as -> by congruence.
      rewrite Hempty in He'. by apply elem_of_nil in He'. }
  (* [e] is the only child entry that leads to [n] *)
  pose proof (inv_nodup _ _ Hinv d di Hdi Hmd) as Hnodup.
  rewrite Hchd, dirs_of_app, dirs_of_cons, Hen, Hnd, fmap_app, fmap_cons, Hen in Hnodup.
  apply NoDup_app in Hnodup as (Hnd1 & Hnd12 & [Hnd2n Hnd2]%NoDup_cons).
  assert (Hr1 : ∀ e', e' ∈ r1 → node e' ≠ n).
  { intros e' He' Heq. apply (Hnd12 n); [|left].
    apply list_elem_of_fmap. exists e'. split; [done|].
    apply elem_of_dirs_of. by rewrite Heq. }
  assert (Hr2 : ∀ e', e' ∈ r2 → node e' ≠ n).
  { intros e' He' Heq. apply Hnd2n.
    apply list_elem_of_fmap. exists e'. split; [done|].
    apply elem_of_dirs_of. by rewrite Heq. }
  assert (Hother : ∀ x i e', cells h !! x = Some i → S_ISDIR (mode i) = true → x ≠ d →
             e' ∈ children i → node e' ≠ n).
  { intros x i e' Hi Hmi Hxd He' Heq.
    pose proof (inv_disjoint _ _ Hinv x i d di e' e Hi Hmi Hdi Hmd Hxd He') as H.
    rewrite Hchd, Heq, Hnd in H. discriminate H; [|done].
    apply elem_of_app. right. by left. }
  assert (Hdirs : ∀ l, (∀ e', e' ∈ l → node e' ≠ n) → dirs_of h' l = dirs_of h l).
  { intros l Hl. apply dirs_of_ext. intros e' He'. rewrite Hisdir.
    rewrite decide_False; [done|]. by apply Hl. }
  assert (HdirsD : dirs_of h' (children D) = dirs_of h r1 ++ dirs_of h r2).
  { rewrite HchD, dirs_of_app, !Hdirs by done. done. }
  assert (Hcases : ∀ x i, cells h' !! x = Some i → S_ISDIR (mode i) = true →
            (x = d ∧ i = D) ∨ (x ≠ d ∧ x ≠ n ∧ cells h !! x = Some i)).
  { intros x i. rewrite Hlook. repeat case_decide; intros Hi _; [|done|].
    - left. split; congruence.
    - right. done. }
  assert (Hsub : ∀ x i e', cells h' !! x = Some i → S_ISDIR (mode i) = true →
            e' ∈ children i →
            ∃ i0, cells h !! x = Some i0 ∧ S_ISDIR (mode i0) = true ∧ e' ∈ children i0).
  { intros x i e' Hi Hmi He'.
    destruct (Hcases x i Hi Hmi) as [[-> ->]|(Hxd & Hxn & Hxi)]; [|eauto].
    exists di. split; [done|]. split; [done|]. rewrite Hchd.
    rewrite HchD in He'. apply elem_of_app in He' as [?|?]; apply elem_of_app;
      [by left|right; by right]. }
  split.
  - rewrite Hlook. rewrite decide_False.
    + case_decide; [done|apply Hinv].
    + intros <-. by rewrite (inv_null _ _ Hinv) in Hdi.
  - intros x i. rewrite Hlook. cbn [brk h']. repeat case_decide; subst; [|done|].
    + intros _. by apply (inv_brk _ _ Hinv) in Hdi.
    + apply Hinv.
  - rewrite Hisdir, decide_False by done. apply Hinv.
  - intros x i Hi Hmi.
    destruct (Hcases x i Hi Hmi) as [[-> ->]|(Hxd & Hxn & Hxi)].
    + exists p, (r1 ++ r2). split; [done|].
      destruct (inv_shape _ _ Hinv d di Hdi Hmd) as (p' & rest & Hd' & Hp' & Hr').
      assert (p' = p) as -> by (rewrite Hdata in Hd'; congruence).
      split; [|done]. rewrite Hisdir, decide_False; [done|].
      exact (Hdotdot d di p _ Hdi Hmd Hdata).
    + destruct (inv_shape _ _ Hinv x i Hxi Hmi) as (q & rest & Hd' & Hq & Hr').
      exists q, rest. split; [done|]. split; [|done].
      rewrite Hisdir, decide_False; [done|].
      exact (Hdotdot x i q _ Hxi Hmi Hd').
  - intros x i Hi Hmi. unfold subdirs.
    destruct (Hcases x i Hi Hmi) as [[-> ->]|(Hxd & Hxn & Hxi)].
    + rewrite HdirsD, length_app. cbn [nlink D set_nlink set_data].
      pose proof (inv_nlink _ _ Hinv d di Hdi Hmd) as H. unfold subdirs in H.
      rewrite Hchd, dirs_of_app, dirs_of_cons, Hen, Hnd, length_app in H.
      cbn [length] in H. lia.
    + rewrite Hdirs by eauto. by apply (inv_nlink _ _ Hinv).
  - intros x i Hi Hmi Hxr.
    assert (Hx : ∃ i0, cells h !! x = Some i0 ∧ S_ISDIR (mode i0) = true ∧
                       x ≠ n ∧ data i !! 1%nat = data i0 !! 1%nat).
    { destruct (Hcases x i Hi Hmi) as [[-> ->]|(Hxd & Hxn & Hxi)]; [|by eauto].
      exists di. repeat split; [done..|]. by rewrite Hdata. }
    destruct Hx as (i0 & Hi0 & Hmi0 & Hxn & Hd1).
    destruct (inv_child _ _ Hinv x i0 Hi0 Hmi0 Hxr) as (q & iq & e' & Hdd & Hiq & He' & Hex).
    destruct (inv_shape _ _ Hinv x i0 Hi0 Hmi0) as (q' & rest & Hd' & _).
    assert (q' = q) as -> by (rewrite Hd' in Hdd; cbn in Hdd; congruence).
    assert (Hqn : q ≠ n) by exact (Hdotdot x i0 q _ Hi0 Hmi0 Hd').
    exists q. destruct (decide (q = d)) as [->|Hqd].
    + exists D, e'. split; [by rewrite Hd1|]. split.
      { rewrite Hlook. by rewrite decide_True. }
      split; [|done]. rewrite HchD. assert (iq = di) as -> by congruence.
      rewrite Hchd in He'.
      apply elem_of_app in He' as [?|[->|?]%elem_of_cons]; apply elem_of_app;
        [by left|congruence|by right].
    + exists iq, e'. split; [by rewrite Hd1|]. split; [|done].
      rewrite Hlook. by rewrite !decide_False.
  - intros x i e' Hi Hmi He'. cbn [brk h'].
    destruct (Hcases x i Hi Hmi) as [[-> ->]|(Hxd & Hxn & Hxi)].
    + apply (inv_below _ _ Hinv d di e' Hdi Hmd). rewrite Hdata.
      cbn [data D set_data] in He'.
      repeat (apply elem_of_cons in He' as [->|He']; [set_solver|]).
      do 2 right. apply elem_of_app in He' as [?|?]; apply elem_of_app;
        [by left|right; by right].
    + by apply (inv_below _ _ Hinv x i e').
  - intros x i Hi Hmi.
    destruct (Hcases x i Hi Hmi) as [[-> ->]|(Hxd & Hxn & Hxi)].
    + rewrite HdirsD, fmap_app. apply NoDup_app. split; [done|]. split; [|done].
      intros y Hy1 Hy2. apply (Hnd12 y Hy1). by right.
    + rewrite Hdirs by eauto. by apply (inv_nodup _ _ Hinv x).
  - intros x1 i1 x2 i2 e1 e2 Hi1 Hm1 Hi2 Hm2 Hne He1 He2 Heq.
    destruct (Hsub x1 i1 e1) as (j1 & Hj1 & Hmj1 & Hej1); [done..|].
    destruct (Hsub x2 i2 e2) as (j2 & Hj2 & Hmj2 & Hej2); [done..|].
    rewrite Hisdir. case_decide; [done|].
    by apply (inv_disjoint _ _ Hinv x1 j1 x2 j2 e1 e2).
Qed.

(** *** Release and move *)

(** Detaching a child entry that does not lead to a directory. *)
Lemma tree_inv_detach_file (root : ptr) (h : state) (d : ptr) (di : inode) (p : ptr)
    (r1 : list entry) (e : entry) (r2 : list entry) :
  tree_inv root h → cells h !! d = Some di → S_ISDIR (mode di) = true →
  data di = Entry (str ".") d :: Entry (str "..") p :: r1 ++ e :: r2 →
  is_dir h (node e) = false →
  tree_inv root
    (store h d (set_data (Entry (str ".") d :: Entry (str "..") p :: r1 ++ r2) di)).
Proof.
  intros Hinv Hdi Hmd Hdata He. apply tree_inv_set_data; try done.
  - by rewrite Hdata.
  - unfold children. rewrite Hdata. cbn [drop]. rewrite !drop_0.
    rewrite !dirs_of_app, dirs_of_cons. by rewrite He.
  - intros e' He'. apply (inv_below _ _ Hinv d di e' Hdi Hmd). rewrite Hdata.
    repeat (apply elem_of_cons in He' as [->|He']; [set_solver|]).
    do 2 right. apply elem_of_app in He' as [?|?]; apply elem_of_app;
      [by left|right; by right].
Qed.

Lemma write_run (f : state → state) (h : state) : write f h = (f h, Ok ()).
Proof. done. Qed.

Lemma removeEntry__run (h : state) (p : ptr) (nm : cstr) (i : inode) (r : ptr)
    (l : list entry) :
  load h p = Ok i → removeEntry (data i) nm = Ok (r, l) →
  removeEntry_ p nm h = (store h p (set_data l i), Ok ()).
Proof.
  intros Hi Hrm. unfold removeEntry_. rewrite bind_read, Hi. by rewrite Hrm.
Qed.

Lemma releaseNode_inv (root : ptr) (path : cstr) (h h' : state) :
  tree_inv root h → releaseNode path root h = (h', Ok ()) → tree_inv root h'.
Proof.
  intros Hinv. unfold releaseNode. rewrite bind_read.
  destruct (getParentDirectory h path root) as [[dirNode file]| |] eqn:Hgp; [|done..].
  cbv beta iota. rewrite bind_read. unfold pathfind_or_null.
  pose proof (getParentDirectory_file _ _ _ _ _ Hgp) as Hfile.
  apply getParentDirectory_Ok in Hgp as (? & ? & ? & ? & ? & Hd0 & Hdd & ?).
  pose proof Hdd as (_ & di & Hdi & Hmd)%is_dir_load.
  assert (Hldi : load h dirNode = Ok di) by (by apply load_Some).
  destruct (pathfind h file dirNode) as [nd|e|] eqn:Hpf; [|done..].
  rewrite bind_read.
  destruct (isDir h nd) as [[]| |] eqn:Hd; [| |done..].
  - (* a directory *)
    pose proof Hd as (Hn0 & ni & Hni & Hmn)%is_dir_load.
    assert (Hlni : load h nd = Ok ni) by (by apply load_Some).
    destruct (inv_shape _ _ Hinv nd ni Hni Hmn) as (pn & restn & Hdatan & _).
    rewrite bind_run, bind_read. unfold isEmpty. rewrite Hlni. rsimpl.
    destruct (2 <? length (data ni))%nat eqn:Hlen2; [done|].
    destruct (length (data ni) =? 2)%nat eqn:Hlen; [|done].
    cbn [negb]. rewrite bind_read, Hlni.
    destruct (nlink ni =? 2) eqn:Hnl; [|done]. cbn [assert]. rewrite bind_ret.
    apply Nat.eqb_eq in Hlen. apply Z.eqb_eq in Hnl.
    assert (restn = []) as ->.
    { rewrite Hdatan in Hlen. by destruct restn. }
    rewrite bind_run.
    rewrite (removeEntry__run h nd (str "..") ni pn [Entry (str ".") nd] Hlni)
      by (by rewrite Hdatan).
    rewrite bind_modify.
    destruct (decide (dirNode = nd)) as [->|Hne].
    + (* releasing a directory through its own list *)
      rewrite load_store_eq by done.
      rewrite bind_read, load_store_eq by done. cbn [data set_data set_nlink tail].
      rewrite bool_decide_eq_true_2 by done. cbn [assert]. rewrite bind_ret, write_run.
      rewrite bind_read. unfold load, free. cbn [cells].
      rewrite decide_False by done. by rewrite lookup_delete_eq.
    + rewrite load_store_ne, Hldi by done.
      rewrite bind_read, load_store_ne, load_store_eq by done.
      cbn [data set_data tail]. rewrite bool_decide_eq_true_2 by done.
      cbn [assert]. rewrite bind_ret, write_run, bind_read.
      match goal with |- context [load ?s dirNode] =>
        assert (Hl : load s dirNode = Ok (set_nlink (nlink di - 1) di)) end.
      { apply load_Some. split; [done|]. unfold free, store. cbn [cells].
        by rewrite lookup_delete_ne, lookup_insert_eq. }
      rewrite Hl. cbn [data set_nlink].
      destruct (resolved_entry root h dirNode nd file di Hinv Hldi Hmd Hfile Hpf)
        as [->|[(p & rest & Hdata & ->)|(p & r1 & e & r2 & Hdata & He & Hrm)]].
      * done.
      * (* through [..]: the parent would be empty *)
        destruct (decide (dirNode = root)) as [->|Hr].
        { destruct (inv_shape _ _ Hinv root di Hdi Hmd) as (p' & ? & Hd' & _ & Hp').
          rewrite Hdata in Hd'. injection Hd' as -> _. by specialize (Hp' eq_refl). }
        destruct (inv_child _ _ Hinv dirNode di Hdi Hmd Hr)
          as (q & iq & e' & Hdd' & Hiq & He' & _).
        rewrite Hdata in Hdd'. injection Hdd' as <-.
        assert (iq = ni) as -> by congruence.
        unfold children in He'. rewrite Hdatan in He'. by apply elem_of_nil in He'.
      * rewrite bind_read, Hrm. cbv beta iota. rewrite bind_write.
        rewrite decide_False by done. intros [= <-].
        match goal with |- tree_inv root ?s =>
          replace s with
            (State (<[dirNode := set_data (Entry (str ".") dirNode :: Entry (str "..") p
                                            :: r1 ++ r2)
                                   (set_nlink (nlink di - 1) di)]>
                      (delete nd (cells h))) (brk h) (trace h))
        end.
        { eapply tree_inv_rmdir; try done.
          unfold children. by rewrite Hdatan. }
        apply state_eq; [|done..]. unfold free, store. cbn [cells].
        apply map_eq. intros q.
        destruct (decide (q = dirNode)) as [->|Hq]; [by rewrite !lookup_insert_eq|].
        rewrite !(lookup_insert_ne _ dirNode q) by done.
        destruct (decide (q = nd)) as [->|Hq']; [by rewrite !lookup_delete_eq|].
        rewrite !lookup_delete_ne by done.
        by rewrite !lookup_insert_ne by done.
  - (* not a directory *)
    pose proof Hd as (Hn0 & ni & Hni & Hmn)%is_dir_load.
    assert (Hlni : load h nd = Ok ni) by (by apply load_Some).
    assert (Hne : dirNode ≠ nd) by (intros ->; congruence).
    assert (Hndir : is_dir h nd = false) by (unfold is_dir; by rewrite Hni).
    rewrite bind_run, bind_read, Hlni, bind_write.
    set (h1 := store h nd _).
    assert (Hinv1 : tree_inv root h1).
    { apply tree_inv_set_file; try done; try lia.
      by apply (inv_brk _ _ Hinv) in Hni. }
    assert (Hd1 : is_dir h1 nd = false).
    { unfold h1, store. rewrite is_dir_insert. by rewrite decide_True. }
    match goal with |- context [(if ?c then _ else _) h1] =>
      set (h2 := if c then free h1 nd else h1);
      assert (Hh2 : (if c then write (fun h => free h nd) else mret ()) h1 = (h2, Ok ()))
        by (unfold h2; by destruct c);
      assert (Hinv2 : tree_inv root h2)
        by (unfold h2; destruct c; [by apply tree_inv_release_file|done]);
      assert (Hcell2 : cells h2 !! dirNode = Some di)
        by (unfold h2, h1, free, store; destruct c; cbn [cells];
            rewrite ?lookup_delete_ne, lookup_insert_ne by done; done);
      assert (Hd2 : is_dir h2 nd = false)
        by (unfold h2; destruct c; [rewrite is_dir_delete; by rewrite decide_True|done])
    end.
    rewrite Hh2. clearbody h2. rewrite bind_read.
    assert (Hl2 : load h2 dirNode = Ok di) by (by apply load_Some).
    rewrite Hl2.
    destruct (resolved_entry root h dirNode nd file di Hinv Hldi Hmd Hfile Hpf)
      as [->|[(p & rest & Hdata & ->)|(p & r1 & e & r2 & Hdata & He & Hrm)]].
    + done.
    + destruct (inv_shape _ _ Hinv dirNode di Hdi Hmd) as (p' & ? & Hd' & Hp' & _).
      rewrite Hdata in Hd'. injection Hd' as -> _. congruence.
    + rewrite bind_read, Hrm. cbv beta iota. rewrite bind_write.
      rewrite decide_False by done. intros [= <-].
      apply (tree_inv_detach_file root h2 dirNode di p r1 e r2); try done.
      by rewrite He.
Qed.

Lemma is_dir_store_data (h : state) (d : ptr) (i : inode) (l : list entry) (x : ptr) :
  cells h !! d = Some i → is_dir (store h d (set_data l i)) x = is_dir h x.
Proof.
  intros Hi. unfold store. rewrite is_dir_insert. case_decide; [|done].
  subst. unfold is_dir. by rewrite Hi.
Qed.

Lemma moveNode_inv (root : ptr) (a_entry : bool) (path newpath : cstr) (h h' : state)
    (n : ptr) :
  tree_inv root h → moveNode a_entry path newpath root h = (h', Ok n) →
  is_dir h' n = false → tree_inv root h'.
Proof.
  intros Hinv. unfold moveNode. rewrite bind_read.
  destruct (getParentDirectory h path root) as [[oldDir oldFile]| |] eqn:Hold; [|done..].
  cbv beta iota. rewrite bind_read.
  destruct (getParentDirectory h newpath root) as [[newDir newFile]| |] eqn:Hnew;
    [|done..].
  cbv beta iota.
  apply getParentDirectory_Ok in Hold as (? & ? & ? & ? & ? & Ho0 & Hod & ?).
  apply getParentDirectory_Ok in Hnew as (? & ? & ? & ? & ? & Hn0 & Hnd & ?).
  pose proof Hod as (_ & oi & Hoi & Hmo)%is_dir_load.
  pose proof Hnd as (_ & ni & Hni & Hmn)%is_dir_load.
  rewrite bind_read, (proj2 (load_Some h oldDir oi)) by done.
  rewrite bind_read.
  destruct (removeEntry (data oi) oldFile) as [[nd l]| |] eqn:Hrm; [|done..].
  cbv beta iota. rewrite bind_write.
  case_decide as Hnd0; [done|].
  set (h1 := store h oldDir (set_data l oi)).
  assert (Hdir1 : ∀ x, is_dir h1 x = is_dir h x).
  { intros q. by apply is_dir_store_data. }
  rewrite bind_read.
  destruct (load h1 newDir) as [ni1| |] eqn:Hni1; [|done..].
  apply load_Some in Hni1 as [_ Hni1].
  rewrite bind_read.
  destruct (addEntry a_entry (data ni1) newFile) as [l'| |] eqn:Hadd; [|done..].
  apply addEntry_Ok in Hadd as (-> & _ & _ & ->).
  rewrite bind_write, set_last_node_snoc. intros [= <- <-] Hfile.
  rewrite is_dir_store_data, Hdir1 in Hfile by done.
  (* the detached entry *)
  destruct (inv_shape _ _ Hinv oldDir oi Hoi Hmo) as (p & rest & Hdata & Hp & _).
  unfold removeEntry in Hrm. rewrite Hdata in Hrm.
  destruct (remove_after oldFile _) as [[r lt]|] eqn:Hra; [|done].
  injection Hrm as -> <-.
  apply remove_after_Some in Hra as (l1 & e & l2 & Hsplit & _ & He & -> & _).
  destruct l1 as [|dd r1].
  { injection Hsplit as <- _. cbn in He. congruence. }
  injection Hsplit as <- ->.
  assert (Hinv1 : tree_inv root h1).
  { unfold h1. apply (tree_inv_detach_file root h oldDir oi p r1 e l2); try done.
    by rewrite He. }
  assert (Hm1 : S_ISDIR (mode ni1) = true).
  { pose proof (Hdir1 newDir) as Hdn. unfold is_dir in Hdn.
    rewrite Hni1, Hni in Hdn. congruence. }
  destruct (inv_shape _ _ Hinv1 newDir ni1 Hni1 Hm1) as (p1 & rest1 & Hdata1 & _).
  apply tree_inv_set_data; try done.
  - by rewrite Hdata1.
  - unfold children. rewrite Hdata1. cbn [app drop]. rewrite !drop_0.
    rewrite dirs_of_app, dirs_of_cons. simpl. rewrite Hdir1, Hfile.
    by rewrite app_nil_r.
  - intros e' [He'| ->%list_elem_of_singleton]%elem_of_app.
    + by apply (inv_below _ _ Hinv1 newDir ni1 e').
    + simpl. rewrite <- He. apply (inv_below _ _ Hinv oldDir oi e Hoi Hmo).
      rewrite Hdata. do 2 right. apply elem_of_app. right. by left.
Qed.

(** *** The tree of every reachable memory *)

Lemma tree_inv_new : tree_inv (snd newFilesystem) (fst newFilesystem).
Proof.
  cbn [newFilesystem calloc_inode fst snd brk store cells trace].
  unfold store. cbn [cells brk trace]. rewrite insert_insert_eq.
  set (r := Inode _ _ _ _ _ _).
  assert (Hlook : ∀ x i, (<[1%nat := r]> (∅ : gmap nat inode)) !! x = Some i →
                         x = 1%nat ∧ i = r).
  { intros x i [[<- <-]|[_ Hx]]%lookup_insert_Some; [done|].
    by rewrite lookup_empty in Hx. }
  assert (Hroot : is_dir (State (<[1%nat := r]> ∅) 2 []) 1%nat = true) by done.
  split; cbn [cells brk].
  - done.
  - intros p i [-> _]%Hlook. lia.
  - done.
  - intros d i [-> ->]%Hlook _. by exists 1%nat, [].
  - by intros d i [-> ->]%Hlook _.
  - by intros d i [-> ->]%Hlook _.
  - intros d i e [-> ->]%Hlook _ He. cbn in He.
    repeat (apply elem_of_cons in He as [->|He]; [cbn; lia|]).
    by apply elem_of_nil in He.
  - intros d i [-> ->]%Hlook _. cbn. constructor.
  - intros d1 i1 d2 i2 e1 e2 [-> ->]%Hlook _ [-> ->]%Hlook _. done.
Qed.

Lemma step_inv (root : ptr) (h h' : state) :
  tree_inv root h → step root h h' → tree_inv root h'.
Proof.
  intros Hinv [].
  - by eapply ramMknod_inv.
  - by eapply ramMkdir_inv.
  - by eapply ramLink_inv.
  - by eapply releaseNode_inv.
  - by eapply moveNode_inv.
Qed.

Lemma reachable_inv (root : ptr) (h : state) : reachable root h → tree_inv root h.
Proof.
  induction 1 as [->|h h' _ IH Hstep]; [apply tree_inv_new|by eapply step_inv].
Qed.

(** The callbacks that remove names are release steps, and a rename is an
    optional release followed by a move. *)
Lemma ramUnlink_step (root : ptr) (path : cstr) (h h' : state) :
  ramUnlink root path h = (h', Ok ()) → step root h h'.
Proof.
  unfold ramUnlink. rewrite bind_read.
  destruct (nonnull _) as [nd| |]; [|done..]. rewrite bind_read.
  destruct (isDir h nd) as [[]| |]; [done| |done..]. rewrite bind_read.
  destruct (load h nd) as [ni| |]; [|done..].
  destruct (negb _); [done|]. apply step_release.
Qed.

Lemma ramRmdir_step (root : ptr) (path : cstr) (h h' : state) :
  ramRmdir root path h = (h', Ok ()) → step root h h'.
Proof.
  unfold ramRmdir. case_bool_decide; [done|]. rewrite bind_read.
  destruct (nonnull _) as [nd| |]; [|done..]. rewrite bind_read.
  destruct (isDir h nd) as [[]| |]; [|done..]. apply step_release.
Qed.

Lemma ramRename_steps (root : ptr) (a_entry : bool) (path newpath : cstr) (h h' : state) :
  ramRename a_entry root path newpath h = (h', Ok ()) →
  ∃ h1 n, (h1 = h ∨ releaseNode newpath root h = (h1, Ok ())) ∧
          moveNode a_entry path newpath root h1 = (h', Ok n).
Proof.
  unfold ramRename. rewrite bind_read.
  destruct (nonnull _) as [nd| |]; [|done..].
  destruct (negb _); [done|]. rewrite bind_read.
  destruct (pathfind_or_null h newpath root) as [dst| |]; [|done..].
  rewrite bind_run. case_decide.
  - unfold mret at 1, M_ret at 1. cbv beta iota. rewrite bind_run.
    destruct (moveNode a_entry path newpath root h) as [h2 [n| |]] eqn:Hmv; [|done..].
    intros [= <-]. exists h, n. auto.
  - rewrite bind_read.
    destruct (isDir h dst) as [[]| |]; [done| |done..].
    destruct (releaseNode newpath root h) as [h1 [[]| |]] eqn:Hrel; [|done..].
    rewrite bind_run.
    destruct (moveNode a_entry path newpath root h1) as [h2 [n| |]] eqn:Hmv; [|done..].
    intros [= <-]. exists h1, n. auto.
Qed.

(** C9, as the source has it.  In every memory reached from a fresh
    filesystem by creations of files and directories, hard links, releases
    and moves of inodes that are not directories, the link count of a
    directory is 2 plus the number of its child subdirectories, and one more
    for the root, whose [..] is itself. *)
Theorem link_count_invariant (root : ptr) (h : state) (d : ptr) (i : inode) :
  reachable root h → cells h !! d = Some i → S_ISDIR (mode i) = true →
  nlink i = 2 + Z.of_nat (subdirs h i) + (if decide (d = root) then 1 else 0).
Proof. intros Hr%reachable_inv. by apply (inv_nlink _ _ Hr). Qed.

Lemma link_count_invariant_witness :
  let root := snd newFilesystem in
  let h1 := fst (ramMkdir true true true true root (str "/a") 493 (fst newFilesystem)) in
  let h2 := fst (ramMknod true true root (str "/a/f") 420 h1) in
  let i := Inode 16895 4 0 [Entry (str ".") 1%nat; Entry (str "..") 1%nat;
                            Entry (str "a") 2%nat] 1%nat false in
  nlink i = 2 + Z.of_nat (subdirs h2 i) + (if decide (1%nat = root) then 1 else 0).
Proof.
  intros root h1 h2 i.
  apply (link_count_invariant root h2 1%nat i); [|reflexivity..].
  apply (reach_step root h1 h2).
  - apply (reach_step root (fst newFilesystem) h1).
    + by apply reach_new.
    + by apply (step_mkdir root _ _ true true true true (str "/a") 493).
  - by apply (step_mknod root _ _ true true (str "/a/f") 420).
Defined.

(** C9 as stated fails on the root, whose link count is 3 on a fresh
    filesystem that has no subdirectory, and after a directory is moved:
    [/a/x] moved to [/b/y] leaves [/a] with link count 3 and no
    subdirectory, and [/b] with link count 2 and one subdirectory. *)
Lemma link_count_root_and_moved_directory :
  let '(h0, root) := newFilesystem in
  let mkdir p := ramMkdir true true true true root (str p) 493 in
  let h := fst (run [mkdir "/a"; mkdir "/a/x"; mkdir "/b";
                     ramRename true root (str "/a/x") (str "/b/y")] h0) in
  (∃ i, cells h0 !! root = Some i ∧ S_ISDIR (mode i) = true ∧
        nlink i = 3 ∧ subdirs h0 i = 0%nat) ∧
  (∃ i, cells h !! 2%nat = Some i ∧ S_ISDIR (mode i) = true ∧
        nlink i = 3 ∧ subdirs h i = 0%nat) ∧
  (∃ i, cells h !! 4%nat = Some i ∧ S_ISDIR (mode i) = true ∧
        nlink i = 2 ∧ subdirs h i = 1%nat).
Proof.
  cbv zeta. destruct newFilesystem as [h0 root] eqn:Hnew. injection Hnew as <- <-.
  repeat split; eexists; (split; [by vm_compute|]); by vm_compute.
Qed.

(** ** The scenarios of the specification, evaluated on the model *)

Section Scenarios.
Let root : nat := snd newFilesystem.
Let h0 : state := fst newFilesystem.
Let mkdir (p : string) : M unit := ramMkdir true true true true root (str p) 493.
Let mknod (p : string) : M unit := ramMknod true true root (str p) 420.
Let names (h : state) (p : nat) : list cstr :=
  match cells h !! p with Some i => name <$> data i | None => [] end.
Let links (h : state) (p : nat) : option Z := nlink <$> cells h !! p.

Example scenario_mkdir :
  let h := fst (run [mkdir "/a"] h0) in
  names h root = [str "."; str ".."; str "a"] ∧ links h root = Some 4.
Proof. by vm_compute. Qed.

Example scenario_not_empty :
  let h := fst (run [mkdir "/a"; mknod "/a/b"] h0) in
  snd (releaseNode (str "/a") root h) = Error ENOTEMPTY ∧
  let st := run [releaseNode (str "/a/b") root; releaseNode (str "/a") root] h in
  snd st = Ok () ∧ links (fst st) root = Some 3 ∧
  names (fst st) root = [str "."; str ".."].
Proof. by vm_compute. Qed.

Example scenario_hard_link :
  let h := fst (run [mknod "/f"; ramLink true root (str "/f") (str "/g")] h0) in
  links h 2%nat = Some 2 ∧
  let h1 := fst (releaseNode (str "/f") root h) in
  links h1 2%nat = Some 1 ∧ pathfind h1 (str "/g") root = Ok 2%nat ∧
  let h2 := fst (releaseNode (str "/g") root h1) in
  cells h2 !! 2%nat = None ∧ names h2 root = [str "."; str ".."].
Proof. by vm_compute. Qed.

Example scenario_move :
  let h := fst (run [mkdir "/a"; mkdir "/b"; mknod "/a/x"] h0) in
  let st := moveNode true (str "/a/x") (str "/b/y") root h in
  snd st = Ok 4%nat ∧
  names (fst st) 2%nat = [str "."; str ".."] ∧
  names (fst st) 3%nat = [str "."; str ".."; str "y"] ∧
  links (fst st) 4%nat = links h 4%nat.
Proof. by vm_compute. Qed.

Example scenario_teardown :
  let h := fst (run [mkdir "/d"; mkdir "/d/1"; mkdir "/d/1/2"; mkdir "/d/1/2/3";
                     mkdir "/d/1/2/3/4"; mkdir "/d/1/2/3/4/5";
                     mknod "/f"; ramLink true root (str "/f") (str "/d/g")] h0) in
  let st := ramDestroy 10 root h in
  snd st = Ok () ∧ cells (fst st) = ∅.
Proof. by vm_compute. Qed.
End Scenarios.

(** * Further properties of the code *)

(** ** Resolution of a path in two parts *)

Section Compose.
Variable h : state.
Local Open Scope nat_scope.

Lemma component_length_follows (q r : cstr) :
  follows r → component_length (q ++ r) = component_length q.
Proof.
  intros Hr. induction q as [|a q IH]; cbn [app component_length].
  - destruct Hr as [->|Hr]; [done|]. destruct r as [|b r]; [done|].
    injection Hr as ->. cbn. by rewrite decide_True.
  - case_decide; [done|]. by rewrite IH.
Qed.

Lemma find_entry_take (q r : cstr) (n : nat) (l : list entry) :
  n ≤ length q → find_entry (q ++ r) n l = find_entry q n l.
Proof.
  intros Hn. induction l as [|e l IH]; [done|]. cbn [find_entry]. rewrite IH.
  unfold name_matches. by rewrite take_app_le.
Qed.

Lemma skip_split_app (p r : cstr) :
  p ≠ [] → skip_split (p ++ r) = skip_split p ++ r.
Proof. destruct p as [|a p]; [done|]. intros _. simpl. by case_decide. Qed.

Lemma pathfind_app_gen (p r : cstr) (start : nat) :
  last p ≠ Some Split → follows r →
  pathfind h (p ++ r) start = pathfind h p start ≫= pathfind h r.
Proof.
  revert start. induction p as [p IH] using (induction_ltof1 _ (@length ascii)).
  unfold ltof in IH. intros start Hlast Hr.
  destruct (decide (p = [])) as [->|Hne]; [done|].
  rewrite (pathfind_unfold h p), (pathfind_unfold h (p ++ r)).
  unfold pathfind_step. rewrite skip_split_app by done.
  destruct (skip_split p) as [|a q] eqn:Hq.
  { destruct p as [|b p]; [done|]. simpl in Hq. case_decide; [|done].
    subst. by destruct Hlast. }
  cbn [app]. change (a :: q ++ r) with ((a :: q) ++ r).
  destruct (isDir h start) as [[]| |]; rsimpl; try done.
  destruct (load h start) as [i| |]; rsimpl; try done.
  rewrite component_length_follows by done.
  rewrite find_entry_take by apply component_length_le.
  destruct (find_entry _ _ _) as [e|]; [|done].
  rewrite drop_app_le by apply component_length_le.
  apply IH; [| |done].
  - rewrite <- Hq. apply component_length_skip. by rewrite Hq.
  - intros Hl. apply Hlast. apply last_skip_split. rewrite Hq.
    by apply last_drop_Some in Hl.
Qed.
End Compose.

(** X1.  Resolution composes: when [p] does not end in a separator and [r]
    is empty or starts with one, resolving [p ++ r] from [start] is resolving
    [p] from [start] and then [r] from the inode found, errors and faults
    included. *)
Theorem pathfind_app (h : state) (p r : cstr) (start : ptr) :
  last p ≠ Some Split → follows r →
  pathfind h (p ++ r) start = pathfind h p start ≫= pathfind h r.
Proof. apply pathfind_app_gen. Qed.

Lemma pathfind_app_witness :
  let root := snd newFilesystem in
  let h := fst (run [ramMkdir true true true true root (str "/a") 493;
                     ramMknod true true root (str "/a/f") 420] (fst newFilesystem)) in
  pathfind h (str "/a" ++ str "/f") root = pathfind h (str "/a") root ≫= pathfind h (str "/f").
Proof.
  intros root h. apply (pathfind_app h (str "/a") (str "/f") root).
  - discriminate.
  - by right.
Defined.

(** ** Splitting a path at its last separator *)

Lemma last_split_absent (f : cstr) : Split ∉ f → last_split f = None.
Proof.
  induction f as [|a f IH]; [done|]. intros [Ha Hf]%not_elem_of_cons.
  cbn [last_split]. rewrite IH by done. by rewrite decide_False.
Qed.

Lemma last_split_app (p f : cstr) :
  Split ∉ f → last_split (p ++ Split :: f) = Some (length p).
Proof.
  intros Hf. induction p as [|a p IH]; cbn [app last_split length].
  - rewrite last_split_absent by done. by rewrite decide_True.
  - by rewrite IH.
Qed.

Lemma extractPrefix_app (p f : cstr) :
  Split ∉ f → (length (p ++ Split :: f) < PATH_MAX)%nat →
  extractPrefix (p ++ Split :: f) = Ok (length p, p).
Proof.
  intros Hf Hlen. unfold extractPrefix.
  destruct (Nat.leb_spec PATH_MAX (length (p ++ Split :: f))) as [Hle|_]; [lia|].
  rewrite last_split_app by done. rewrite take_app_length.
  by rewrite Z.sub_diag.
Qed.

Lemma getParentDirectory_app (h : state) (root : ptr) (p f : cstr) :
  head (p ++ Split :: f) = Some Split → Split ∉ f →
  (length (p ++ Split :: f) < PATH_MAX)%nat →
  getParentDirectory h (p ++ Split :: f) root
  = d ← nonnull (pathfind h p root);
    b ← isDir h d;
    if negb b then Error ENOTDIR else Ok (d, f).
Proof.
  intros Hhd Hf Hlen. unfold getParentDirectory.
  assert (checkPath (p ++ Split :: f) = Ok ()) as ->.
  { unfold checkPath. destruct (p ++ Split :: f) as [|c l]; [done|].
    injection Hhd as ->. by rewrite decide_True. }
  rewrite extractPrefix_app by done. rsimpl.
  destruct (nonnull _) as [d| |]; rsimpl; [|done..].
  destruct (isDir h d) as [[]| |]; rsimpl; [|done..].
  rewrite (cons_middle Split p f), app_assoc.
  rewrite drop_app_length'; [done|]. rewrite length_app. cbn. lia.
Qed.

(** X2.  [getParentDirectory] splits an absolute path at its last separator:
    for [p ++ "/" ++ f] with no separator in [f] (and room in [dirPath]) it
    resolves [p] from the root, fails with the error of that lookup or with
    not-a-directory when the inode found is no directory, and otherwise
    returns that directory with [f] as the file name. *)
Theorem getParentDirectory_split (h : state) (root : ptr) (p f : cstr) :
  head (p ++ Split :: f) = Some Split → Split ∉ f →
  (length (p ++ Split :: f) < PATH_MAX)%nat →
  getParentDirectory h (p ++ Split :: f) root
  = d ← nonnull (pathfind h p root);
    b ← isDir h d;
    if negb b then Error ENOTDIR else Ok (d, f).
Proof. apply getParentDirectory_app. Qed.

Lemma getParentDirectory_split_witness :
  let root := snd newFilesystem in
  let h := fst (ramMkdir true true true true root (str "/a") 493 (fst newFilesystem)) in
  getParentDirectory h (str "/a" ++ Split :: str "f") root = Ok (2%nat, str "f").
Proof.
  intros root h.
  rewrite (getParentDirectory_split h root (str "/a") (str "f")).
  - reflexivity.
  - reflexivity.
  - cbv [str list_ascii_of_string]. rewrite !not_elem_of_cons.
    repeat split; (discriminate || apply not_elem_of_nil).
  - cbn. unfold PATH_MAX. lia.
Defined.

Lemma getParentDirectory_relative (h : state) (root : ptr) (path : cstr) :
  head path ≠ Some Split →
  getParentDirectory h path root
  = Error (if decide (path = []) then ENOENT else EINVAL).
Proof.
  intros Hhd. unfold getParentDirectory, checkPath.
  destruct path as [|c l]; [done|]. rewrite decide_False by (by intros ->).
  by rewrite (decide_False (P := c :: l = [])).
Qed.

(** X3.  A path that does not start with the separator is refused before
    anything is looked up or changed: [addNode], [releaseNode] and [moveNode]
    return with [ENOENT] for the empty path and [EINVAL] otherwise, and leave
    the memory as it was. *)
Theorem relative_path_refused (h : state) (a : bool) (path newpath : cstr)
    (root nd : ptr) :
  head path ≠ Some Split →
  let e := if decide (path = []) then ENOENT else EINVAL in
  addNode a path root nd h = (h, Error e) ∧
  releaseNode path root h = (h, Error e) ∧
  moveNode a path newpath root h = (h, Error e).
Proof.
  intros Hhd e. unfold addNode, releaseNode, moveNode.
  rewrite !bind_read, getParentDirectory_relative by done. done.
Qed.

Lemma relative_path_refused_witness :
  let '(h, root) := newFilesystem in
  addNode true (str "f") root 1%nat h = (h, Error EINVAL) ∧
  releaseNode (str "f") root h = (h, Error EINVAL) ∧
  moveNode true (str "f") (str "/g") root h = (h, Error EINVAL).
Proof.
  destruct newFilesystem as [h root].
  apply (relative_path_refused h true (str "f") (str "/g") root 1%nat). discriminate.
Defined.

(** ** Which renames are accepted *)

Lemma take_length_prefix (p q : cstr) :
  take (length p) p = take (length p) q ↔ p `prefix_of` q.
Proof.
  rewrite firstn_all. split.
  - intros Hp. exists (drop (length p) q). rewrite Hp at 1. by rewrite take_drop.
  - intros [k ->]. by rewrite take_app_length.
Qed.

Lemma prefix_split (p q : cstr) :
  (p ++ [Split]) `prefix_of` q
  ↔ p `prefix_of` q ∧ (length p < length q)%nat ∧ q !! length p = Some Split.
Proof.
  split.
  - intros [k ->]. rewrite <- app_assoc. split; [by eexists|].
    rewrite !length_app. cbn. split; [lia|].
    by rewrite lookup_app_r, Nat.sub_diag by lia.
  - intros ([k ->] & Hlen & Hk). rewrite lookup_app_r, Nat.sub_diag in Hk by lia.
    destruct k as [|c k]; [done|]. injection Hk as ->.
    exists k. by rewrite <- app_assoc.
Qed.

Lemma isValidRename_true (p q : cstr) :
  isValidRename p q = true
  ↔ ("."%char ∉ p) ∧ ("."%char ∉ q) ∧ ¬ (p ++ [Split]) `prefix_of` q.
Proof.
  unfold isValidRename, has_dot. rewrite prefix_split, <- take_length_prefix.
  destruct (bool_decide (take _ p = take _ q)) eqn:H1;
    [apply bool_decide_eq_true in H1|apply bool_decide_eq_false in H1];
  (destruct (Nat.ltb_spec (length p) (length q)) as [H2|H2]);
  (destruct (bool_decide (q !! length p = Some Split)) eqn:H3;
    [apply bool_decide_eq_true in H3|apply bool_decide_eq_false in H3]);
  cbn [andb];
  try (split; [done|]; intros (_ & _ & []); done);
  (destruct (bool_decide ("."%char ∈ q)) eqn:H4;
    [apply bool_decide_eq_true in H4|apply bool_decide_eq_false in H4]);
  (destruct (bool_decide ("."%char ∈ p)) eqn:H5;
    [apply bool_decide_eq_true in H5|apply bool_decide_eq_false in H5]);
  cbn [orb];
  try (split; [done|]; intros (? & ? & _); done);
  (split; [intros _|done]); repeat split; try done; intros (? & ? & ?); try done; lia.
Qed.

(** X4.  [isValidRename] accepts a pair of paths exactly when neither of them
    holds a dot anywhere, and the new path is not the old one followed by a
    separator and more (a place below the old path). *)
Theorem isValidRename_spec (path newpath : cstr) :
  isValidRename path newpath = true
  ↔ ("."%char ∉ path) ∧ ("."%char ∉ newpath) ∧ ¬ (path ++ [Split]) `prefix_of` newpath.
Proof. apply isValidRename_true. Qed.

(** X5.  [ramRename] refuses such a pair with [EINVAL] and changes nothing:
    a name that holds a dot (an extension, say) cannot be renamed, nor be the
    target of a rename, and nothing is moved below itself. *)
Theorem ramRename_invalid (h : state) (a : bool) (root nd : ptr) (path newpath : cstr) :
  pathfind h path root = Ok nd → nd ≠ NULL →
  ("."%char ∈ path) ∨ ("."%char ∈ newpath) ∨ (path ++ [Split]) `prefix_of` newpath →
  ramRename a root path newpath h = (h, Error EINVAL).
Proof.
  intros Hp Hnd Hbad. unfold ramRename. rewrite bind_read, Hp.
  unfold nonnull. rsimpl. rewrite decide_False by done.
  destruct (isValidRename path newpath) eqn:Hv; [|done].
  apply isValidRename_true in Hv as (H1 & H2 & H3). by destruct Hbad as [?|[?|?]].
Qed.

Lemma ramRename_invalid_witness :
  let root := snd newFilesystem in
  let h := fst (ramMknod true true root (str "/notes.txt") 420 (fst newFilesystem)) in
  ramRename true root (str "/notes.txt") (str "/n") h = (h, Error EINVAL).
Proof.
  intros root h.
  apply (ramRename_invalid h true root 2%nat (str "/notes.txt") (str "/n")).
  - reflexivity.
  - discriminate.
  - left. cbv [str list_ascii_of_string]. rewrite !elem_of_cons. tauto.
Defined.

(** ** Lookups that survive a change of the memory *)

Lemma find_entry_lookup (q : cstr) (l : list entry) :
  find_entry q (component_length q) l = lookup_name (take (component_length q) q) l.
Proof.
  rewrite <- (take_drop (component_length q) q) at 1.
  rewrite <- (find_entry_app (take (component_length q) q) (drop (component_length q) q)).
  by rewrite length_take_le by apply component_length_le.
Qed.

(** A lookup that succeeds ends where it started, or started in a directory. *)
Lemma pathfind_Ok_start (h : state) (q : cstr) (s r : ptr) :
  pathfind h q s = Ok r → r = s ∨ is_dir h s = true.
Proof.
  rewrite pathfind_unfold. unfold pathfind_step.
  destruct (skip_split q) as [|a q']; [intros [= <-]; by left|].
  destruct (isDir h s) as [[]| |] eqn:Hd; rsimpl; [|done..].
  intros _. right. by apply isDir_is_dir.
Qed.

Section Keep.
Variables (h h' : state) (K : nat → Prop).
Hypothesis Hdirs : ∀ p, is_dir h p = true → K p.
Hypothesis Hsame : ∀ p i, cells h !! p = Some i → S_ISDIR (mode i) = true →
  ∃ i', cells h' !! p = Some i' ∧ S_ISDIR (mode i') = true ∧
        ∀ c e, lookup_name c (data i) = Some e → K (node e) →
               lookup_name c (data i') = Some e.

(** If every directory keeps the entries that lead into [K], and [K] holds
    all directories, a lookup that ended in [K] still ends there. *)
Lemma pathfind_keep (q : cstr) (s r : ptr) :
  pathfind h q s = Ok r → K r → pathfind h' q s = Ok r.
Proof.
  revert s. induction q as [q IH] using (induction_ltof1 _ (@length ascii)).
  unfold ltof in IH. intros s.
  rewrite (pathfind_unfold h q), (pathfind_unfold h' q). unfold pathfind_step.
  destruct (skip_split q) as [|a q'] eqn:Hq; [done|].
  destruct (isDir h s) as [[]| |] eqn:Hd; rsimpl; [|done..].
  apply is_dir_load in Hd as (Hs & i & Hi & Hm).
  rewrite (proj2 (load_Some h s i)) by done. rsimpl.
  destruct (Hsame s i Hi Hm) as (i' & Hi' & Hm' & Hlook).
  unfold isDir. rewrite (proj2 (load_Some h' s i')) by done. rsimpl.
  rewrite Hm'. rsimpl. rewrite !find_entry_lookup.
  destruct (lookup_name _ (data i)) as [e|] eqn:He; [|done].
  intros Hrest Hr.
  assert (Hk : K (node e)).
  { destruct (pathfind_Ok_start _ _ _ _ Hrest) as [<-|?]; auto. }
  rewrite (Hlook _ e He Hk). apply IH; [|done..].
  rewrite <- Hq. apply component_length_skip. by rewrite Hq.
Qed.
End Keep.


(** An absolute path in two parts: the directory part and the file name. *)
Lemma pathfind_split (h : state) (p f : cstr) (root : ptr) :
  last p ≠ Some Split → Split ∉ f →
  pathfind h (p ++ Split :: f) root = pathfind h p root ≫= pathfind h f.
Proof.
  intros Hp Hf. rewrite pathfind_app_gen; [|done|by right].
  destruct (pathfind h p root) as [d| |]; rsimpl; [|done..].
  apply pathfind_skip. destruct f as [|c f]; [done|]. cbn. intros [= ->].
  apply Hf. left.
Qed.



(** ** Creating a file *)












(** ** Removing a name *)


Lemma isDir_load (h : state) (p : ptr) (i : inode) :
  load h p = Ok i → isDir h p = Ok (S_ISDIR (mode i)).
Proof. intros Hi. unfold isDir. by rewrite Hi. Qed.








(** ** Creating a directory *)













(** ** Removing a directory *)






(** ** A second name for a file *)




(** ** What a removal did *)










(** ** Failing operations *)




Lemma pathfind_name_Ok (h : state) (f : cstr) (d n : ptr) :
  f ≠ [] → Split ∉ f → pathfind h f d = Ok n →
  d ≠ NULL ∧ isDir h d = Ok true ∧
  ∃ di e, load h d = Ok di ∧ lookup_name f (data di) = Some e ∧ node e = n.
Proof.
  intros Hne Hf. rewrite <- (app_nil_r f) at 1.
  rewrite pathfind_component; [|done|by left].
  destruct (load h d) as [di| |] eqn:Hdi; rsimpl; [|done..].
  destruct (S_ISDIR (mode di)) eqn:Hm; [|done].
  destruct (lookup_name f (data di)) as [e|] eqn:He; [|done]. intros [= <-].
  pose proof Hdi as [Hd0 _]%load_Some. split; [done|].
  split; [by rewrite (isDir_load h d di), Hm|]. by exists di, e.
Qed.

(** X14.  [ramRmdir] refuses a directory that holds more than [.] and [..]:
    for an absolute path [p/f] other than ["/"] that resolves to a directory
    with more than two entries, it fails with [ENOTEMPTY] and changes
    nothing. *)
Theorem ramRmdir_not_empty (h : state) (root n : ptr) (p f : cstr) (ni : inode) :
  last p ≠ Some Split → Split ∉ f →
  head (p ++ Split :: f) = Some Split → p ++ Split :: f ≠ str "/" →
  (length (p ++ Split :: f) < PATH_MAX)%nat →
  pathfind h (p ++ Split :: f) root = Ok n →
  load h n = Ok ni → S_ISDIR (mode ni) = true → (2 < length (data ni))%nat →
  ramRmdir root (p ++ Split :: f) h = (h, Error ENOTEMPTY).
Proof.
  intros Hp Hf Hhd Hpath Hlen Hpf Hni Hmn Hlong.
  pose proof Hni as [Hn0 _]%load_Some.
  unfold ramRmdir. rewrite bool_decide_eq_false_2 by done.
  rewrite bind_read, Hpf. unfold nonnull. rsimpl. rewrite decide_False by done.
  rewrite bind_read, (isDir_load h n ni), Hmn by done. cbn [negb].
  rewrite pathfind_split in Hpf by done.
  destruct (pathfind h p root) as [d| |] eqn:Hpd; rsimpl in Hpf; [|done..].
  assert (Hd : d ≠ NULL ∧ isDir h d = Ok true).
  { destruct (decide (f = [])) as [->|Hne].
    - injection Hpf as ->. split; [done|]. by rewrite (isDir_load h n ni), Hmn.
    - by destruct (pathfind_name_Ok h f d n Hne Hf Hpf) as (? & ? & _). }
  destruct Hd as [Hd0 Hdd].
  unfold releaseNode. rewrite bind_read, getParentDirectory_app, Hpd by done.
  unfold nonnull. rsimpl. rewrite decide_False by done. rsimpl. rewrite Hdd. rsimpl.
  rewrite bind_read. unfold pathfind_or_null. rewrite Hpf.
  rewrite bind_read, (isDir_load h n ni), Hmn by done.
  rewrite bind_run, bind_read. unfold isEmpty. rewrite Hni. rsimpl.
  by rewrite (proj2 (Nat.ltb_lt _ _) Hlong).
Qed.

Lemma ramRmdir_not_empty_witness :
  let root := snd newFilesystem in
  let h := fst (run [ramMkdir true true true true root (str "/a") 493;
                     ramMknod true true root (str "/a/f") 420] (fst newFilesystem)) in
  ramRmdir root (str "/a") h = (h, Error ENOTEMPTY).
Proof.
  intros root h.
  apply (ramRmdir_not_empty h root 2%nat [] (str "a")
           (Inode 16877 2 0 [Entry (str ".") 2%nat; Entry (str "..") 1%nat;
                             Entry (str "f") 3%nat] 1%nat false)).
  - discriminate.
  - cbv [str list_ascii_of_string]. rewrite !not_elem_of_cons.
    repeat split; (discriminate || apply not_elem_of_nil).
  - reflexivity.
  - discriminate.
  - cbn. unfold PATH_MAX. lia.
  - reflexivity.
  - reflexivity.
  - reflexivity.
  - cbn. lia.
Defined.

(** ** Renaming a file *)








(** ** The teardown ends *)

(** X16.  [ramDestroy] comes to an end on every memory, whatever its shape:
    with the bound [enough_fuel] the recursion of [releaseAll] does not run
    out of fuel, and a larger bound gives the same memory and the same
    result (a normal return or a fault). *)
Theorem ramDestroy_terminates (h : state) (root : ptr) (fuel : nat) :
  (enough_fuel h ≤ fuel)%nat →
  snd (ramDestroy fuel root h) ≠ Crash OutOfFuel ∧
  ramDestroy fuel root h = ramDestroy (enough_fuel h) root h.
Proof.
  intros Hfuel. unfold ramDestroy.
  pose proof (releaseAll_terminates h root (enough_fuel h) (Nat.le_refl _)) as Hend.
  destruct (releaseAll (enough_fuel h) root h) as [h' r] eqn:Hrun. cbn in Hend.
  rewrite (releaseAll_enough_fuel _ fuel root h h' r Hrun Hend Hfuel). done.
Qed.

Lemma ramDestroy_terminates_witness :
  let '(h, root) := newFilesystem in
  snd (ramDestroy 10 root h) ≠ Crash OutOfFuel ∧
  ramDestroy 10 root h = ramDestroy (enough_fuel h) root h.
Proof.
  destruct newFilesystem as [h root] eqn:Hnew. injection Hnew as <- <-.
  apply (ramDestroy_terminates _ 1%nat 10). vm_compute. lia.
Defined.

(** ** Open handles *)

Lemma to_uint_small (z : Z) : 0 ≤ z < 2 ^ 32 → to_uint z = z.
Proof. intros Hz. unfold to_uint. by apply Z.mod_small. Qed.

Lemma store_same (h : state) (p : ptr) (i j : inode) :
  cells h !! p = Some i → store (store h p j) p i = h.
Proof.
  intros Hi. apply state_eq; [|done..]. unfold store. cbn [cells].
  rewrite insert_insert_eq. by apply insert_id.
Qed.

Lemma set_nopen_same (i : inode) (k : Z) : set_nopen (nopen i) (set_nopen k i) = i.
Proof. by destruct i. Qed.

(** Writing an inode that is no directory, over one that was none, changes
    no lookup that succeeded. *)
Lemma pathfind_store_file (h : state) (n : ptr) (i : inode) (q : cstr) (s r : ptr) :
  is_dir h n = false → pathfind h q s = Ok r → pathfind (store h n i) q s = Ok r.
Proof.
  intros Hn Hq. apply (pathfind_keep h _ (λ _, True)); [done| |done..].
  intros p j Hj Hm. unfold store. cbn [cells].
  assert (p ≠ n) by (intros ->; unfold is_dir in Hn; rewrite Hj in Hn; congruence).
  rewrite lookup_insert_ne by done. by exists j.
Qed.

Lemma ramOpen_run (h : state) (root n : ptr) (path : cstr) (ni : inode) :
  pathfind h path root = Ok n → load h n = Ok ni → S_ISDIR (mode ni) = false →
  ramOpen root path h = (store h n (set_nopen (to_uint (nopen ni + 1)) ni), Ok n).
Proof.
  intros Hpf Hni Hmn. pose proof Hni as [Hn0 _]%load_Some.
  unfold ramOpen. rewrite bind_read, Hpf. unfold nonnull. rsimpl.
  rewrite decide_False by done.
  rewrite bind_read, (isDir_load h n ni), Hmn by done.
  by rewrite bind_modify, Hni.
Qed.

(** X17.  Open and release cancel.  For a path that resolves to an inode
    that is no directory, with fewer than [UINT_MAX] open handles, [ramOpen]
    returns the inode as the handle and counts one handle more; [ramRelease]
    of that handle then gives back the memory as it was before the open,
    provided the inode has a link or another handle left.  A release of an
    inode that has no open handle answers [EBADF] and changes nothing. *)
Theorem ramOpen_ramRelease (h : state) (root n : ptr) (path : cstr) (ni : inode) :
  pathfind h path root = Ok n → load h n = Ok ni → S_ISDIR (mode ni) = false →
  0 ≤ nopen ni < 2 ^ 32 - 1 →
  ∃ h1,
    ramOpen root path h = (h1, Ok n) ∧
    load h1 n = Ok (set_nopen (nopen ni + 1) ni) ∧
    (nopen ni ≠ 0 ∨ nlink ni ≠ 0 → ramRelease root path n h1 = (h, Ok (Served ()))) ∧
    (nopen ni = 0 → ramRelease root path n h = (h, Ok EBADF)).
Proof.
  intros Hpf Hni Hmn Hrange. pose proof Hni as [Hn0 Hni']%load_Some.
  rewrite (ramOpen_run h root n path ni) by done.
  rewrite to_uint_small by lia. eexists. split; [done|].
  split; [by rewrite load_store_eq|]. split.
  - intros Hleft. unfold ramRelease. rewrite bind_read, load_store_eq by done.
    cbn [nopen nlink set_nopen].
    destruct (Z.eqb_spec (nopen ni + 1) 0) as [?|_]; [lia|].
    replace (nopen ni + 1 - 1) with (nopen ni) by lia.
    rewrite to_uint_small by lia. rewrite bind_write.
    rewrite set_nopen_same, store_same by done.
    destruct (Z.eqb_spec (nopen ni) 0) as [H0|_]; [|done].
    destruct (Z.eqb_spec (nlink ni) 0) as [H1|_]; [|done].
    by destruct Hleft.
  - intros H0. unfold ramRelease. by rewrite bind_read, Hni, H0.
Qed.

Lemma ramOpen_ramRelease_witness :
  let root := snd newFilesystem in
  let h := fst (ramMknod true true root (str "/f") 420 (fst newFilesystem)) in
  ∃ h1,
    ramOpen root (str "/f") h = (h1, Ok 2%nat) ∧
    load h1 2%nat = Ok (Inode 33188 1 1 [] 1%nat false) ∧
    (0 ≠ 0 ∨ 1 ≠ 0 → ramRelease root (str "/f") 2%nat h1 = (h, Ok (Served ()))) ∧
    (0 = 0 → ramRelease root (str "/f") 2%nat h = (h, Ok EBADF)).
Proof.
  intros root h.
  apply (ramOpen_ramRelease h root 2%nat (str "/f") (Inode 33188 1 0 [] 1%nat false)).
  - reflexivity.
  - reflexivity.
  - reflexivity.
  - cbn. lia.
Defined.

(** X18.  An open file cannot be unlinked: after a successful [ramOpen] of a
    path (with fewer than [UINT_MAX] handles on the inode), [ramUnlink] of
    that path fails with [EBUSY] and changes nothing. *)
Theorem ramUnlink_open_file (h : state) (root n : ptr) (path : cstr) (ni : inode) :
  pathfind h path root = Ok n → load h n = Ok ni → S_ISDIR (mode ni) = false →
  0 ≤ nopen ni < 2 ^ 32 - 1 →
  ∃ h1, ramOpen root path h = (h1, Ok n) ∧
        ramUnlink root path h1 = (h1, Error EBUSY).
Proof.
  intros Hpf Hni Hmn Hrange. pose proof Hni as [Hn0 Hni']%load_Some.
  rewrite (ramOpen_run h root n path ni) by done.
  rewrite to_uint_small by lia. eexists. split; [done|].
  assert (Hnd : is_dir h n = false) by (unfold is_dir; by rewrite Hni').
  unfold ramUnlink. rewrite bind_read.
  rewrite (pathfind_store_file h n _ path root n Hnd Hpf).
  unfold nonnull. rsimpl. rewrite decide_False by done.
  rewrite bind_read. erewrite isDir_load by (by rewrite load_store_eq).
  cbn [mode set_nopen]. rewrite Hmn.
  rewrite bind_read, load_store_eq by done. cbn [nopen set_nopen].
  by destruct (Z.eqb_spec (nopen ni + 1) 0) as [?|_]; [lia|].
Qed.

Lemma ramUnlink_open_file_witness :
  let root := snd newFilesystem in
  let h := fst (ramMknod true true root (str "/f") 420 (fst newFilesystem)) in
  ∃ h1, ramOpen root (str "/f") h = (h1, Ok 2%nat) ∧
        ramUnlink root (str "/f") h1 = (h1, Error EBUSY).
Proof.
  intros root h.
  apply (ramUnlink_open_file h root 2%nat (str "/f") (Inode 33188 1 0 [] 1%nat false)).
  - reflexivity.
  - reflexivity.
  - reflexivity.
  - cbn. lia.
Defined.

(** ** Listing a directory *)






(** ** File contents *)

Section Buffers.
Implicit Types (b new : list (option ascii)) (d : option (list (option ascii))).

Lemma to_size_t_small (z : Z) : 0 ≤ z < 2 ^ 64 → to_size_t z = z.
Proof. intros Hz. unfold to_size_t. by apply Z.mod_small. Qed.

Lemma to_int_small (z : Z) : 0 ≤ z < 2 ^ 31 → to_int z = z.
Proof. intros Hz. unfold to_int. rewrite Z.mod_small; lia. Qed.

Lemma consistent_length (c : content) :
  consistent c → Z.of_nat (length (default [] (fdata c))) = fsize c.
Proof. unfold consistent. destruct (fdata c); cbn; lia. Qed.

Lemma in_buffer_Some b (offset size : Z) :
  0 ≤ offset → offset + size ≤ Z.of_nat (length b) → in_buffer (Some b) offset size = Ok ().
Proof.
  intros Ho Hs. unfold in_buffer. destruct (size =? 0); [done|].
  destruct (Z.leb_spec 0 offset); [|lia].
  destruct (Z.leb_spec (offset + size) (Z.of_nat (length b))); [done|lia].
Qed.

Lemma copy_in_Some b (offset : Z) new :
  0 ≤ offset → offset + Z.of_nat (length new) ≤ Z.of_nat (length b) →
  copy_in (Some b) offset new
  = Ok (Some (take (Z.to_nat offset) b ++ new ++ drop (Z.to_nat offset + length new) b)).
Proof. intros Ho Hs. unfold copy_in. by rewrite in_buffer_Some. Qed.

Lemma copy_in_nil d (offset : Z) : copy_in d offset [] = Ok d.
Proof.
  unfold copy_in, in_buffer. cbn. destruct d as [b|]; [|done].
  by rewrite Nat.add_0_r, take_drop.
Qed.

Lemma copy_out_nil d (offset : Z) : copy_out d offset 0 = Ok [].
Proof. done. Qed.

Lemma copy_out_Some b (offset size : Z) :
  0 ≤ offset → 0 ≤ size → offset + size ≤ Z.of_nat (length b) →
  copy_out (Some b) offset size = Ok (take (Z.to_nat size) (drop (Z.to_nat offset) b)).
Proof. intros Ho Hs Hb. unfold copy_out. by rewrite in_buffer_Some. Qed.

(** What was copied in is what is copied out. *)
Lemma copy_out_in b (offset : Z) new :
  0 ≤ offset → offset + Z.of_nat (length new) ≤ Z.of_nat (length b) →
  copy_out (Some (take (Z.to_nat offset) b ++ new
                  ++ drop (Z.to_nat offset + length new) b))
    offset (Z.of_nat (length new))
  = Ok new.
Proof.
  intros Ho Hs. rewrite copy_out_Some; [|lia..|].
  - rewrite drop_app_length'; [|rewrite length_take; lia].
    by rewrite Nat2Z.id, take_app_length.
  - rewrite !length_app, length_take, length_drop. lia.
Qed.

(** A cell outside the range that was copied in is as it was. *)
Lemma copy_out_other b (offset : Z) new (k : Z) :
  0 ≤ offset → offset + Z.of_nat (length new) ≤ Z.of_nat (length b) →
  0 ≤ k < Z.of_nat (length b) → k < offset ∨ offset + Z.of_nat (length new) ≤ k →
  copy_out (Some (take (Z.to_nat offset) b ++ new
                  ++ drop (Z.to_nat offset + length new) b)) k 1
  = copy_out (Some b) k 1.
Proof.
  intros Ho Hs Hk Hout. rewrite (copy_out_Some b) by lia.
  rewrite copy_out_Some; [|lia..|].
  2:{ rewrite !length_app, length_take, length_drop. lia. }
  f_equal. change (Z.to_nat 1) with 1%nat.
  apply list_eq. intros [|j]; [|by rewrite !lookup_take_ge by lia].
  rewrite !lookup_take_lt, !lookup_drop, !Nat.add_0_r by lia.
  destruct Hout as [Hlt|Hge].
  - rewrite lookup_app_l by (rewrite length_take; lia).
    by rewrite lookup_take_lt by lia.
  - rewrite lookup_app_r by (rewrite length_take; lia).
    rewrite lookup_app_r by (rewrite length_take; lia).
    rewrite lookup_drop. f_equal. rewrite length_take. lia.
Qed.
End Buffers.

Lemma content_of_set (m : memory) (p q : ptr) (c : content) :
  content_of (set_content p c m) q = if decide (p = q) then c else content_of m q.
Proof.
  unfold content_of, set_content. cbn [contents]. case_decide as Hp.
  - subst. by rewrite lookup_insert_eq.
  - by rewrite lookup_insert_ne.
Qed.

(** The buffer [ramWrite] copies into, and what it holds afterwards. *)
Lemma ramWrite_run (m : memory) (fh : ptr) (i : inode) (buf : list ascii) (offset : Z) :
  load (inodes m) fh = Ok i → nopen i ≠ 0 → S_ISDIR (mode i) = false →
  consistent (content_of m fh) →
  0 ≤ offset → offset + Z.of_nat (length buf) < 2 ^ 31 →
  let c := content_of m fh in
  let len := Z.of_nat (length buf) in
  let old := default [] (fdata c) in
  ∃ pre : option (list (option ascii)),
    pre = (if fsize c <? offset + len
           then Some (old ++ replicate (Z.to_nat (offset + len) - length old) None)
           else fdata c) ∧
    (pre = None → buf = []) ∧
    (∀ b, pre = Some b →
          Z.of_nat (length b) = Z.max (fsize c) (offset + len)) ∧
    ramWrite true fh buf offset m
    = (set_content fh
         (Content (Z.max (fsize c) (offset + len))
            (match pre with
             | None => None
             | Some b => Some (take (Z.to_nat offset) b ++ (Some <$> buf)
                               ++ drop (Z.to_nat offset + length buf) b)
             end)) m,
       Ok (Served len)).
Proof.
  intros Hi Hopen Hm Hc Ho Hlen c len old.
  pose proof (consistent_length _ Hc) as Hold. fold c old in Hold.
  eexists. split; [done|].
  unfold ramWrite. rewrite Hi.
  destruct (Z.eqb_spec (nopen i) 0) as [?|_]; [done|]. rewrite Hm.
  fold c len. rewrite to_size_t_small by lia.
  rewrite (to_int_small len) by lia.
  destruct (Z.ltb_spec (fsize c) (offset + len)) as [Hgrow|Hfit].
  - unfold realloc. fold old. rewrite take_ge by lia.
    replace (len + offset) with (offset + len) by lia.
    rewrite to_uint_small by lia. cbn [fdata fsize].
    set (B := old ++ replicate _ None).
    assert (HB : Z.of_nat (length B) = offset + len).
    { unfold B. rewrite length_app, length_replicate. lia. }
    split; [done|]. split; [intros b [= <-]; lia|].
    rewrite copy_in_Some by (rewrite ?length_fmap; lia).
    rewrite length_fmap. by rewrite Z.max_r by lia.
  - split.
    { intros Hnone. unfold consistent in Hc. fold c in Hc. rewrite Hnone in Hc.
      apply length_zero_iff_nil. lia. }
    split.
    { intros b Hb. unfold old in Hold. rewrite Hb in Hold. cbn in Hold. lia. }
    rewrite Z.max_l by lia.
    destruct (fdata c) as [b|] eqn:Hb.
    + cbn in Hold. rewrite copy_in_Some by (rewrite ?length_fmap; lia).
      by rewrite length_fmap.
    + assert (buf = []) as ->.
      { cbn in Hold. apply length_zero_iff_nil. lia. }
      cbn [fmap list_fmap]. by rewrite copy_in_nil.
Qed.

Lemma write_then_read (m : memory) (fh : ptr) (i : inode) (buf : list ascii)
    (offset : Z) :
  load (inodes m) fh = Ok i → nopen i ≠ 0 → S_ISDIR (mode i) = false →
  consistent (content_of m fh) →
  0 ≤ offset → offset + Z.of_nat (length buf) < 2 ^ 31 →
  ∃ m',
    ramWrite true fh buf offset m = (m', Ok (Served (Z.of_nat (length buf)))) ∧
    ramRead fh (Z.of_nat (length buf)) offset m'
      = Ok (Served (Z.of_nat (length buf), Some <$> buf)) ∧
    inodes m' = inodes m ∧
    (∀ p, p ≠ fh → content_of m' p = content_of m p) ∧
    consistent (content_of m' fh) ∧
    fsize (content_of m' fh)
      = Z.max (fsize (content_of m fh)) (offset + Z.of_nat (length buf)).
Proof.
  intros Hi Hopen Hm Hc Ho Hlen.
  destruct (ramWrite_run m fh i buf offset Hi Hopen Hm Hc Ho Hlen)
    as (pre & Hpre & Hnone & Hsome & ->).
  set (c := content_of m fh) in *. set (len := Z.of_nat (length buf)) in *.
  eexists. split; [done|].
  split; [|split; [done|split; [|split]]].
  2:{ intros p Hp. by rewrite content_of_set, decide_False. }
  2:{ rewrite content_of_set, decide_True by done.
      unfold consistent. cbn [fdata fsize]. destruct pre as [b|].
      - specialize (Hsome b eq_refl).
        rewrite !length_app, length_take, length_drop, length_fmap. lia.
      - destruct (Z.ltb_spec (fsize c) (offset + len)); [done|].
        unfold consistent in Hc. rewrite <- Hpre in Hc. lia. }
  2:{ by rewrite content_of_set, decide_True. }
  unfold ramRead. cbn [inodes set_content]. rewrite Hi. rsimpl.
  destruct (Z.eqb_spec (nopen i) 0) as [?|_]; [done|]. rewrite Hm.
  rewrite content_of_set, decide_True by done. cbn [fsize fdata].
  rewrite to_size_t_small by lia.
  destruct (Z.ltb_spec (Z.max (fsize c) (offset + len)) (offset + len)) as [?|_]; [lia|].
  rewrite (to_int_small len) by lia.
  destruct pre as [b|].
  - specialize (Hsome b eq_refl).
    pose proof (copy_out_in b offset (Some <$> buf)) as Hco.
    rewrite length_fmap in Hco. fold len in Hco. rewrite Hco by lia. done.
  - unfold len. rewrite (Hnone eq_refl). done.
Qed.

(** X21.  What was written is what is read.  For an open handle on an inode
    that is no directory, whose buffer has the length its [size] tells, a
    [ramWrite] of [buf] at [offset] (with [offset + size] below 2^31)
    returns the number of bytes of [buf], and a [ramRead] of as many bytes
    at [offset] then returns that number and the bytes of [buf].  The file
    is afterwards as long as before, or ends where the write ended if that
    is further; its buffer has again the length its [size] tells; no inode
    and no other file has changed. *)
Theorem ramWrite_ramRead (m : memory) (fh : ptr) (i : inode) (buf : list ascii)
    (offset : Z) :
  load (inodes m) fh = Ok i → nopen i ≠ 0 → S_ISDIR (mode i) = false →
  consistent (content_of m fh) →
  0 ≤ offset → offset + Z.of_nat (length buf) < 2 ^ 31 →
  ∃ m',
    ramWrite true fh buf offset m = (m', Ok (Served (Z.of_nat (length buf)))) ∧
    ramRead fh (Z.of_nat (length buf)) offset m'
      = Ok (Served (Z.of_nat (length buf), Some <$> buf)) ∧
    inodes m' = inodes m ∧
    (∀ p, p ≠ fh → content_of m' p = content_of m p) ∧
    consistent (content_of m' fh) ∧
    fsize (content_of m' fh)
      = Z.max (fsize (content_of m fh)) (offset + Z.of_nat (length buf)).
Proof. apply write_then_read. Qed.

Lemma ramWrite_ramRead_witness :
  let m := Memory (State {[ 2%nat := Inode 33188 1 1 [] 1%nat false ]} 3 []) ∅ in
  ∃ m',
    ramWrite true 2%nat (str "hello") 3 m = (m', Ok (Served 5)) ∧
    ramRead 2%nat 5 3 m' = Ok (Served (5, Some <$> str "hello")) ∧
    inodes m' = inodes m ∧
    (∀ p, p ≠ 2%nat → content_of m' p = content_of m p) ∧
    consistent (content_of m' 2%nat) ∧
    fsize (content_of m' 2%nat) = Z.max (fsize (content_of m 2%nat)) (3 + 5).
Proof.
  intros m.
  apply (ramWrite_ramRead m 2%nat (Inode 33188 1 1 [] 1%nat false) (str "hello") 3).
  - reflexivity.
  - discriminate.
  - reflexivity.
  - reflexivity.
  - lia.
  - cbn. lia.
Defined.

Lemma copy_out_app (b pad : list (option ascii)) (k : Z) :
  0 ≤ k < Z.of_nat (length b) →
  copy_out (Some (b ++ pad)) k 1 = copy_out (Some b) k 1.
Proof.
  intros Hk. rewrite !copy_out_Some; [|rewrite ?length_app; lia..].
  f_equal. change (Z.to_nat 1) with 1%nat.
  apply list_eq. intros [|j]; [|by rewrite !lookup_take_ge by lia].
  rewrite !lookup_take_lt, !lookup_drop, !Nat.add_0_r by lia.
  by rewrite lookup_app_l by lia.
Qed.

Lemma ramRead_one (m : memory) (fh : ptr) (i : inode) (k : Z) :
  load (inodes m) fh = Ok i → nopen i ≠ 0 → S_ISDIR (mode i) = false →
  0 ≤ k < fsize (content_of m fh) → fsize (content_of m fh) < 2 ^ 32 →
  ramRead fh 1 k m
  = (bytes ← copy_out (fdata (content_of m fh)) k 1; Ok (Served (1, bytes))).
Proof.
  intros Hi Hopen Hm Hk Hsz. unfold ramRead. rewrite Hi. rsimpl.
  destruct (Z.eqb_spec (nopen i) 0) as [?|_]; [done|]. rewrite Hm.
  rewrite to_size_t_small by lia.
  by destruct (Z.ltb_spec (fsize (content_of m fh)) (k + 1)) as [?|_]; [lia|].
Qed.

(** X22.  A write changes no byte outside its range: under the conditions
    of X21, a byte of the file before [offset], or from the end of the write
    on, reads after the [ramWrite] as it read before. *)
Theorem ramWrite_keeps (m : memory) (fh : ptr) (i : inode) (buf : list ascii)
    (offset k : Z) :
  load (inodes m) fh = Ok i → nopen i ≠ 0 → S_ISDIR (mode i) = false →
  consistent (content_of m fh) →
  0 ≤ offset → offset + Z.of_nat (length buf) < 2 ^ 31 →
  0 ≤ k < fsize (content_of m fh) → fsize (content_of m fh) < 2 ^ 31 →
  k < offset ∨ offset + Z.of_nat (length buf) ≤ k →
  ramRead fh 1 k (fst (ramWrite true fh buf offset m)) = ramRead fh 1 k m.
Proof.
  intros Hi Hopen Hm Hc Ho Hlen Hk Hsz Hout.
  destruct (ramWrite_run m fh i buf offset Hi Hopen Hm Hc Ho Hlen)
    as (pre & Hpre & Hnone & Hsome & ->).
  cbn [fst]. rewrite (ramRead_one m fh i k) by (done || lia).
  rewrite (ramRead_one _ fh i k); try done.
  2,3: rewrite content_of_set, decide_True by done; cbn [fsize]; lia.
  rewrite content_of_set, decide_True by done. cbn [fdata].
  set (c := content_of m fh) in *. set (len := Z.of_nat (length buf)) in *.
  f_equal.
  pose proof (consistent_length _ Hc) as Hold. fold c in Hold.
  destruct (fdata c) as [b|] eqn:Hb; cbn in Hold; [|lia].
  destruct pre as [B|].
  2:{ by destruct (Z.ltb_spec (fsize c) (offset + len)). }
  specialize (Hsome B eq_refl).
  pose proof (copy_out_other B offset (Some <$> buf) k) as Hco.
  rewrite length_fmap in Hco. fold len in Hco. rewrite Hco by lia.
  destruct (Z.ltb_spec (fsize c) (offset + len)).
  - injection Hpre as ->. cbn [default]. apply copy_out_app. lia.
  - by injection Hpre as ->.
Qed.

Lemma ramWrite_keeps_witness :
  let fh := 2%nat in
  let m := Memory (State {[ fh := Inode 33188 1 1 [] 1%nat false ]} 3 [])
                  {[ fh := Content 3 (Some (Some <$> str "abc")) ]} in
  ramRead fh 1 0 (fst (ramWrite true fh (str "z") 2 m)) = ramRead fh 1 0 m.
Proof.
  intros fh m.
  apply (ramWrite_keeps m fh (Inode 33188 1 1 [] 1%nat false) (str "z") 2 0).
  - reflexivity.
  - discriminate.
  - reflexivity.
  - reflexivity.
  - lia.
  - cbn. lia.
  - by vm_compute.
  - by vm_compute.
  - left. lia.
Defined.



(** X24.  A read from the start, of as many bytes as the file has or more,
    returns the whole file: its length as the value and its bytes, in
    order.  (The handle is open on an inode that is no directory; the file
    is shorter than 2^31 bytes and its buffer has the length its [size]
    tells.) *)
Theorem ramRead_whole (m : memory) (fh : ptr) (i : inode) (size : Z) :
  load (inodes m) fh = Ok i → nopen i ≠ 0 → S_ISDIR (mode i) = false →
  consistent (content_of m fh) → fsize (content_of m fh) < 2 ^ 31 →
  fsize (content_of m fh) ≤ size < 2 ^ 64 →
  ramRead fh size 0 m
  = Ok (Served (fsize (content_of m fh), default [] (fdata (content_of m fh)))).
Proof.
  intros Hi Hopen Hm Hc Hsz Hsize. unfold ramRead. rewrite Hi. rsimpl.
  destruct (Z.eqb_spec (nopen i) 0) as [?|_]; [done|]. rewrite Hm.
  set (c := content_of m fh) in *.
  pose proof (consistent_length _ Hc) as Hold.
  rewrite Z.add_0_l, to_size_t_small by lia.
  assert ((if fsize c <? size then fsize c else size) = fsize c) as ->.
  { destruct (Z.ltb_spec (fsize c) size); lia. }
  rewrite to_int_small by lia.
  destruct (fdata c) as [b|]; cbn in Hold.
  - rewrite copy_out_Some by lia. rsimpl. cbn [default Z.to_nat drop].
    rewrite <- Hold, Nat2Z.id, firstn_all. done.
  - by rewrite <- Hold.
Qed.

Lemma ramRead_whole_witness :
  let fh := 2%nat in
  let m := Memory (State {[ fh := Inode 33188 1 1 [] 1%nat false ]} 3 [])
                  {[ fh := Content 3 (Some (Some <$> str "abc")) ]} in
  ramRead fh 4096 0 m = Ok (Served (3, Some <$> str "abc")).
Proof.
  intros fh m.
  apply (ramRead_whole m fh (Inode 33188 1 1 [] 1%nat false) 4096).
  - reflexivity.
  - discriminate.
  - reflexivity.
  - reflexivity.
  - by vm_compute.
  - by vm_compute.
Defined.

(** ** A creation that fails *)






(** ** From creation to reading back *)


